(** * Smart search: query parsing and embedding orchestration

    A shallow embedding of [server/src/services/search.service.ts]
    ([parseQuery] and [searchSmart] of [SearchService]) together with the
    properties of its specification.

    JavaScript strings are sequences of UTF-16 code units; they are modelled
    as lists of [N].  Regular expressions are modelled by a small
    backtracking matcher that covers the constructs the service uses
    (literal characters, [\s], [[^\s]], greedy [*], [+], [{n,}] on a
    character set, [$], one capture group, the [g] and [i] flags).  The
    service runs in a state monad over its embedding cache and the list of
    the calls made to its collaborators, with exceptions.

    Contents: strings and regular expressions; [parseQuery]; the cache, the
    collaborators and [searchSmart]; the reference pattern and the
    post-processing in the words of the specification; the facts about the
    matcher, the extraction loop and the post-processing; the facts about
    the service; the properties of the specification, C1 to C10. *)

From Stdlib Require Import String Ascii List NArith ZArith Arith Bool Lia
  DecimalString.
Import ListNotations.

(* ------------------------------------------------------------------ *)
(** ** JavaScript strings *)

Definition jsString := list N.

(** A string literal of the source, as code units (ASCII literals only). *)
Definition str (s : string) : jsString :=
  map N_of_ascii (list_ascii_of_string s).

Definition jsString_eqb (a b : jsString) : bool :=
  if list_eq_dec N.eq_dec a b then true else false.

(** ECMAScript [WhiteSpace] and [LineTerminator] code points: what [\s]
    matches and what [String.prototype.trim] removes. *)
Definition is_space (c : N) : bool :=
  ((9 <=? c) && (c <=? 13) ||
   (c =? 32) || (c =? 160) || (c =? 5760) ||
   ((8192 <=? c) && (c <=? 8202)) ||
   (c =? 8232) || (c =? 8233) || (c =? 8239) || (c =? 8287) ||
   (c =? 12288) || (c =? 65279))%N.

(** [Canonicalize] of a regular expression with the [i] flag and without the
    [u] flag, on ASCII: a code unit above 127 never canonicalizes into the
    ASCII range, so against an ASCII pattern character the comparison below
    is the one of the language. *)
Definition canonicalize (c : N) : N :=
  if ((97 <=? c) && (c <=? 122))%N then (c - 32)%N else c.

Definition COMMA : N := 44.
Definition SPACE : N := 32.

(** [s.substring(a, b)] for [a <= b]. *)
Definition substring (a b : nat) (s : jsString) : jsString :=
  firstn (b - a) (skipn a s).

(** Truthiness of a string value: only the empty string is falsy. *)
Definition truthyString (s : jsString) : bool :=
  match s with [] => false | _ :: _ => true end.

(** Truthiness of an array value: every array object is truthy, whatever
    its length. *)
Definition truthyArray {A : Type} (l : list A) : bool := true.

(** [String.prototype.trim]. *)
Fixpoint trimStart (s : jsString) : jsString :=
  match s with
  | [] => []
  | c :: s' => if is_space c then trimStart s' else s
  end.

Definition trimEnd (s : jsString) : jsString := rev (trimStart (rev s)).

Definition trim (s : jsString) : jsString := trimEnd (trimStart s).

(** [haystack.indexOf(needle)] and [haystack.replace(needle, by)] for a
    string [needle]: the first occurrence only. *)
Fixpoint startsWith (needle s : jsString) : bool :=
  match needle, s with
  | [], _ => true
  | _ :: _, [] => false
  | a :: needle', b :: s' => (a =? b)%N && startsWith needle' s'
  end.

Fixpoint replaceString (s needle by_ : jsString) : jsString :=
  if startsWith needle s then by_ ++ skipn (length needle) s
  else match s with
       | [] => []
       | c :: s' => c :: replaceString s' needle by_
       end.

(* ------------------------------------------------------------------ *)
(** ** Regular expressions *)

Module RegExp.

Inductive charset : Type :=
| CsChar (c : N)      (* a literal character *)
| CsSpace             (* \s *)
| CsNotSpace.         (* [^\s] *)

Inductive term : Type :=
| TSet (cs : charset)               (* one character of the set *)
| TRep (min : nat) (cs : charset)   (* greedy cs{min,}: * is 0, + is 1 *)
| TEnd                              (* $ (no m flag) *)
| TOpen                             (* ( of capture group 1 *)
| TClose.                           (* ) of capture group 1 *)

Record regex : Type := mkRegex {
  pattern : list term;
  global : bool;
  ignoreCase : bool
}.

Definition inSet (ic : bool) (cs : charset) (c : N) : bool :=
  match cs with
  | CsChar x => if ic then (canonicalize x =? canonicalize c)%N else (x =? c)%N
  | CsSpace => is_space c
  | CsNotSpace => negb (is_space c)
  end.

(** Length of the longest prefix of [s] inside the set. *)
Fixpoint runLength (ic : bool) (cs : charset) (s : jsString) : nat :=
  match s with
  | [] => 0
  | c :: s' => if inSet ic cs c then S (runLength ic cs s') else 0
  end.

(** Greedy choice with backtracking: tries [min + d], [min + d - 1], ...,
    [min] repetitions and keeps the first that lets the rest match. *)
Fixpoint tryDown {R : Type} (f : nat -> option R) (min d : nat) : option R :=
  match f (min + d) with
  | Some r => Some r
  | None => match d with
            | 0 => None
            | S d' => tryDown f min d'
            end
  end.

(** The state of a match: the end offset and the span of group 1. *)
Definition matchResult : Type := (nat * option (nat * nat))%type.

(** [matchTerms ic p s off gopen cap] matches the pattern [p] against the
    input [s], which starts at offset [off] of the whole string. *)
Fixpoint matchTerms (ic : bool) (p : list term) (s : jsString) (off : nat)
         (gopen : nat) (cap : option (nat * nat)) : option matchResult :=
  match p with
  | [] => Some (off, cap)
  | TSet cs :: p' =>
      match s with
      | c :: s' => if inSet ic cs c then matchTerms ic p' s' (S off) gopen cap
                   else None
      | [] => None
      end
  | TRep min cs :: p' =>
      let n := runLength ic cs s in
      if n <? min then None
      else tryDown (fun k => matchTerms ic p' (skipn k s) (off + k) gopen cap)
                   min (n - min)
  | TEnd :: p' =>
      match s with
      | [] => matchTerms ic p' s off gopen cap
      | _ :: _ => None
      end
  | TOpen :: p' => matchTerms ic p' s off off cap
  | TClose :: p' => matchTerms ic p' s off gopen (Some (gopen, off))
  end.

(** Leftmost match at or after offset [i]; [s] is the input from [i] on. *)
Fixpoint searchFrom (ic : bool) (p : list term) (s : jsString) (i : nat)
  : option (nat * matchResult) :=
  match matchTerms ic p s i i None with
  | Some r => Some (i, r)
  | None => match s with
            | [] => None
            | _ :: s' => searchFrom ic p s' (S i)
            end
  end.

(** The result array of [exec]: [index], [match[0]], [match[1]]. *)
Record execResult : Type := mkExec {
  index : nat;
  matched : jsString;
  group1 : option jsString
}.

(** [re.exec(s)] with [re.lastIndex = lastIndex]: the result and the new
    [lastIndex].  A regex without the [g] flag starts at 0 and leaves
    [lastIndex] alone. *)
Definition exec (re : regex) (s : jsString) (lastIndex : nat)
  : option execResult * nat :=
  let start := if global re then lastIndex else 0 in
  if length s <? start then (None, if global re then 0 else lastIndex)
  else
    match searchFrom (ignoreCase re) (pattern re) (skipn start s) start with
    | None => (None, if global re then 0 else lastIndex)
    | Some (i, (e, cap)) =>
        (Some (mkExec i (substring i e s)
                      (option_map (fun g => substring (fst g) (snd g) s) cap)),
         if global re then e else lastIndex)
    end.

(** [s.replace(re, by)] for a regex without the [g] flag and a replacement
    without [$] patterns: the first match only. *)
Definition replace (re : regex) (s by_ : jsString) : jsString :=
  match exec re s 0 with
  | (None, _) => s
  | (Some m, _) =>
      firstn (index m) s ++ by_ ++ skipn (index m + length (matched m)) s
  end.

(** [s.replaceAll(re, by)] for a regex with the [g] flag: every match, left
    to right; after an empty match [lastIndex] advances by one.
    [nextSrc] is the first position not copied yet.  Every iteration moves
    [lastIndex] forward, so [length s + 2] iterations are enough (lemma
    [replaceAllLoop_multipleSpaces] for the expression the service uses). *)
Fixpoint replaceAllLoop (fuel : nat) (re : regex) (s by_ : jsString)
         (lastIndex nextSrc : nat) : jsString :=
  match fuel with
  | 0 => skipn nextSrc s
  | S fuel' =>
      match exec re s lastIndex with
      | (None, _) => skipn nextSrc s
      | (Some m, lastIndex') =>
          let e := index m + length (matched m) in
          substring nextSrc (index m) s ++ by_ ++
          replaceAllLoop fuel' re s by_
            (if length (matched m) =? 0 then S lastIndex' else lastIndex') e
      end
  end.

Definition replaceAll (re : regex) (s by_ : jsString) : jsString :=
  replaceAllLoop (length s + 2) re s by_ 0 0.

End RegExp.

Import RegExp.

(* ------------------------------------------------------------------ *)
(** ** [parseQuery] *)

Record SmartSearchQuery : Type := mkQuery {
  similarToAssetIds : list jsString;
  searchText : jsString
}.

Definition literal (s : string) : list term :=
  map (fun c => TSet (CsChar c)) (str s).

(** [/similarTo:([^\s]+)/gi] *)
Definition similarToRegex : regex :=
  mkRegex (literal "similarTo:" ++ [TOpen; TRep 1 CsNotSpace; TClose]) true true.

(** [/,\s*$/] *)
Definition commaSpacesEnd : regex :=
  mkRegex [TSet (CsChar COMMA); TRep 0 CsSpace; TEnd] false false.

(** [/\s*,$/] *)
Definition spacesCommaEnd : regex :=
  mkRegex [TRep 0 CsSpace; TSet (CsChar COMMA); TEnd] false false.

(** [/\s{2,}/g] *)
Definition multipleSpaces : regex :=
  mkRegex [TRep 2 CsSpace] true false.

(** The [while ((match = similarToRegex.exec(smartSearchQuery)) !== null)]
    loop.  [None] stands for a loop that has not ended within [fuel]
    iterations. *)
Fixpoint parseLoop (fuel : nat) (smartSearchQuery : jsString) (lastIndex : nat)
         (ids : list jsString) (text : jsString)
  : option (list jsString * jsString) :=
  match fuel with
  | 0 => None
  | S fuel' =>
      match exec similarToRegex smartSearchQuery lastIndex with
      | (None, _) => Some (ids, text)
      | (Some m, lastIndex') =>
          parseLoop fuel' smartSearchQuery lastIndex'
            (ids ++ [match group1 m with Some g => g | None => [] end])
            (replaceString text (matched m) [])
      end
  end.

(** The trimming of extra whitespace and commas. *)
Definition postProcess (text : jsString) : jsString :=
  trim (replaceAll multipleSpaces
          (replace spacesCommaEnd (replace commaSpacesEnd text []) [])
          [SPACE]).

(** Every iteration moves [lastIndex] forward, so [length + 1] iterations
    are enough (lemma [parseLoop_total]); the last branch is never taken. *)
Definition parseQuery (smartSearchQuery : jsString) : SmartSearchQuery :=
  match parseLoop (S (length smartSearchQuery)) smartSearchQuery 0 []
                  smartSearchQuery with
  | Some (ids, text) => mkQuery ids (postProcess text)
  | None => mkQuery [] (postProcess smartSearchQuery)
  end.

(* ------------------------------------------------------------------ *)
(** ** The embedding cache: [new LRUMap<string, string>(100)]

    The entries are kept most recently used first.  [get] moves the entry
    it finds to the front; [set] puts the entry at the front and, when a new
    key arrives in a full map, drops the least recently used one. *)

Module LRUMap.

Record t : Type := mk {
  capacity : nat;
  items : list (jsString * jsString)
}.

Definition create (capacity : nat) : t := mk capacity [].

Fixpoint lookup (key : jsString) (l : list (jsString * jsString))
  : option jsString :=
  match l with
  | [] => None
  | (k, v) :: l' => if jsString_eqb key k then Some v else lookup key l'
  end.

Fixpoint remove (key : jsString) (l : list (jsString * jsString))
  : list (jsString * jsString) :=
  match l with
  | [] => []
  | (k, v) :: l' => if jsString_eqb key k then l' else (k, v) :: remove key l'
  end.

Definition get (key : jsString) (m : t) : option jsString * t :=
  match lookup key (items m) with
  | Some v => (Some v, mk (capacity m) ((key, v) :: remove key (items m)))
  | None => (None, m)
  end.

Definition set (key value : jsString) (m : t) : t :=
  match lookup key (items m) with
  | Some _ => mk (capacity m) ((key, value) :: remove key (items m))
  | None =>
      if length (items m) <? capacity m
      then mk (capacity m) ((key, value) :: items m)
      else mk (capacity m) ((key, value) :: removelast (items m))
  end.

End LRUMap.

(* ------------------------------------------------------------------ *)
(** ** Requests, configuration and collaborators *)

(** Modelled from the spec: the visibility categories of [src/enum] are not
    part of the sources at hand; the service only tells the locked one from
    the others. *)
Inductive AssetVisibility : Type := LOCKED | NOT_LOCKED.

(** Modelled from the spec: [AuthDto] with the yes/no grant that
    [requireElevatedPermission] reads. *)
Record AuthDto : Type := mkAuth {
  userId : jsString;
  hasElevatedPermission : bool
}.

(** Modelled from the spec: the request of a smart search: query text,
    visibility filter, language tag, optional page and size. *)
Record SmartSearchDto : Type := mkDto {
  query : jsString;
  language : jsString;
  visibility : AssetVisibility;
  page : option N;
  size : option N
}.

(** Modelled from the spec: the [machineLearning] part of the configuration;
    [smartSearchEnabled] is what [isSmartSearchEnabled] answers. *)
Record MachineLearningConfig : Type := mkConfig {
  smartSearchEnabled : bool;
  clipModelName : jsString;
  urls : list jsString
}.

Definition embedding : Type := jsString.
Definition MapAsset : Type := N.
Definition AssetResponseDto : Type := N.

(** How the promise of a call to a collaborator settles. *)
Inductive reply (A : Type) : Type :=
| Failed (code : N)
| Replied (a : A).
Arguments Failed {A} code.
Arguments Replied {A} a.

(** What is passed as [userIds] to the index: the array, or the promise of
    [getUserIdsToSearch] itself. *)
Inductive userIdsArgument : Type :=
| UserIds (ids : list jsString)
| UserIdsPromise (settled : reply (list jsString)).

(** The calls to the collaborators, in the order they are made. *)
Inductive event : Type :=
| GetConfig
| GetPartnerIds (user : jsString)
| EncodeText (urls : list jsString) (text modelName language : jsString)
| GetAssetEmbeddings (assetIds : list jsString)
| AverageEmbeddings (urls : list jsString) (embeddings : list embedding)
| SearchSmart (page size : N) (userIds : userIdsArgument)
              (queryEmbedding : option embedding)
| Log (breakdown : SmartSearchQuery) (embeddingsLength : nat).

(** The collaborators.  An answer may depend on everything that happened
    before (the list of earlier calls), and a collaborator may fail. *)
Record Collaborators : Type := mkCollaborators {
  getConfig : list event -> reply MachineLearningConfig;
  getMyPartnerIds : list event -> jsString -> reply (list jsString);
  encodeText : list event -> list jsString -> jsString -> jsString -> jsString ->
               reply embedding;
  getAssetEmbeddings : list event -> list jsString -> reply (list embedding);
  averageEmbeddings : list event -> list jsString -> list embedding ->
                      reply embedding;
  searchSmartIndex : list event -> N -> N -> userIdsArgument ->
                     option embedding -> reply (list MapAsset * bool);
  mapAsset : MapAsset -> AuthDto -> AssetResponseDto
}.

Inductive exception : Type :=
| InsufficientPermission
| BadRequestException (message : string)
| CollaboratorFailure (code : N).

Definition FeatureDisabled : exception :=
  BadRequestException "Smart search is not enabled".
Definition QueryNotUnderstood : exception :=
  BadRequestException "Search term is not understood".

(** The state a request runs in: the cache of the service and the calls made
    so far. *)
Record world : Type := mkWorld {
  embeddingCache : LRUMap.t;
  trace : list event
}.

Inductive outcome (A : Type) : Type :=
| Threw (e : exception)
| Returned (a : A).
Arguments Threw {A} e.
Arguments Returned {A} a.

Definition M (A : Type) : Type := world -> outcome A * world.

Definition ret {A : Type} (a : A) : M A := fun w => (Returned a, w).

Definition throw {A : Type} (e : exception) : M A := fun w => (Threw e, w).

Definition bind {A B : Type} (m : M A) (k : A -> M B) : M B :=
  fun w => match m w with
           | (Threw e, w') => (Threw e, w')
           | (Returned a, w') => k a w'
           end.

Declare Scope service_scope.
Delimit Scope service_scope with service.
Notation "x <- m ;; k" := (bind m (fun x => k))
  (at level 100, m at next level, right associativity) : service_scope.
Notation "m ;; k" := (bind m (fun _ => k))
  (at level 100, right associativity) : service_scope.
Open Scope service_scope.

Definition record (e : event) : M unit :=
  fun w => (Returned tt, mkWorld (embeddingCache w) (trace w ++ [e])).

(** A call whose promise is not awaited yet: the call is made, its
    settlement is kept. *)
Definition start {A : Type} (e : event) (answer : list event -> reply A)
  : M (reply A) :=
  fun w => (Returned (answer (trace w)),
            mkWorld (embeddingCache w) (trace w ++ [e])).

Definition await {A : Type} (settled : reply A) : M A :=
  match settled with
  | Failed code => throw (CollaboratorFailure code)
  | Replied a => ret a
  end.

Definition call {A : Type} (e : event) (answer : list event -> reply A) : M A :=
  settled <- start e answer ;; await settled.

Definition cacheGet (key : jsString) : M (option embedding) :=
  fun w => let (v, c) := LRUMap.get key (embeddingCache w) in
           (Returned v, mkWorld c (trace w)).

Definition cacheSet (key : jsString) (value : embedding) : M unit :=
  fun w => (Returned tt,
            mkWorld (LRUMap.set key value (embeddingCache w)) (trace w)).

(* ------------------------------------------------------------------ *)
(** ** [searchSmart] *)

(** Modelled from the spec: [requireElevatedPermission] of
    [src/utils/access], which is not part of the sources at hand: it fails
    with [InsufficientPermission] when the grant is absent. *)
Definition requireElevatedPermission (auth : AuthDto) : M unit :=
  if hasElevatedPermission auth then ret tt else throw InsufficientPermission.

(** [getUserIdsToSearch]: the requesting user, then the partners the
    directory answers. *)
Definition getUserIdsToSearch (env : Collaborators) (auth : AuthDto)
  : M (reply (list jsString)) :=
  partnerIds <- start (GetPartnerIds (userId auth))
                      (fun h => getMyPartnerIds env h (userId auth)) ;;
  ret (match partnerIds with
       | Failed code => Failed code
       | Replied ids => Replied (userId auth :: ids)
       end).

Record SearchResponseDto : Type := mkResponse {
  albumsTotal : nat;
  albumsCount : nat;
  albumsItems : list N;
  assetsTotal : nat;
  assetsCount : nat;
  assetsItems : list AssetResponseDto;
  nextPage : option jsString
}.

Definition mapResponse (env : Collaborators) (assets : list MapAsset)
           (nextPage : option jsString) (auth : AuthDto) : SearchResponseDto :=
  mkResponse 0 0 [] (length assets) (length assets)
             (map (fun asset => mapAsset env asset auth) assets) nextPage.

(** [n.toString()] of a natural number. *)
Definition toString (n : N) : jsString :=
  str (NilEmpty.string_of_uint (N.to_uint n)).

(** [machineLearning.clip.modelName + dto.query + dto.language] *)
Definition cacheKey (modelName query language : jsString) : jsString :=
  modelName ++ query ++ language.

(** Lines 152-160: the embedding of the whole query, from the cache or from
    the encoder. *)
Definition cachedEmbedding (env : Collaborators)
           (machineLearning : MachineLearningConfig) (dto : SmartSearchDto)
  : M embedding :=
  let key := cacheKey (clipModelName machineLearning) (query dto) (language dto) in
  let encode : M embedding :=
    e <- call (EncodeText (urls machineLearning) (query dto)
                          (clipModelName machineLearning) (language dto))
              (fun h => encodeText env h (urls machineLearning) (query dto)
                                   (clipModelName machineLearning)
                                   (language dto)) ;;
    cacheSet key e ;;
    ret e in
  cached <- cacheGet key ;;
  match cached with
  | Some e => if truthyString e then ret e else encode
  | None => encode
  end.

(** Lines 171-194: the embeddings of the parsed query. *)
Definition searchEmbeddings (env : Collaborators)
           (machineLearning : MachineLearningConfig) (dto : SmartSearchDto)
           (searchBreakdown : SmartSearchQuery) : M (list embedding) :=
  if negb (truthyString (searchText searchBreakdown)) &&
     negb (truthyArray (similarToAssetIds searchBreakdown))
  then throw QueryNotUnderstood
  else
    fromAssets <-
      (if truthyArray (similarToAssetIds searchBreakdown)
       then call (GetAssetEmbeddings (similarToAssetIds searchBreakdown))
                 (fun h => getAssetEmbeddings env h
                             (similarToAssetIds searchBreakdown))
       else ret []) ;;
    if truthyString (searchText searchBreakdown)
    then
      textEmbedding <-
        call (EncodeText (urls machineLearning) (searchText searchBreakdown)
                         (clipModelName machineLearning) (language dto))
             (fun h => encodeText env h (urls machineLearning)
                                  (searchText searchBreakdown)
                                  (clipModelName machineLearning) (language dto)) ;;
      ret (fromAssets ++ [textEmbedding])
    else ret fromAssets.

(** [dto.page ?? 1] *)
Definition pageOf (dto : SmartSearchDto) : N :=
  match page dto with Some p => p | None => 1%N end.

(** [dto.size || 100]: also when the size is 0. *)
Definition sizeOf (dto : SmartSearchDto) : N :=
  match size dto with
  | Some n => if (n =? 0)%N then 100%N else n
  | None => 100%N
  end.

Definition searchSmart (env : Collaborators) (auth : AuthDto)
           (dto : SmartSearchDto) : M SearchResponseDto :=
  (match visibility dto with
   | LOCKED => requireElevatedPermission auth
   | NOT_LOCKED => ret tt
   end) ;;
  machineLearning <- call GetConfig (getConfig env) ;;
  if negb (smartSearchEnabled machineLearning) then throw FeatureDisabled
  else
    userIds <- getUserIdsToSearch env auth ;;
    embedding <- cachedEmbedding env machineLearning dto ;;
    let page := pageOf dto in
    let size := sizeOf dto in
    awaited <- await userIds ;;
    _ <- call (SearchSmart page size (UserIds awaited) (Some embedding))
              (fun h => searchSmartIndex env h page size (UserIds awaited)
                                         (Some embedding)) ;;
    (* [let items = []; let hasNextPage = false;] declare both names anew *)
    let searchBreakdown := parseQuery (query dto) in
    embeddings <- searchEmbeddings env machineLearning dto searchBreakdown ;;
    record (Log searchBreakdown (length embeddings)) ;;
    res <-
      (if 1 <? length embeddings
       then
         averaged <- call (AverageEmbeddings (urls machineLearning) embeddings)
                          (fun h => averageEmbeddings env h
                                      (urls machineLearning) embeddings) ;;
         call (SearchSmart page size (UserIdsPromise userIds) (Some averaged))
              (fun h => searchSmartIndex env h page size
                                         (UserIdsPromise userIds) (Some averaged))
       else
         call (SearchSmart page size (UserIdsPromise userIds)
                           (nth_error embeddings 0))
              (fun h => searchSmartIndex env h page size
                                         (UserIdsPromise userIds)
                                         (nth_error embeddings 0))) ;;
    let (items, hasNextPage) := res in
    ret (mapResponse env items
                     (if hasNextPage then Some (toString (page + 1)) else None)
                     auth).

(** The number of calls to the text encoder and to the index in a trace. *)
Definition isEncodeText (e : event) : bool :=
  match e with EncodeText _ _ _ _ => true | _ => false end.

Definition isSearchSmart (e : event) : bool :=
  match e with SearchSmart _ _ _ _ => true | _ => false end.

Definition isGetAssetEmbeddings (e : event) : bool :=
  match e with GetAssetEmbeddings _ => true | _ => false end.

Definition encoderCalls (t : list event) : nat :=
  length (filter isEncodeText t).

Definition indexCalls (t : list event) : nat :=
  length (filter isSearchSmart t).

(* ------------------------------------------------------------------ *)
(** ** A deployment to run requests in *)

Definition sampleConfig : MachineLearningConfig :=
  mkConfig true (str "ViT-B-32__openai") [str "http://ml:3003"].

(** Every collaborator answers; the encoder answers [E(text)], the storage
    [A(id)] for each asset, the averaging [avg], the index two assets and no
    further page. *)
Definition sampleEnv : Collaborators :=
  mkCollaborators
    (fun _ => Replied sampleConfig)
    (fun _ _ => Replied [str "partner-1"])
    (fun _ _ text _ _ => Replied (str "E(" ++ text ++ str ")"))
    (fun _ ids => Replied (map (fun id => str "A(" ++ id ++ str ")") ids))
    (fun _ _ _ => Replied (str "avg"))
    (fun _ _ _ _ _ => Replied ([1%N; 2%N], false))
    (fun asset _ => asset).

Definition sampleAuth : AuthDto := mkAuth (str "user-1") false.

Definition sampleDto (q : string) : SmartSearchDto :=
  mkDto (str q) (str "en") NOT_LOCKED None None.

(** The service right after its construction. *)
Definition initialWorld : world := mkWorld (LRUMap.create 100) [].

(** [m] never raises [e], whatever the state it runs in. *)
Definition neverThrows {A : Type} (e : exception) (m : M A) : Prop :=
  forall w, fst (m w) <> Threw e.

(** Every run of [m] that returns makes exactly [n] calls that satisfy [p]. *)
Definition calls {A : Type} (p : event -> bool) (m : M A) (n : nat) : Prop :=
  forall w a w', m w = (Returned a, w') ->
                 length (filter p (trace w')) = length (filter p (trace w)) + n.

(** Every run of [m] that returns makes at least [n] such calls. *)
Definition callsAtLeast {A : Type} (p : event -> bool) (m : M A) (n : nat)
  : Prop :=
  forall w a w', m w = (Returned a, w') ->
                 length (filter p (trace w)) + n <= length (filter p (trace w')).

(** Every run of [m] that returns answers a value that satisfies [Q] and makes
    only calls that satisfy [P]. *)
Definition runs {A : Type} (m : M A) (Q : A -> Prop) (P : event -> Prop)
  : Prop :=
  forall w a w', m w = (Returned a, w') ->
                 Q a /\ exists t, trace w' = trace w ++ t /\ Forall P t.

(** A search of the index for this request: its page and size, and the
    requesting user first in the user ids, as an array or as a promise. *)
Definition searchOf (auth : AuthDto) (dto : SmartSearchDto) (ev : event)
  : Prop :=
  match ev with
  | SearchSmart p s ids _ =>
      p = pageOf dto /\ s = sizeOf dto /\
      exists partners,
        ids = UserIds (userId auth :: partners) \/
        ids = UserIdsPromise (Replied (userId auth :: partners))
  | _ => True
  end.

(* ------------------------------------------------------------------ *)
(** ** The reference pattern, in the words of the specification *)

Definition KEYWORD : jsString := str "similarTo:".

Definition nonSpace (c : N) : bool := negb (is_space c).

(** [w] is [kw] up to the case of its letters. *)
Fixpoint sameIgnoringCase (kw w : jsString) : bool :=
  match kw, w with
  | [], [] => true
  | a :: kw', b :: w' =>
      (canonicalize a =? canonicalize b)%N && sameIgnoringCase kw' w'
  | _, _ => false
  end.

Definition isKeyword (w : jsString) : bool := sameIgnoringCase KEYWORD w.

(** A reference [similarTo:<token>] starts at the head of [s]: the keyword,
    in any case, followed by at least one non-whitespace character. *)
Definition refAt (s : jsString) : bool :=
  isKeyword (firstn 10 s) &&
  match skipn 10 s with
  | c :: _ => nonSpace c
  | [] => false
  end.

(** The text stops here or goes on with a whitespace character. *)
Definition tokenEnds (rest : jsString) : Prop :=
  match rest with
  | [] => True
  | c :: _ => is_space c = true
  end.

Record occurrence : Type := mkOcc {
  gapBefore : jsString;   (* the text between the previous match and this one *)
  keyword : jsString;     (* [similarTo:] as it is written in the query *)
  token : jsString        (* the maximal run of non-whitespace after it *)
}.

(** [Occurrences s occs lastGap]: [occs] are the occurrences of the
    reference pattern in [s] found left to right without overlap, each the
    leftmost one after the previous match, each token maximal; [lastGap]
    is the text after the last one. *)
Inductive Occurrences : jsString -> list occurrence -> jsString -> Prop :=
| Occ_none (s : jsString) :
    (forall k, refAt (skipn k s) = false) ->
    Occurrences s [] s
| Occ_ref (gap kw tok rest : jsString) (occs : list occurrence)
          (lastGap : jsString) :
    (forall k, k < length gap ->
               refAt (skipn k (gap ++ kw ++ tok ++ rest)) = false) ->
    isKeyword kw = true ->
    tok <> [] ->
    forallb nonSpace tok = true ->
    tokenEnds rest ->
    Occurrences rest occs lastGap ->
    Occurrences (gap ++ kw ++ tok ++ rest) (mkOcc gap kw tok :: occs) lastGap.

(** The query with every matched [similarTo:<token>] taken out. *)
Definition remainingText (occs : list occurrence) (lastGap : jsString)
  : jsString :=
  concat (map gapBefore occs) ++ lastGap.

(** The spans [(start, end)] of the occurrences in a text that begins at
    offset [off]. *)
Fixpoint spans (off : nat) (occs : list occurrence) : list (nat * nat) :=
  match occs with
  | [] => []
  | o :: occs' =>
      let a := off + length (gapBefore o) in
      let b := a + length (keyword o) + length (token o) in
      (a, b) :: spans b occs'
  end.

(* ------------------------------------------------------------------ *)
(** ** The post-processing, in the words of the specification *)

(** Removes a comma that only whitespace follows, with that whitespace. *)
Definition stripCommaThenSpaces (s : jsString) : jsString :=
  match rev (trimEnd s) with
  | c :: a => if (c =? COMMA)%N then rev a else s
  | [] => s
  end.

(** Removes a comma that ends the text, with the whitespace before it. *)
Definition stripSpacesThenComma (s : jsString) : jsString :=
  match rev s with
  | c :: a => if (c =? COMMA)%N then trimEnd (rev a) else s
  | [] => s
  end.

(** Removes a single trailing comma with the whitespace on both sides of
    it, and nothing if the text does not end that way. *)
Definition stripOneTrailingComma (s : jsString) : jsString :=
  match rev (trimEnd s) with
  | c :: a => if (c =? COMMA)%N then trimEnd (rev a) else s
  | [] => s
  end.

(** Turns every maximal run of two or more whitespace characters into one
    space; a whitespace character on its own stays as it is.  [inRun] says
    that the previous character belongs to a run already replaced. *)
Fixpoint collapseFrom (inRun : bool) (s : jsString) : jsString :=
  match s with
  | [] => []
  | c :: s' =>
      if is_space c then
        if inRun then collapseFrom true s'
        else match s' with
             | c' :: _ =>
                 if is_space c' then SPACE :: collapseFrom true s'
                 else c :: collapseFrom false s'
             | [] => [c]
             end
      else c :: collapseFrom false s'
  end.

Definition collapseSpaces (s : jsString) : jsString := collapseFrom false s.

(** Post-processing that strips a single trailing comma. *)
Definition postProcessOneComma (text : jsString) : jsString :=
  trim (collapseSpaces (stripOneTrailingComma text)).

(** Post-processing that strips a trailing comma twice. *)
Definition postProcessTwoCommas (text : jsString) : jsString :=
  trim (collapseSpaces (stripSpacesThenComma (stripCommaThenSpaces text))).

(* ------------------------------------------------------------------ *)
(** ** Clean text and dangling keywords *)

(** No reference starts anywhere in [s]. *)
Fixpoint noReference (s : jsString) : bool :=
  negb (refAt s) &&
  match s with
  | [] => true
  | _ :: s' => noReference s'
  end.

(** No two whitespace characters follow each other in [s]. *)
Fixpoint noDoubleSpace (s : jsString) : bool :=
  match s with
  | [] => true
  | c1 :: s' =>
      match s' with
      | c2 :: _ => negb (is_space c1 && is_space c2)
      | [] => true
      end && noDoubleSpace s'
  end.

(** [s] neither starts nor ends with whitespace. *)
Definition noOuterSpace (s : jsString) : bool :=
  match s with c :: _ => nonSpace c | [] => true end &&
  match rev s with c :: _ => nonSpace c | [] => true end.

Definition noTrailingComma (s : jsString) : bool :=
  match rev s with c :: _ => negb (c =? COMMA)%N | [] => true end.

Definition cleanText (s : jsString) : bool :=
  noReference s && noDoubleSpace s && noOuterSpace s && noTrailingComma s.

(** The keyword is written at position [k] of [s] and no token follows it:
    the text ends there or goes on with a whitespace character. *)
Definition danglingAt (s : jsString) (k : nat) : bool :=
  isKeyword (firstn 10 (skipn k s)) &&
  match skipn (k + 10) s with
  | [] => true
  | c :: _ => is_space c
  end.

(** [w] is written somewhere in [s]. *)
Definition Infix (w s : jsString) : Prop := exists a b, s = a ++ w ++ b.

(** Characters that are neither whitespace nor a comma. *)
Definition plainChar (c : N) : bool := nonSpace c && negb (c =? COMMA)%N.

(* ------------------------------------------------------------------ *)
(** ** [Buffer.from(string, encoding)] for the two encodings of a checksum *)

Module Buffer.

(** A buffer is its bytes. *)
Definition t : Type := list N.

Inductive encoding : Type := base64 | hex.

(** The value of a hexadecimal digit, in either case. *)
Definition hexValue (c : N) : option N :=
  if ((48 <=? c) && (c <=? 57))%N then Some (c - 48)%N
  else if ((97 <=? c) && (c <=? 102))%N then Some (c - 87)%N
  else if ((65 <=? c) && (c <=? 70))%N then Some (c - 55)%N
  else None.

(** Two digits make a byte; the data ends at the first pair that is not
    two digits, and a last digit on its own is dropped. *)
Fixpoint fromHex (s : jsString) : t :=
  match s with
  | a :: b :: s' =>
      match hexValue a, hexValue b with
      | Some h, Some l => (h * 16 + l)%N :: fromHex s'
      | _, _ => []
      end
  | _ => []
  end.

(** The value of a character of the base64 alphabet or of its URL
    variant. *)
Definition unbase64 (c : N) : option N :=
  if ((65 <=? c) && (c <=? 90))%N then Some (c - 65)%N
  else if ((97 <=? c) && (c <=? 122))%N then Some (c - 71)%N
  else if ((48 <=? c) && (c <=? 57))%N then Some (c + 4)%N
  else if ((c =? 43) || (c =? 45))%N then Some 62%N
  else if ((c =? 47) || (c =? 95))%N then Some 63%N
  else None.

(** The six-bit values of the data: [=] ends it, any other character
    outside the alphabet is skipped. *)
Fixpoint sextets (s : jsString) : list N :=
  match s with
  | [] => []
  | c :: s' =>
      if (c =? 61)%N then []
      else match unbase64 c with
           | Some v => v :: sextets s'
           | None => sextets s'
           end
  end.

(** Four values make three bytes; three values left make two bytes, two
    make one. *)
Fixpoint fromSextets (l : list N) : t :=
  match l with
  | a :: b :: c :: d :: l' =>
      (a * 4 + b / 16)%N :: ((b mod 16) * 16 + c / 4)%N ::
      ((c mod 4) * 64 + d)%N :: fromSextets l'
  | [a; b; c] => [(a * 4 + b / 16)%N; ((b mod 16) * 16 + c / 4)%N]
  | [a; b] => [(a * 4 + b / 16)%N]
  | _ => []
  end.

Definition fromBase64 (s : jsString) : t := fromSextets (sextets s).

Definition from (s : jsString) (e : encoding) : t :=
  match e with
  | base64 => fromBase64 s
  | hex => fromHex s
  end.

End Buffer.

(* ------------------------------------------------------------------ *)
(** ** The other endpoints of [SearchService]

    They do not touch the embedding cache: they run over the list of the
    calls made to the repositories. *)

(** [AssetOrder] of [src/enum]; this file names [DESC] only. *)
Inductive AssetOrder : Type := ASC | DESC.

(** [SearchSuggestionType] of [src/dtos/search.dto]: the five types that
    [getSuggestions] tells apart, and any other value. *)
Inductive SearchSuggestionType : Type :=
| COUNTRY | STATE | CITY | CAMERA_MAKE | CAMERA_MODEL | OTHER_TYPE.

Module MetadataSearchDto.
Record t : Type := mk {
  checksum : option jsString;
  page : option N;
  size : option N;
  visibility : AssetVisibility;
  order : option AssetOrder;
  filters : jsString              (* every other field, passed on as it is *)
}.
End MetadataSearchDto.

Module RandomSearchDto.
Record t : Type := mk {
  size : option N;
  visibility : AssetVisibility;
  filters : jsString              (* every other field, passed on as it is *)
}.
End RandomSearchDto.

Module SearchSuggestionRequestDto.
Record t : Type := mk {
  type : SearchSuggestionType;
  includeNull : bool;             (* an absent flag is falsy *)
  filters : jsString              (* every other field, passed on as it is *)
}.
End SearchSuggestionRequestDto.

Module SearchPeopleDto.
Record t : Type := mk {
  name : jsString;
  withHidden : option bool
}.
End SearchPeopleDto.

Module SearchPlacesDto.
Record t : Type := mk {
  name : jsString
}.
End SearchPlacesDto.

(** What [getAssetIdByCity] answers: a field name and items, each with the
    id of an asset as its [data]. *)
Record CityItem : Type := mkCityItem {
  data : jsString
}.

Record CityItems : Type := mkCityItems {
  fieldName : jsString;
  cityItems : list CityItem
}.

(** One field of [getExploreData]: for each asset its city, which may be
    null, and the mapped asset. *)
Record ExploreField : Type := mkExploreField {
  exploreFieldName : jsString;
  exploreItems : list (option jsString * AssetResponseDto)
}.

Module Endpoints.

(** The calls to the repositories, with their arguments. *)
Inductive call : Type :=
| GetPartnerIds (user : jsString)
| SearchMetadata (page size : N) (dto : MetadataSearchDto.t)
                 (checksum : option Buffer.t) (userIds : list jsString)
                 (orderDirection : AssetOrder)
| SearchStatistics (dto : jsString) (userIds : list jsString)
| SearchRandom (size : N) (dto : RandomSearchDto.t) (userIds : list jsString)
| GetAssetsByCity (userIds : list jsString)
| GetCountries (userIds : list jsString)
| GetStates (userIds : list jsString) (dto : SearchSuggestionRequestDto.t)
| GetCities (userIds : list jsString) (dto : SearchSuggestionRequestDto.t)
| GetCameraMakes (userIds : list jsString) (dto : SearchSuggestionRequestDto.t)
| GetCameraModels (userIds : list jsString) (dto : SearchSuggestionRequestDto.t)
| GetByName (user name : jsString) (withHidden : option bool)
| SearchPlaces (name : jsString)
| GetAssetIdByCity (user : jsString) (maxFields minAssetsPerField : N)
| GetByIdsWithAllRelationsButStacks (ids : list jsString).

(** The repositories and the helpers that are not part of this file.  An
    answer may depend on the calls made before, and a repository may fail.
    [requireElevatedPermission] returns ([None]) or throws. *)
Record Repositories : Type := mkRepositories {
  requireElevatedPermission : AuthDto -> option exception;
  getMyPartnerIds : list call -> jsString -> reply (list jsString);
  searchMetadataIndex : list call -> N -> N -> MetadataSearchDto.t ->
                        option Buffer.t -> list jsString -> AssetOrder ->
                        reply (list MapAsset * bool);
  searchStatisticsIndex : list call -> jsString -> list jsString -> reply N;
  searchRandomIndex : list call -> N -> RandomSearchDto.t -> list jsString ->
                      reply (list MapAsset);
  getAssetsByCityIndex : list call -> list jsString -> reply (list MapAsset);
  getCountries : list call -> list jsString -> reply (list (option jsString));
  getStates : list call -> list jsString -> SearchSuggestionRequestDto.t ->
              reply (list (option jsString));
  getCities : list call -> list jsString -> SearchSuggestionRequestDto.t ->
              reply (list (option jsString));
  getCameraMakes : list call -> list jsString -> SearchSuggestionRequestDto.t ->
                   reply (list (option jsString));
  getCameraModels : list call -> list jsString -> SearchSuggestionRequestDto.t ->
                    reply (list (option jsString));
  getByName : list call -> jsString -> jsString -> option bool -> reply (list N);
  searchPlacesIndex : list call -> jsString -> reply (list N);
  getAssetIdByCity : list call -> jsString -> N -> N -> reply CityItems;
  getByIdsWithAllRelationsButStacks : list call -> list jsString ->
                                      reply (list MapAsset);
  (* [asset.exifInfo]: absent, or present with a city that may be null *)
  exifInfo : MapAsset -> option (option jsString);
  mapAssetPlain : MapAsset -> AssetResponseDto;     (* [mapAsset(asset)] *)
  mapPerson : N -> N;
  mapPlaces : N -> N
}.

(** What a request ends with: an exception of the service or of a
    collaborator, the [TypeError] of a property read on null, or a value. *)
Inductive failure : Type :=
| Raised (e : exception)
| TypeError.

Inductive result (A : Type) : Type :=
| Failure (f : failure)
| Success (a : A).
Arguments Failure {A} f.
Arguments Success {A} a.

Definition R (A : Type) : Type := list call -> result A * list call.

Definition ret {A : Type} (a : A) : R A := fun t => (Success a, t).

Definition throw {A : Type} (f : failure) : R A := fun t => (Failure f, t).

Definition bind {A B : Type} (m : R A) (k : A -> R B) : R B :=
  fun t => match m t with
           | (Failure f, t') => (Failure f, t')
           | (Success a, t') => k a t'
           end.

Declare Scope endpoint_scope.
Delimit Scope endpoint_scope with endpoint.
Notation "x <- m ;; k" := (bind m (fun x => k))
  (at level 100, m at next level, right associativity) : endpoint_scope.
Notation "m ;; k" := (bind m (fun _ => k))
  (at level 100, right associativity) : endpoint_scope.
Local Open Scope endpoint_scope.

(** An awaited call to a repository. *)
Definition perform {A : Type} (c : call) (answer : list call -> reply A) : R A :=
  fun t => match answer t with
           | Failed code => (Failure (Raised (CollaboratorFailure code)), t ++ [c])
           | Replied a => (Success a, t ++ [c])
           end.

(** [if (dto.visibility === AssetVisibility.LOCKED) requireElevatedPermission(auth)] *)
Definition lockedGate (repos : Repositories) (auth : AuthDto)
           (visibility : AssetVisibility) : R unit :=
  match visibility with
  | LOCKED => match requireElevatedPermission repos auth with
              | Some e => throw (Raised e)
              | None => ret tt
              end
  | NOT_LOCKED => ret tt
  end.

Definition getUserIdsToSearch (repos : Repositories) (auth : AuthDto)
  : R (list jsString) :=
  partnerIds <- perform (GetPartnerIds (userId auth))
                        (fun h => getMyPartnerIds repos h (userId auth)) ;;
  ret (userId auth :: partnerIds).

(** Lines 60-64: the checksum as a buffer; a string of 28 characters is
    read as base64, any other as hexadecimal. *)
Definition checksumOf (dto : MetadataSearchDto.t) : option Buffer.t :=
  match MetadataSearchDto.checksum dto with
  | Some c =>
      if truthyString c
      then Some (Buffer.from c (if length c =? 28 then Buffer.base64
                                else Buffer.hex))
      else None
  | None => None
  end.

(** [dto.size || 250]: also when the size is 0. *)
Definition sizeOr250 (size : option N) : N :=
  match size with
  | Some n => if (n =? 0)%N then 250%N else n
  | None => 250%N
  end.

Definition searchMetadata (env : Collaborators) (repos : Repositories)
           (auth : AuthDto) (dto : MetadataSearchDto.t) : R SearchResponseDto :=
  lockedGate repos auth (MetadataSearchDto.visibility dto) ;;
  let checksum := checksumOf dto in
  let page := match MetadataSearchDto.page dto with
              | Some p => p
              | None => 1%N
              end in
  let size := sizeOr250 (MetadataSearchDto.size dto) in
  userIds <- getUserIdsToSearch repos auth ;;
  let orderDirection := match MetadataSearchDto.order dto with
                        | Some o => o
                        | None => DESC
                        end in
  res <- perform (SearchMetadata page size dto checksum userIds orderDirection)
                 (fun h => searchMetadataIndex repos h page size dto checksum
                                               userIds orderDirection) ;;
  let (items, hasNextPage) := res in
  ret (mapResponse env items
                   (if hasNextPage then Some (toString (page + 1)) else None)
                   auth).

Definition searchStatistics (repos : Repositories) (auth : AuthDto)
           (dto : jsString) : R N :=
  userIds <- getUserIdsToSearch repos auth ;;
  perform (SearchStatistics dto userIds)
          (fun h => searchStatisticsIndex repos h dto userIds).

Definition searchRandom (env : Collaborators) (repos : Repositories)
           (auth : AuthDto) (dto : RandomSearchDto.t)
  : R (list AssetResponseDto) :=
  lockedGate repos auth (RandomSearchDto.visibility dto) ;;
  userIds <- getUserIdsToSearch repos auth ;;
  items <- perform (SearchRandom (sizeOr250 (RandomSearchDto.size dto)) dto userIds)
                   (fun h => searchRandomIndex repos h
                               (sizeOr250 (RandomSearchDto.size dto)) dto userIds) ;;
  ret (map (fun item => mapAsset env item auth) items).

Definition getAssetsByCity (repos : Repositories) (auth : AuthDto)
  : R (list AssetResponseDto) :=
  userIds <- getUserIdsToSearch repos auth ;;
  assets <- perform (GetAssetsByCity userIds)
                    (fun h => getAssetsByCityIndex repos h userIds) ;;
  ret (map (mapAssetPlain repos) assets).

Definition getSuggestions (repos : Repositories) (userIds : list jsString)
           (dto : SearchSuggestionRequestDto.t) : R (list (option jsString)) :=
  match SearchSuggestionRequestDto.type dto with
  | COUNTRY => perform (GetCountries userIds)
                       (fun h => getCountries repos h userIds)
  | STATE => perform (GetStates userIds dto)
                     (fun h => getStates repos h userIds dto)
  | CITY => perform (GetCities userIds dto)
                    (fun h => getCities repos h userIds dto)
  | CAMERA_MAKE => perform (GetCameraMakes userIds dto)
                           (fun h => getCameraMakes repos h userIds dto)
  | CAMERA_MODEL => perform (GetCameraModels userIds dto)
                            (fun h => getCameraModels repos h userIds dto)
  | OTHER_TYPE => ret []
  end.

Definition getSearchSuggestions (repos : Repositories) (auth : AuthDto)
           (dto : SearchSuggestionRequestDto.t) : R (list (option jsString)) :=
  userIds <- getUserIdsToSearch repos auth ;;
  suggestions <- getSuggestions repos userIds dto ;;
  ret (if SearchSuggestionRequestDto.includeNull dto
       then suggestions ++ [None]
       else suggestions).

Definition searchPerson (repos : Repositories) (auth : AuthDto)
           (dto : SearchPeopleDto.t) : R (list N) :=
  people <- perform (GetByName (userId auth) (SearchPeopleDto.name dto)
                               (SearchPeopleDto.withHidden dto))
                    (fun h => getByName repos h (userId auth)
                                        (SearchPeopleDto.name dto)
                                        (SearchPeopleDto.withHidden dto)) ;;
  ret (map (mapPerson repos) people).

Definition searchPlaces (repos : Repositories) (dto : SearchPlacesDto.t)
  : R (list N) :=
  places <- perform (SearchPlaces (SearchPlacesDto.name dto))
                    (fun h => searchPlacesIndex repos h
                                                (SearchPlacesDto.name dto)) ;;
  ret (map (mapPlaces repos) places).

(** [assets.map(...)] of [getExploreData]: [asset.exifInfo!.city!] reads
    [city] of [exifInfo], which throws when [exifInfo] is null. *)
Fixpoint exploreItemsOf (env : Collaborators) (repos : Repositories)
         (auth : AuthDto) (assets : list MapAsset)
  : option (list (option jsString * AssetResponseDto)) :=
  match assets with
  | [] => Some []
  | asset :: assets' =>
      match exifInfo repos asset with
      | None => None
      | Some city =>
          match exploreItemsOf env repos auth assets' with
          | None => None
          | Some items => Some ((city, mapAsset env asset auth) :: items)
          end
      end
  end.

Definition getExploreData (env : Collaborators) (repos : Repositories)
           (auth : AuthDto) : R (list ExploreField) :=
  cities <- perform (GetAssetIdByCity (userId auth) 12 5)
                    (fun h => getAssetIdByCity repos h (userId auth) 12 5) ;;
  assets <- perform (GetByIdsWithAllRelationsButStacks
                       (map data (cityItems cities)))
                    (fun h => getByIdsWithAllRelationsButStacks repos h
                                (map data (cityItems cities))) ;;
  match exploreItemsOf env repos auth assets with
  | None => throw TypeError
  | Some items => ret [mkExploreField (fieldName cities) items]
  end.

(** The user ids a call searches in, when it has some. *)
Definition userIdsOf (c : call) : option (list jsString) :=
  match c with
  | SearchMetadata _ _ _ _ ids _ => Some ids
  | SearchStatistics _ ids => Some ids
  | SearchRandom _ _ ids => Some ids
  | GetAssetsByCity ids => Some ids
  | GetCountries ids => Some ids
  | GetStates ids _ => Some ids
  | GetCities ids _ => Some ids
  | GetCameraMakes ids _ => Some ids
  | GetCameraModels ids _ => Some ids
  | _ => None
  end.

(** The answer of the repository that [getSuggestions] asks for the type
    of the request; no repository is asked for another type. *)
Definition suggestionsReply (repos : Repositories) (h : list call)
           (userIds : list jsString) (dto : SearchSuggestionRequestDto.t)
  : reply (list (option jsString)) :=
  match SearchSuggestionRequestDto.type dto with
  | COUNTRY => getCountries repos h userIds
  | STATE => getStates repos h userIds dto
  | CITY => getCities repos h userIds dto
  | CAMERA_MAKE => getCameraMakes repos h userIds dto
  | CAMERA_MODEL => getCameraModels repos h userIds dto
  | OTHER_TYPE => Replied []
  end.

(** What a request that searches within user ids may have called after
    the calls [before]: nothing; or the directory first, for the requesting
    user, and then at most one repository, within the requesting user
    followed by the partners that the directory answered. *)
Definition scoped (repos : Repositories) (auth : AuthDto)
           (before made : list call) : Prop :=
  made = [] \/
  exists rest,
    made = GetPartnerIds (userId auth) :: rest /\ length rest <= 1 /\
    forall c, In c rest ->
      exists partners,
        getMyPartnerIds repos before (userId auth) = Replied partners /\
        userIdsOf c = Some (userId auth :: partners).

Definition hasExifInfo (repos : Repositories) (asset : MapAsset) : bool :=
  match exifInfo repos asset with
  | Some _ => true
  | None => false
  end.

(** A deployment to run requests in: a locked search needs the grant, the
    directory answers one partner, the index two assets and a further
    page, the first asset has a city and the second has none. *)
Definition sampleRepos : Repositories :=
  mkRepositories
    (fun auth => if hasElevatedPermission auth then None
                 else Some InsufficientPermission)
    (fun _ _ => Replied [str "partner-1"])
    (fun _ _ _ _ _ _ _ => Replied ([1%N; 2%N], true))
    (fun _ _ _ => Replied 7%N)
    (fun _ _ _ _ => Replied [2%N; 1%N])
    (fun _ _ => Replied [1%N])
    (fun _ _ => Replied [Some (str "France"); None])
    (fun _ _ _ => Replied [Some (str "Bretagne")])
    (fun _ _ _ => Replied [Some (str "Brest")])
    (fun _ _ _ => Replied [Some (str "Canon")])
    (fun _ _ _ => Replied [Some (str "EOS")])
    (fun _ _ _ _ => Replied [5%N])
    (fun _ _ => Replied [9%N])
    (fun _ _ _ _ => Replied (mkCityItems (str "exifInfo.city")
                                         [mkCityItem (str "asset-1")]))
    (fun _ ids => Replied (map (fun _ => 1%N) ids))
    (fun asset => if (asset =? 1)%N then Some (Some (str "Brest"))
                  else if (asset =? 2)%N then Some None else None)
    (fun asset => asset)
    (fun person => person)
    (fun place => place).

End Endpoints.

(* ------------------------------------------------------------------ *)
(** ** Checksums and page tokens as they are written *)

(** The digit of a value below 16, in lower or in upper case. *)
Definition hexDigit (upper : bool) (v : N) : N :=
  if (v <? 10)%N then (48 + v)%N
  else if upper then (55 + v)%N else (87 + v)%N.

(** [bytes.toString('hex')], in lower or in upper case. *)
Fixpoint hexOf (upper : bool) (bytes : list N) : jsString :=
  match bytes with
  | [] => []
  | b :: bytes' =>
      hexDigit upper (b / 16) :: hexDigit upper (b mod 16) :: hexOf upper bytes'
  end.

(** The character of a six-bit value in the base64 alphabet. *)
Definition base64Char (v : N) : N :=
  if (v <? 26)%N then (65 + v)%N
  else if (v <? 52)%N then (71 + v)%N
  else if (v <? 62)%N then (v - 4)%N
  else if (v =? 62)%N then 43%N else 47%N.

(** [bytes.toString('base64')], with its padding. *)
Fixpoint base64Of (bytes : list N) : jsString :=
  match bytes with
  | a :: b :: c :: bytes' =>
      base64Char (a / 4) :: base64Char ((a mod 4) * 16 + b / 16) ::
      base64Char ((b mod 16) * 4 + c / 64) :: base64Char (c mod 64) ::
      base64Of bytes'
  | [a; b] =>
      [base64Char (a / 4); base64Char ((a mod 4) * 16 + b / 16);
       base64Char ((b mod 16) * 4); 61%N]
  | [a] => [base64Char (a / 4); base64Char ((a mod 4) * 16); 61%N; 61%N]
  | [] => []
  end.

Definition isByte (b : N) : bool := (b <? 256)%N.

(** The keyword and one character after it, as they start a reference. *)
Definition refWindow (w : jsString) : Prop :=
  exists kw c, w = kw ++ [c] /\ isKeyword kw = true /\ nonSpace c = true.

(* ------------------------------------------------------------------ *)
(** ** What a request calls and answers, in every run *)

(** Every run of [m], also one that fails, makes only calls that satisfy
    [P]. *)
Definition emits {A : Type} (m : M A) (P : event -> Prop) : Prop :=
  forall w, exists t, trace (snd (m w)) = trace w ++ t /\ Forall P t.



Definition noIndexCall (ev : event) : Prop := isSearchSmart ev = false.


(** The deployment [sampleEnv] with a directory that fails. *)
Definition directoryDown : Collaborators :=
  mkCollaborators
    (getConfig sampleEnv)
    (fun _ _ => Failed 503%N)
    (encodeText sampleEnv)
    (getAssetEmbeddings sampleEnv)
    (averageEmbeddings sampleEnv)
    (searchSmartIndex sampleEnv)
    (mapAsset sampleEnv).

(** The deployment [sampleEnv] with smart search turned off. *)
Definition smartSearchOff : Collaborators :=
  mkCollaborators
    (fun _ => Replied (mkConfig false (clipModelName sampleConfig)
                                (urls sampleConfig)))
    (getMyPartnerIds sampleEnv)
    (encodeText sampleEnv)
    (getAssetEmbeddings sampleEnv)
    (averageEmbeddings sampleEnv)
    (searchSmartIndex sampleEnv)
    (mapAsset sampleEnv).
(* ------------------------------------------------------------------ *)
(** ** The parser on some queries *)

Example parse_doc_example :
  parseQuery (str "green st patricks day, green clothing similarTo:u1 similarTo:u2")
  = mkQuery [str "u1"; str "u2"] (str "green st patricks day, green clothing").
Proof. vm_compute. reflexivity. Qed.

Example parse_two_commas :
  parseQuery (str "a,,") = mkQuery [] (str "a").
Proof. vm_compute. reflexivity. Qed.

Example parse_nested :
  parseQuery (str "similarTo:similarTo:") = mkQuery [str "similarTo:"] [].
Proof. vm_compute. reflexivity. Qed.

Example parse_misc :
  parseQuery (str "  a   b ,  SIMILARTO:x  similarTo: c, ")
  = mkQuery [str "x"] (str "a b , similarTo: c").
Proof. vm_compute. reflexivity. Qed.

Example parse_empty : parseQuery [] = mkQuery [] [].
Proof. vm_compute. reflexivity. Qed.

Example parse_text_only :
  parseQuery (str "sunset beach") = mkQuery [] (str "sunset beach").
Proof. vm_compute. reflexivity. Qed.

Example parse_references_only :
  parseQuery (str "similarTo:abc similarTo:def")
  = mkQuery [str "abc"; str "def"] [].
Proof. vm_compute. reflexivity. Qed.

Example parse_repeated_reference :
  parseQuery (str "similarTo:a cat similarTo:a")
  = mkQuery [str "a"; str "a"] (str "cat").
Proof. vm_compute. reflexivity. Qed.

(* ------------------------------------------------------------------ *)
(** ** Facts about lists and strings *)

Lemma skipn_app_le (A : Type) (k : nat) (a b : list A) :
  k <= length a -> skipn k (a ++ b) = skipn k a ++ b.
Proof.
  intros H. rewrite skipn_app.
  replace (k - length a) with 0 by lia. reflexivity.
Qed.

Lemma skipn_app_ge (A : Type) (k : nat) (a b : list A) :
  length a <= k -> skipn k (a ++ b) = skipn (k - length a) b.
Proof.
  intros H. rewrite skipn_app, skipn_all2 by lia. reflexivity.
Qed.

Lemma skipn_length_app (A : Type) (a b : list A) :
  skipn (length a) (a ++ b) = b.
Proof. rewrite skipn_app_ge, Nat.sub_diag by lia. reflexivity. Qed.

Lemma firstn_length_app (A : Type) (a b : list A) :
  firstn (length a) (a ++ b) = a.
Proof.
  rewrite firstn_app, Nat.sub_diag, firstn_all. simpl. apply app_nil_r.
Qed.

Lemma substring_middle (a m b : jsString) :
  substring (length a) (length a + length m) (a ++ m ++ b) = m.
Proof.
  unfold substring. rewrite skipn_length_app.
  replace (length a + length m - length a) with (length m) by lia.
  apply firstn_length_app.
Qed.

(* ------------------------------------------------------------------ *)
(** ** Facts about the matcher *)

Lemma tryDown_top (R : Type) (f : nat -> option R) (min d : nat) (r : R) :
  f (min + d) = Some r -> tryDown f min d = Some r.
Proof. destruct d; simpl; intros ->; reflexivity. Qed.

Lemma tryDown_none (R : Type) (f : nat -> option R) (min d : nat) :
  (forall k, min <= k <= min + d -> f k = None) -> tryDown f min d = None.
Proof.
  induction d as [|d IH]; simpl; intros H.
  - rewrite H by lia. reflexivity.
  - rewrite H by lia. apply IH. intros k Hk. apply H. lia.
Qed.

Lemma tryDown_only_top (R : Type) (f : nat -> option R) (min d : nat) :
  (forall k, min <= k < min + d -> f k = None) ->
  tryDown f min d = f (min + d).
Proof.
  intros H. destruct (f (min + d)) as [r|] eqn:E.
  - apply tryDown_top. exact E.
  - apply tryDown_none. intros k Hk.
    destruct (Nat.eq_dec k (min + d)) as [->|Hne]; [exact E|apply H; lia].
Qed.

Lemma runLength_le (ic : bool) (cs : charset) (s : jsString) :
  runLength ic cs s <= length s.
Proof.
  induction s as [|c s IH]; simpl; [lia|].
  destruct (inSet ic cs c); simpl; lia.
Qed.

(** The run is inside the set and stops at a character outside it. *)
Lemma runLength_split (ic : bool) (cs : charset) (s : jsString) :
  exists w r, s = w ++ r /\ length w = runLength ic cs s /\
              forallb (inSet ic cs) w = true /\
              match r with [] => True | c :: _ => inSet ic cs c = false end.
Proof.
  induction s as [|c s (w & r & Hs & Hl & Hw & Hr)]; simpl.
  - exists [], []. repeat split; reflexivity.
  - destruct (inSet ic cs c) eqn:E.
    + exists (c :: w), r. simpl. rewrite E, Hw, <- Hl, Hs.
      repeat split; try reflexivity. exact Hr.
    + exists [], (c :: s). repeat split; try reflexivity. exact E.
Qed.

Lemma runLength_app (ic : bool) (cs : charset) (w r : jsString) :
  forallb (inSet ic cs) w = true ->
  match r with [] => True | c :: _ => inSet ic cs c = false end ->
  runLength ic cs (w ++ r) = length w.
Proof.
  intros Hw Hr. induction w as [|c w IH]; simpl in *.
  - destruct r as [|c r]; simpl; [reflexivity|]. rewrite Hr. reflexivity.
  - apply andb_prop in Hw as [Hc Hw]. rewrite Hc, IH by exact Hw. reflexivity.
Qed.

Lemma skipn_in_run (ic : bool) (cs : charset) (s : jsString) (k : nat) :
  k < runLength ic cs s ->
  exists c r, skipn k s = c :: r /\ inSet ic cs c = true.
Proof.
  revert k. induction s as [|c s IH]; simpl; intros k Hk; [lia|].
  destruct (inSet ic cs c) eqn:E; [|lia].
  destruct k as [|k]; simpl.
  - exists c, s. split; [reflexivity|exact E].
  - apply IH. lia.
Qed.

(** *** Search *)

Lemma searchFrom_none (ic : bool) (p : list term) (s : jsString) (i : nat) :
  (forall k, k <= length s ->
             matchTerms ic p (skipn k s) (i + k) (i + k) None = None) ->
  searchFrom ic p s i = None.
Proof.
  revert i. induction s as [|c s IH]; intros i H; simpl.
  - specialize (H 0 (Nat.le_refl _)). simpl in H.
    rewrite Nat.add_0_r in H. rewrite H. reflexivity.
  - pose proof (H 0 (Nat.le_0_l _)) as H0. simpl in H0.
    rewrite Nat.add_0_r in H0. rewrite H0.
    apply IH. intros k Hk. specialize (H (S k)). simpl in H.
    replace (S i + k) with (i + S k) by lia. apply H. lia.
Qed.

Lemma searchFrom_none_inv (ic : bool) (p : list term) (s : jsString) (i : nat) :
  searchFrom ic p s i = None ->
  forall k, k <= length s ->
            matchTerms ic p (skipn k s) (i + k) (i + k) None = None.
Proof.
  revert i. induction s as [|c s IH]; intros i H k Hk; simpl in H.
  - simpl in Hk. replace k with 0 by lia. simpl. rewrite Nat.add_0_r.
    destruct (matchTerms ic p [] i i None); [discriminate|reflexivity].
  - destruct (matchTerms ic p (c :: s) i i None) eqn:E; [discriminate|].
    destruct k as [|k]; simpl.
    + rewrite Nat.add_0_r. exact E.
    + replace (i + S k) with (S i + k) by lia. apply IH; [exact H|].
      simpl in Hk. lia.
Qed.

Lemma searchFrom_skip (ic : bool) (p : list term) (a b : jsString) (i : nat) :
  (forall k, k < length a ->
             matchTerms ic p (skipn k (a ++ b)) (i + k) (i + k) None = None) ->
  searchFrom ic p (a ++ b) i = searchFrom ic p b (i + length a).
Proof.
  revert i. induction a as [|c a IH]; intros i H; simpl.
  - rewrite Nat.add_0_r. reflexivity.
  - pose proof (H 0 (Nat.lt_0_succ _)) as H0. simpl in H0.
    rewrite Nat.add_0_r in H0. rewrite H0.
    rewrite IH.
    + f_equal. lia.
    + intros k Hk. specialize (H (S k)). simpl in H.
      replace (S i + k) with (i + S k) by lia. apply H. lia.
Qed.

Lemma searchFrom_hit (ic : bool) (p : list term) (s : jsString) (i : nat)
      (r : matchResult) :
  matchTerms ic p s i i None = Some r -> searchFrom ic p s i = Some (i, r).
Proof. intros H. destruct s; simpl; rewrite H; reflexivity. Qed.

Lemma searchFrom_inv (ic : bool) (p : list term) (s : jsString) (i j : nat)
      (r : matchResult) :
  searchFrom ic p s i = Some (j, r) ->
  exists a b, s = a ++ b /\ j = i + length a /\
              matchTerms ic p b j j None = Some r /\
              forall k, k < length a ->
                matchTerms ic p (skipn k s) (i + k) (i + k) None = None.
Proof.
  revert i. induction s as [|c s IH]; intros i H; simpl in H.
  - destruct (matchTerms ic p [] i i None) eqn:E; [|discriminate].
    inversion H; subst. exists [], []. simpl. rewrite Nat.add_0_r.
    repeat split; [exact E|]. intros k Hk. lia.
  - destruct (matchTerms ic p (c :: s) i i None) eqn:E.
    + inversion H; subst. exists [], (c :: s). simpl. rewrite Nat.add_0_r.
      repeat split; [exact E|]. intros k Hk. lia.
    + apply IH in H as (a & b & Hs & Hj & Hm & Hbefore).
      exists (c :: a), b. simpl. subst s.
      repeat split; [lia|exact Hm|].
      intros [|k] Hk; simpl.
      * rewrite Nat.add_0_r. exact E.
      * replace (i + S k) with (S i + k) by lia. apply Hbefore. lia.
Qed.

(** *** The reference pattern *)

Lemma sameIgnoringCase_length (kw w : jsString) :
  sameIgnoringCase kw w = true -> length w = length kw.
Proof.
  revert w. induction kw as [|a kw IH]; intros [|b w] H; simpl in *;
    try discriminate; [reflexivity|].
  apply andb_prop in H as [_ H]. f_equal. apply IH. exact H.
Qed.

Lemma isKeyword_length (w : jsString) : isKeyword w = true -> length w = 10.
Proof. intros H. apply sameIgnoringCase_length in H. exact H. Qed.

Lemma literal_match (kw : jsString) (p : list term) (s : jsString)
      (off g : nat) (cap : option (nat * nat)) :
  matchTerms true (map (fun c => TSet (CsChar c)) kw ++ p) s off g cap =
  if sameIgnoringCase kw (firstn (length kw) s)
  then matchTerms true p (skipn (length kw) s) (off + length kw) g cap
  else None.
Proof.
  revert s off. induction kw as [|a kw IH]; intros s off.
  - simpl. rewrite Nat.add_0_r. reflexivity.
  - destruct s as [|b s]; [reflexivity|].
    cbn [map app matchTerms inSet length firstn skipn sameIgnoringCase].
    destruct (canonicalize a =? canonicalize b)%N; [|reflexivity].
    rewrite IH. cbn [andb].
    replace (S off + length kw) with (off + S (length kw)) by lia.
    reflexivity.
Qed.

Lemma runLength_nonSpace_pos (s : jsString) :
  (0 <? runLength true CsNotSpace s) =
  match s with c :: _ => nonSpace c | [] => false end.
Proof.
  destruct s as [|c s]; [reflexivity|]. simpl. unfold nonSpace.
  destruct (is_space c); reflexivity.
Qed.

Lemma match_similarTo (s : jsString) (off g : nat) (cap : option (nat * nat)) :
  matchTerms true (pattern similarToRegex) s off g cap =
  if refAt s
  then let n := runLength true CsNotSpace (skipn 10 s) in
       Some (off + 10 + n, Some (off + 10, off + 10 + n))
  else None.
Proof.
  unfold similarToRegex, literal. cbn [pattern].
  rewrite literal_match.
  change (length (str "similarTo:")) with 10.
  unfold refAt, isKeyword, KEYWORD.
  destruct (sameIgnoringCase (str "similarTo:") (firstn 10 s)); [|reflexivity].
  cbn [andb matchTerms].
  rewrite <- runLength_nonSpace_pos.
  set (n := runLength true CsNotSpace (skipn 10 s)).
  destruct n as [|n]; [reflexivity|].
  cbn [Nat.ltb Nat.leb].
  rewrite tryDown_top with (r := (off + 10 + S n, Some (off + 10, off + 10 + S n))).
  - reflexivity.
  - replace (1 + (S n - 1)) with (S n) by lia. reflexivity.
Qed.

Lemma is_space_false_range (b : N) : (33 <= b <= 159)%N -> is_space b = false.
Proof.
  intros Hb. unfold is_space.
  replace (b <=? 13)%N with false by (symmetry; apply N.leb_gt; lia).
  replace (8192 <=? b)%N with false by (symmetry; apply N.leb_gt; lia).
  repeat match goal with
         | |- context [(b =? ?n)%N] =>
             replace (b =? n)%N with false by (symmetry; apply N.eqb_neq; lia)
         end.
  rewrite andb_false_r. reflexivity.
Qed.

Lemma canonicalize_not_space (a b : N) :
  (canonicalize a =? canonicalize b)%N = true ->
  (58 <= a <= 122)%N -> is_space b = false.
Proof.
  unfold canonicalize. intros H Ha. apply N.eqb_eq in H.
  apply is_space_false_range.
  destruct (N.leb_spec 97 a), (N.leb_spec a 122),
           (N.leb_spec 97 b), (N.leb_spec b 122); simpl in H; lia.
Qed.

Lemma sameIgnoringCase_nonSpace (kw w : jsString) :
  Forall (fun a => (58 <= a <= 122)%N) kw ->
  sameIgnoringCase kw w = true -> forallb nonSpace w = true.
Proof.
  intros Hkw. revert w.
  induction Hkw as [|a kw Ha _ IH]; intros [|b w] H; simpl in *;
    try discriminate; [reflexivity|].
  apply andb_prop in H as [Hab H].
  unfold nonSpace at 1. rewrite (canonicalize_not_space _ _ Hab Ha).
  simpl. apply IH. exact H.
Qed.

Lemma KEYWORD_range : Forall (fun a => (58 <= a <= 122)%N) KEYWORD.
Proof. repeat constructor; vm_compute; discriminate. Qed.

Lemma isKeyword_nonSpace (w : jsString) :
  isKeyword w = true -> forallb nonSpace w = true.
Proof. apply sameIgnoringCase_nonSpace, KEYWORD_range. Qed.

(** A match of the pattern is the keyword, a non-empty token of
    non-whitespace characters, and a rest the token cannot extend into. *)
Lemma refAt_split (s : jsString) :
  refAt s = true ->
  exists kw tok rest,
    s = kw ++ tok ++ rest /\ isKeyword kw = true /\ tok <> [] /\
    forallb nonSpace tok = true /\ tokenEnds rest /\
    runLength true CsNotSpace (skipn 10 s) = length tok.
Proof.
  unfold refAt. intros H. apply andb_prop in H as [Hkw Hc].
  destruct (runLength_split true CsNotSpace (skipn 10 s))
    as (w & r & Hs & Hl & Hw & Hr).
  exists (firstn 10 s), w, r.
  split; [rewrite <- Hs; symmetry; apply firstn_skipn|].
  rewrite Hs in Hc.
  repeat split; try assumption.
  - intros ->. cbn [app] in Hc.
    destruct r as [|c r]; [discriminate|].
    cbn [inSet] in Hr. unfold nonSpace in Hc. rewrite Hc in Hr. discriminate.
  - destruct r as [|c r]; [exact I|]. cbn [inSet] in Hr. cbn [tokenEnds].
    destruct (is_space c); [reflexivity|discriminate].
  - symmetry. exact Hl.
Qed.

Lemma refAt_intro (kw tok rest : jsString) :
  isKeyword kw = true -> tok <> [] -> forallb nonSpace tok = true ->
  refAt (kw ++ tok ++ rest) = true.
Proof.
  intros Hkw Htok Hns. unfold refAt.
  pose proof (isKeyword_length _ Hkw) as Hl.
  rewrite <- Hl at 1. rewrite firstn_length_app, Hkw.
  rewrite <- Hl, skipn_length_app.
  destruct tok as [|c tok]; [contradiction|]. simpl in *.
  apply andb_prop in Hns as [Hc _]. exact Hc.
Qed.

(** A match reads eleven non-whitespace characters and nothing else. *)
Lemma refAt_app (a b : jsString) : refAt a = true -> refAt (a ++ b) = true.
Proof.
  intros H. destruct (refAt_split _ H) as (kw & tok & rest & -> & Hkw & Ht & Hns & _).
  rewrite <- !app_assoc. apply refAt_intro; assumption.
Qed.

Lemma refAt_drop_rest (a rest : jsString) :
  tokenEnds rest -> refAt (a ++ rest) = true -> refAt a = true.
Proof.
  intros Hrest H. destruct rest as [|c rest]; [rewrite app_nil_r in H; exact H|].
  simpl in Hrest.
  destruct (refAt_split _ H) as (kw & tok & r & Hs & Hkw & Ht & Hns & _).
  pose proof (isKeyword_length _ Hkw) as Hl.
  pose proof (isKeyword_nonSpace _ Hkw) as Hkns.
  destruct tok as [|t tok]; [contradiction|].
  simpl in Hns. apply andb_prop in Hns as [Htns _].
  assert (Hall : forallb nonSpace (kw ++ [t]) = true).
  { rewrite forallb_app, Hkns. simpl. rewrite Htns. reflexivity. }
  assert (Hs' : a ++ c :: rest = (kw ++ [t]) ++ tok ++ r).
  { rewrite Hs, <- app_assoc. reflexivity. }
  destruct (Nat.le_gt_cases (length (kw ++ [t])) (length a)) as [Hle|Hgt].
  - (* the eleven characters lie in [a] *)
    assert (Ha : a = (kw ++ [t]) ++ skipn (length (kw ++ [t])) a).
    { rewrite <- (firstn_skipn (length (kw ++ [t])) a) at 1. f_equal.
      apply (f_equal (firstn (length (kw ++ [t])))) in Hs'.
      rewrite firstn_app in Hs'.
      replace (length (kw ++ [t]) - length a) with 0 in Hs' by lia.
      simpl in Hs'. rewrite app_nil_r in Hs'. rewrite Hs'.
      apply firstn_length_app. }
    rewrite Ha, <- app_assoc. apply refAt_intro; [exact Hkw|discriminate|].
    simpl. rewrite Htns. reflexivity.
  - (* [c] would be one of them *)
    exfalso.
    assert (Hin : In c (kw ++ [t])).
    { apply (f_equal (firstn (length (kw ++ [t])))) in Hs'.
      rewrite firstn_length_app in Hs'. rewrite <- Hs'.
      rewrite firstn_app. apply in_or_app. right.
      destruct (length (kw ++ [t]) - length a) eqn:E; [lia|]. left. reflexivity. }
    rewrite forallb_forall in Hall. specialize (Hall c Hin).
    unfold nonSpace in Hall. rewrite Hrest in Hall. discriminate.
Qed.

Lemma refAt_junction (k : nat) (x rest y : jsString) :
  k < length x -> tokenEnds rest ->
  refAt (skipn k (x ++ rest)) = true -> refAt (skipn k (x ++ y)) = true.
Proof.
  intros Hk Hrest H.
  rewrite skipn_app_le in * by lia.
  apply refAt_app. apply refAt_drop_rest with (rest := rest); assumption.
Qed.

(** *** Replacing the first occurrence of a string *)

Lemma startsWith_inv (m t : jsString) :
  startsWith m t = true -> exists r, t = m ++ r.
Proof.
  revert t. induction m as [|a m IH]; intros t H.
  - exists t. reflexivity.
  - destruct t as [|b t]; simpl in H; [discriminate|].
    apply andb_prop in H as [Hab H]. apply N.eqb_eq in Hab. subst b.
    destruct (IH _ H) as (r & ->). exists r. reflexivity.
Qed.

Lemma startsWith_app (m r : jsString) : startsWith m (m ++ r) = true.
Proof.
  induction m as [|a m IH]; simpl; [reflexivity|].
  rewrite N.eqb_refl, IH. reflexivity.
Qed.

Lemma replaceString_eq (s needle by_ : jsString) :
  replaceString s needle by_ =
  if startsWith needle s then by_ ++ skipn (length needle) s
  else match s with
       | [] => []
       | c :: s' => c :: replaceString s' needle by_
       end.
Proof. destruct s; reflexivity. Qed.

Lemma replaceString_first (x m r : jsString) :
  (forall k, k < length x -> startsWith m (skipn k (x ++ m ++ r)) = false) ->
  replaceString (x ++ m ++ r) m [] = x ++ r.
Proof.
  induction x as [|c x IH]; intros H.
  - cbn [app]. rewrite replaceString_eq, startsWith_app, skipn_length_app.
    reflexivity.
  - pose proof (H 0 (Nat.lt_0_succ _)) as H0. simpl in H0.
    cbn [app replaceString]. rewrite H0. f_equal. apply IH.
    intros k Hk. apply (H (S k)). simpl. lia.
Qed.

(** *** [exec] on the reference pattern *)

Lemma match_similarTo_none (s : jsString) (off : nat) :
  refAt s = false ->
  matchTerms true (pattern similarToRegex) s off off None = None.
Proof. intros H. rewrite match_similarTo, H. reflexivity. Qed.

Lemma refAt_nil_skip (s : jsString) (k : nat) :
  length s <= k -> refAt (skipn k s) = false.
Proof. intros H. rewrite skipn_all2 by exact H. reflexivity. Qed.

Lemma runLength_token (tok rest : jsString) :
  forallb nonSpace tok = true -> tokenEnds rest ->
  runLength true CsNotSpace (tok ++ rest) = length tok.
Proof.
  intros Hns Hrest. apply runLength_app; [exact Hns|].
  destruct rest as [|c rest]; [exact I|]. simpl in *. rewrite Hrest. reflexivity.
Qed.

Lemma exec_global (re : regex) (pre suf : jsString) :
  global re = true ->
  exec re (pre ++ suf) (length pre) =
  match searchFrom (ignoreCase re) (pattern re) suf (length pre) with
  | None => (None, 0)
  | Some (i, (e, cap)) =>
      (Some (mkExec i (substring i e (pre ++ suf))
                    (option_map
                       (fun g => substring (fst g) (snd g) (pre ++ suf)) cap)),
       e)
  end.
Proof.
  intros Hg. unfold exec. rewrite Hg.
  replace (length (pre ++ suf) <? length pre) with false
    by (symmetry; apply Nat.ltb_ge; rewrite length_app; lia).
  rewrite skipn_length_app. reflexivity.
Qed.

Lemma exec_similarTo_none (pre suf : jsString) :
  (forall k, refAt (skipn k suf) = false) ->
  exec similarToRegex (pre ++ suf) (length pre) = (None, 0).
Proof.
  intros H. rewrite exec_global by reflexivity.
  change (ignoreCase similarToRegex) with true.
  rewrite searchFrom_none; [reflexivity|].
  intros k _. apply match_similarTo_none, H.
Qed.

Lemma exec_similarTo_some (pre gap kw tok rest : jsString) :
  (forall k, k < length gap ->
             refAt (skipn k (gap ++ kw ++ tok ++ rest)) = false) ->
  isKeyword kw = true -> tok <> [] -> forallb nonSpace tok = true ->
  tokenEnds rest ->
  exec similarToRegex (pre ++ gap ++ kw ++ tok ++ rest) (length pre) =
  (Some (mkExec (length pre + length gap) (kw ++ tok) (Some tok)),
   length (pre ++ gap ++ kw ++ tok)).
Proof.
  intros Hleft Hkw Htok Hns Hrest.
  pose proof (isKeyword_length _ Hkw) as Hl.
  rewrite exec_global by reflexivity.
  change (ignoreCase similarToRegex) with true.
  rewrite searchFrom_skip
    by (intros k Hk; apply match_similarTo_none, Hleft, Hk).
  set (i := length pre + length gap).
  assert (Hm : matchTerms true (pattern similarToRegex) (kw ++ tok ++ rest) i i None
               = Some (i + 10 + length tok, Some (i + 10, i + 10 + length tok))).
  { rewrite match_similarTo, refAt_intro by assumption.
    cbv zeta.
    replace (skipn 10 (kw ++ tok ++ rest)) with (tok ++ rest)
      by (rewrite <- Hl; symmetry; apply skipn_length_app).
    rewrite runLength_token by assumption. reflexivity. }
  change (ignoreCase similarToRegex) with true.
  rewrite (searchFrom_hit _ _ _ _ _ Hm). cbn [option_map fst snd].
  f_equal; [f_equal; f_equal|].
  - replace (pre ++ gap ++ kw ++ tok ++ rest)
      with ((pre ++ gap) ++ (kw ++ tok) ++ rest)
      by (rewrite <- !app_assoc; reflexivity).
    replace i with (length (pre ++ gap)) by (rewrite length_app; reflexivity).
    replace (length (pre ++ gap) + 10 + length tok)
      with (length (pre ++ gap) + length (kw ++ tok))
      by (rewrite (length_app kw tok); lia).
    apply substring_middle.
  - f_equal.
    replace (pre ++ gap ++ kw ++ tok ++ rest)
      with ((pre ++ gap ++ kw) ++ tok ++ rest)
      by (rewrite <- !app_assoc; reflexivity).
    replace (i + 10) with (length (pre ++ gap ++ kw))
      by (rewrite !length_app; lia).
    apply substring_middle.
  - rewrite !length_app. lia.
Qed.

(** Either the text has no reference, or it splits at its leftmost one. *)
Lemma first_reference (s : jsString) :
  (forall k, refAt (skipn k s) = false) \/
  exists gap kw tok rest,
    s = gap ++ kw ++ tok ++ rest /\
    (forall k, k < length gap -> refAt (skipn k s) = false) /\
    isKeyword kw = true /\ tok <> [] /\ forallb nonSpace tok = true /\
    tokenEnds rest.
Proof.
  destruct (searchFrom true (pattern similarToRegex) s 0) as [[j r]|] eqn:E.
  - right. apply searchFrom_inv in E as (a & b & Hs & _ & Hm & Hbefore).
    rewrite match_similarTo in Hm.
    destruct (refAt b) eqn:Hb; [|discriminate].
    destruct (refAt_split _ Hb) as (kw & tok & rest & -> & Hkw & Ht & Hns & Hr & _).
    exists a, kw, tok, rest. repeat split; try assumption.
    intros k Hk. specialize (Hbefore k Hk).
    rewrite match_similarTo in Hbefore.
    destruct (refAt (skipn k s)); [discriminate|reflexivity].
  - left. intros k. destruct (Nat.le_gt_cases k (length s)) as [Hk|Hk].
    + pose proof (searchFrom_none_inv _ _ _ _ E k Hk) as Hm.
      rewrite match_similarTo in Hm.
      destruct (refAt (skipn k s)); [discriminate|reflexivity].
    + apply refAt_nil_skip. lia.
Qed.

(** *** The extraction loop *)

(** No reference starts in the part [done] of the text that the loop has
    gone through. *)
Definition noRefBefore (done todo : jsString) : Prop :=
  forall k, k < length done -> refAt (skipn k (done ++ todo)) = false.

Lemma noRefBefore_step (done gap kw tok rest : jsString) :
  noRefBefore done (gap ++ kw ++ tok ++ rest) ->
  (forall k, k < length gap ->
             refAt (skipn k (gap ++ kw ++ tok ++ rest)) = false) ->
  tokenEnds rest ->
  noRefBefore (done ++ gap) rest.
Proof.
  intros Hdone Hgap Hrest k Hk.
  destruct (refAt (skipn k ((done ++ gap) ++ rest))) eqn:E; [|reflexivity].
  apply refAt_junction with (y := kw ++ tok ++ rest) in E; [|exact Hk|exact Hrest].
  rewrite <- app_assoc in E.
  destruct (Nat.lt_ge_cases k (length done)) as [Hlt|Hge].
  - rewrite Hdone in E by exact Hlt. discriminate.
  - rewrite skipn_app_ge in E by exact Hge.
    rewrite Hgap in E; [discriminate|]. rewrite length_app in Hk. lia.
Qed.

Lemma replace_matched (done gap kw tok rest : jsString) :
  noRefBefore done (gap ++ kw ++ tok ++ rest) ->
  (forall k, k < length gap ->
             refAt (skipn k (gap ++ kw ++ tok ++ rest)) = false) ->
  isKeyword kw = true -> tok <> [] -> forallb nonSpace tok = true ->
  replaceString (done ++ gap ++ kw ++ tok ++ rest) (kw ++ tok) []
  = (done ++ gap) ++ rest.
Proof.
  intros Hdone Hgap Hkw Htok Hns.
  replace (done ++ gap ++ kw ++ tok ++ rest)
    with ((done ++ gap) ++ (kw ++ tok) ++ rest)
    by (rewrite <- !app_assoc; reflexivity).
  apply replaceString_first. intros k Hk.
  destruct (startsWith (kw ++ tok) (skipn k ((done ++ gap) ++ (kw ++ tok) ++ rest)))
    eqn:E; [|reflexivity].
  apply startsWith_inv in E as (r & E).
  assert (Href : refAt (skipn k ((done ++ gap) ++ (kw ++ tok) ++ rest)) = true).
  { rewrite E, <- app_assoc. apply refAt_intro; assumption. }
  rewrite <- !app_assoc in Href.
  destruct (Nat.lt_ge_cases k (length done)) as [Hlt|Hge].
  - rewrite Hdone in Href by exact Hlt. discriminate.
  - rewrite skipn_app_ge in Href by exact Hge.
    rewrite Hgap in Href; [discriminate|]. rewrite length_app in Hk. lia.
Qed.

Lemma parseLoop_spec (fuel : nat) :
  forall (pre suf done : jsString) (ids : list jsString),
    length suf < fuel ->
    noRefBefore done suf ->
    exists occs lastGap,
      Occurrences suf occs lastGap /\
      parseLoop fuel (pre ++ suf) (length pre) ids (done ++ suf)
      = Some (ids ++ map token occs, done ++ remainingText occs lastGap).
Proof.
  induction fuel as [|fuel IH]; intros pre suf done ids Hfuel Hdone; [lia|].
  cbn [parseLoop].
  destruct (first_reference suf)
    as [Hnone|(gap & kw & tok & rest & -> & Hleft & Hkw & Htok & Hns & Hrest)].
  - exists [], suf. split; [constructor; exact Hnone|].
    rewrite exec_similarTo_none by exact Hnone.
    unfold remainingText. cbn [map concat app]. rewrite app_nil_r. reflexivity.
  - rewrite exec_similarTo_some by assumption.
    cbn [group1 matched].
    rewrite replace_matched by assumption.
    replace (pre ++ gap ++ kw ++ tok ++ rest)
      with ((pre ++ gap ++ kw ++ tok) ++ rest)
      by (rewrite <- !app_assoc; reflexivity).
    destruct (IH (pre ++ gap ++ kw ++ tok) rest (done ++ gap) (ids ++ [tok]))
      as (occs & lastGap & Hocc & Hloop).
    + pose proof (isKeyword_length _ Hkw). rewrite !length_app in Hfuel. lia.
    + apply noRefBefore_step with (kw := kw) (tok := tok); assumption.
    + exists (mkOcc gap kw tok :: occs), lastGap. split.
      * constructor; assumption.
      * refine (eq_trans Hloop _).
        unfold remainingText. cbn [map concat token gapBefore].
        rewrite <- !app_assoc. reflexivity.
Qed.

(** The loop ends: the fuel [parseQuery] gives it is never used up. *)
Lemma parseLoop_total (s : jsString) :
  exists occs lastGap,
    Occurrences s occs lastGap /\
    parseLoop (S (length s)) s 0 [] s
    = Some (map token occs, remainingText occs lastGap).
Proof.
  destruct (parseLoop_spec (S (length s)) [] s [] [])
    as (occs & lastGap & Hocc & Hloop).
  - lia.
  - intros k Hk. simpl in Hk. lia.
  - exists occs, lastGap. split; [exact Hocc|exact Hloop].
Qed.

Lemma parseQuery_occurrences (s : jsString) :
  exists occs lastGap,
    Occurrences s occs lastGap /\
    parseQuery s = mkQuery (map token occs)
                           (postProcess (remainingText occs lastGap)).
Proof.
  destruct (parseLoop_total s) as (occs & lastGap & Hocc & Hloop).
  exists occs, lastGap. split; [exact Hocc|].
  unfold parseQuery. rewrite Hloop. reflexivity.
Qed.

(** The decomposition into occurrences is unique. *)
Lemma app_eq_length (A : Type) (a1 b1 a2 b2 : list A) :
  a1 ++ b1 = a2 ++ b2 -> length a1 = length a2 -> a1 = a2 /\ b1 = b2.
Proof.
  revert a2. induction a1 as [|x a1 IH]; intros [|y a2] H Hl; simpl in *;
    try discriminate.
  - split; [reflexivity|exact H].
  - inversion H; subst. destruct (IH a2) as [-> ->]; [assumption|lia|].
    split; reflexivity.
Qed.

Lemma Occurrences_unique (s : jsString) (occs1 : list occurrence)
      (last1 : jsString) :
  Occurrences s occs1 last1 ->
  forall occs2 last2, Occurrences s occs2 last2 ->
                      occs1 = occs2 /\ last1 = last2.
Proof.
  induction 1 as [s Hnone|g1 k1 t1 r1 occs1 last1 Hleft1 Hk1 Ht1 Hn1 Hr1 Hocc1 IH];
    intros occs2 last2 H2.
  - inversion H2 as [s' Hnone' Es|g2 k2 t2 r2 o2 l2 Hleft2 Hk2 Ht2 Hn2 Hr2 Hocc2 Es];
      subst; [split; reflexivity|].
    specialize (Hnone (length g2)).
    rewrite skipn_length_app, refAt_intro in Hnone by assumption. discriminate.
  - remember (g1 ++ k1 ++ t1 ++ r1) as s eqn:Es.
    destruct H2 as [s Hnone|g2 k2 t2 r2 occs2 last2 Hleft2 Hk2 Ht2 Hn2 Hr2 Hocc2].
    + specialize (Hnone (length g1)). subst s.
      rewrite skipn_length_app, refAt_intro in Hnone by assumption. discriminate.
    + assert (Hg : length g2 = length g1).
      { destruct (Nat.lt_trichotomy (length g1) (length g2)) as [Hlt|[Heq|Hgt]];
          [|symmetry; exact Heq|].
        - specialize (Hleft2 _ Hlt). rewrite Es, skipn_length_app in Hleft2.
          rewrite refAt_intro in Hleft2 by assumption. discriminate.
        - specialize (Hleft1 _ Hgt). rewrite skipn_length_app in Hleft1.
          rewrite refAt_intro in Hleft1 by assumption. discriminate. }
      destruct (app_eq_length _ _ _ _ _ Es Hg) as [-> Es1].
      assert (Hk : length k2 = length k1).
      { rewrite (isKeyword_length _ Hk1), (isKeyword_length _ Hk2). reflexivity. }
      destruct (app_eq_length _ _ _ _ _ Es1 Hk) as [-> Es2].
      assert (Ht : length t2 = length t1).
      { rewrite <- (runLength_token t1 r1), <- (runLength_token t2 r2) by assumption.
        rewrite Es2. reflexivity. }
      destruct (app_eq_length _ _ _ _ _ Es2 Ht) as [-> ->].
      destruct (IH _ _ Hocc2) as [<- <-]. split; reflexivity.
Qed.

(* ------------------------------------------------------------------ *)
(** ** Facts about the post-processing *)

(** *** Trimming *)

Lemma trimStart_split (s : jsString) :
  exists w, s = w ++ trimStart s /\ forallb is_space w = true /\
            match trimStart s with [] => True | c :: _ => is_space c = false end.
Proof.
  induction s as [|c s (w & Hs & Hw & Hh)]; simpl.
  - exists []. repeat split.
  - destruct (is_space c) eqn:E.
    + exists (c :: w). simpl. rewrite E, Hw, <- Hs. repeat split. exact Hh.
    + exists []. repeat split. exact E.
Qed.

Lemma trimStart_spaces (w s : jsString) :
  forallb is_space w = true -> trimStart (w ++ s) = trimStart s.
Proof.
  induction w as [|c w IH]; simpl; intros H; [reflexivity|].
  apply andb_prop in H as [Hc H]. rewrite Hc. apply IH, H.
Qed.

Lemma trimStart_id (s : jsString) :
  match s with [] => True | c :: _ => is_space c = false end ->
  trimStart s = s.
Proof. destruct s as [|c s]; simpl; [reflexivity|]. intros ->. reflexivity. Qed.

Lemma forallb_rev (A : Type) (f : A -> bool) (l : list A) :
  forallb f (rev l) = forallb f l.
Proof.
  induction l as [|x l IH]; simpl; [reflexivity|].
  rewrite forallb_app, IH. simpl. rewrite andb_true_r. apply andb_comm.
Qed.

Lemma trimEnd_spaces (s w : jsString) :
  forallb is_space w = true -> trimEnd (s ++ w) = trimEnd s.
Proof.
  intros H. unfold trimEnd. rewrite rev_app_distr, trimStart_spaces;
    [reflexivity|]. rewrite forallb_rev. exact H.
Qed.

Lemma trimEnd_id_last (s : jsString) (c : N) :
  is_space c = false -> trimEnd (s ++ [c]) = s ++ [c].
Proof.
  intros H. unfold trimEnd. rewrite rev_app_distr. simpl. rewrite H.
  simpl. rewrite rev_involutive. reflexivity.
Qed.

(** [trimEnd s] is [s] without its final whitespace. *)
Lemma trimEnd_split (s : jsString) :
  exists w, s = trimEnd s ++ w /\ forallb is_space w = true /\
            match rev (trimEnd s) with [] => True | c :: _ => is_space c = false end.
Proof.
  destruct (trimStart_split (rev s)) as (w & Hs & Hw & Hh).
  exists (rev w). unfold trimEnd. rewrite rev_involutive.
  repeat split; [|rewrite forallb_rev; exact Hw|exact Hh].
  rewrite <- rev_app_distr, <- Hs, rev_involutive. reflexivity.
Qed.

Lemma trimEnd_id (s : jsString) :
  match rev s with [] => True | c :: _ => is_space c = false end ->
  trimEnd s = s.
Proof.
  intros H. unfold trimEnd. rewrite trimStart_id by exact H.
  apply rev_involutive.
Qed.

Lemma is_space_COMMA : is_space COMMA = false.
Proof. reflexivity. Qed.

Lemma is_space_not_comma (c : N) : is_space c = true -> (COMMA =? c)%N = false.
Proof.
  intros H. apply N.eqb_neq. intros <-. rewrite is_space_COMMA in H. discriminate.
Qed.

(** *** The two trailing-comma patterns *)

Lemma runLength_all (ic : bool) (cs : charset) (w : jsString) :
  forallb (inSet ic cs) w = true -> runLength ic cs w = length w.
Proof.
  intros H. rewrite <- (app_nil_r w) at 1. apply runLength_app; [exact H|exact I].
Qed.

Lemma runLength_all_inv (ic : bool) (cs : charset) (w : jsString) :
  runLength ic cs w = length w -> forallb (inSet ic cs) w = true.
Proof.
  induction w as [|c w IH]; simpl; [reflexivity|].
  destruct (inSet ic cs c); [|discriminate]. intros H. apply IH. lia.
Qed.

Lemma skipn_nil_inv (A : Type) (k : nat) (l : list A) :
  skipn k l = [] -> length l <= k.
Proof.
  intros H. pose proof (length_skipn k l) as Hl. rewrite H in Hl. simpl in Hl. lia.
Qed.

Lemma match_commaSpacesEnd (s : jsString) (off g : nat)
      (cap : option (nat * nat)) :
  matchTerms false (pattern commaSpacesEnd) s off g cap =
  match s with
  | c :: w => if (COMMA =? c)%N && forallb is_space w
              then Some (off + length s, cap) else None
  | [] => None
  end.
Proof.
  destruct s as [|c w]; [reflexivity|].
  cbn [pattern commaSpacesEnd matchTerms inSet].
  destruct (COMMA =? c)%N; [|reflexivity]. cbn [andb Nat.ltb Nat.leb].
  rewrite Nat.sub_0_r.
  destruct (forallb is_space w) eqn:Hw.
  - apply tryDown_top. cbn [Nat.add].
    rewrite (runLength_all false CsSpace w Hw), skipn_all.
    cbn [length]. f_equal. f_equal. lia.
  - apply tryDown_none. intros k Hk. cbn [Nat.add] in Hk.
    destruct (skipn k w) eqn:E; [|reflexivity].
    apply skipn_nil_inv in E.
    pose proof (runLength_le false CsSpace w) as Hle.
    assert (Hall : runLength false CsSpace w = length w) by lia.
    apply runLength_all_inv in Hall. cbn [inSet] in Hall.
    change (forallb (inSet false CsSpace) w) with (forallb is_space w) in Hall.
    rewrite Hall in Hw. discriminate.
Qed.

Lemma match_spacesCommaEnd (s : jsString) (off g : nat)
      (cap : option (nat * nat)) :
  matchTerms false (pattern spacesCommaEnd) s off g cap =
  match skipn (runLength false CsSpace s) s with
  | [c] => if (COMMA =? c)%N then Some (off + length s, cap) else None
  | _ => None
  end.
Proof.
  cbn [pattern spacesCommaEnd matchTerms Nat.ltb Nat.leb].
  rewrite Nat.sub_0_r, tryDown_only_top.
  - cbn [Nat.add inSet].
    pose proof (runLength_le false CsSpace s) as Hle.
    pose proof (length_skipn (runLength false CsSpace s) s) as Hl.
    destruct (skipn (runLength false CsSpace s) s) as [|c [|c' r]];
      try reflexivity.
    + destruct (COMMA =? c)%N; [|reflexivity]. simpl in Hl.
      f_equal. f_equal. lia.
    + destruct (COMMA =? c)%N; reflexivity.
  - intros k Hk. cbn [Nat.add] in Hk.
    destruct (skipn_in_run false CsSpace s k) as (c & r & -> & Hc); [lia|].
    cbn [inSet] in *. rewrite (is_space_not_comma _ Hc). reflexivity.
Qed.

Lemma exec_first (re : regex) (s : jsString) :
  global re = false ->
  exec re s 0 =
  match searchFrom (ignoreCase re) (pattern re) s 0 with
  | None => (None, 0)
  | Some (i, (e, cap)) =>
      (Some (mkExec i (substring i e s)
                    (option_map (fun g => substring (fst g) (snd g) s) cap)),
       0)
  end.
Proof. intros Hg. unfold exec. rewrite Hg. reflexivity. Qed.

(** A match that runs from [a] to the end of the text is cut off. *)
Lemma replace_to_end (re : regex) (a b : jsString) (cap : option (nat * nat)) :
  global re = false ->
  searchFrom (ignoreCase re) (pattern re) (a ++ b) 0
  = Some (length a, (length a + length b, cap)) ->
  replace re (a ++ b) [] = a.
Proof.
  intros Hg Hs. unfold replace. rewrite exec_first, Hs by exact Hg.
  cbn [index matched app].
  replace (substring (length a) (length a + length b) (a ++ b)) with b.
  - rewrite firstn_length_app, skipn_all2 by (rewrite length_app; lia).
    apply app_nil_r.
  - symmetry. rewrite <- (app_nil_r b) at 2. apply substring_middle.
Qed.

Lemma replace_no_match (re : regex) (s : jsString) :
  global re = false ->
  searchFrom (ignoreCase re) (pattern re) s 0 = None ->
  replace re s [] = s.
Proof.
  intros Hg Hs. unfold replace. rewrite exec_first, Hs by exact Hg. reflexivity.
Qed.

Lemma stripCommaThenSpaces_hit (a w : jsString) :
  forallb is_space w = true ->
  stripCommaThenSpaces (a ++ COMMA :: w) = a.
Proof.
  intros Hw. unfold stripCommaThenSpaces.
  replace (a ++ COMMA :: w) with ((a ++ [COMMA]) ++ w)
    by (rewrite <- app_assoc; reflexivity).
  rewrite trimEnd_spaces, trimEnd_id_last by (exact Hw || reflexivity).
  rewrite rev_app_distr. simpl. apply rev_involutive.
Qed.

Lemma replace_commaSpacesEnd (s : jsString) :
  replace commaSpacesEnd s [] = stripCommaThenSpaces s.
Proof.
  destruct (searchFrom false (pattern commaSpacesEnd) s 0) as [[j [e cap]]|] eqn:E.
  - pose proof E as E'.
    apply searchFrom_inv in E' as (a & b & -> & Hj & Hm & _).
    rewrite match_commaSpacesEnd in Hm.
    destruct b as [|c w]; [discriminate|].
    destruct ((COMMA =? c)%N && forallb is_space w) eqn:Hc; [|discriminate].
    apply andb_prop in Hc as [Hc Hw]. apply N.eqb_eq in Hc. subst c.
    inversion Hm; subst. simpl in E.
    rewrite (replace_to_end commaSpacesEnd a (COMMA :: w) None) by
      (reflexivity || exact E).
    symmetry. apply stripCommaThenSpaces_hit, Hw.
  - rewrite replace_no_match by (reflexivity || exact E).
    unfold stripCommaThenSpaces.
    destruct (trimEnd_split s) as (w & Hs & Hw & _).
    destruct (rev (trimEnd s)) as [|c a] eqn:Er; [reflexivity|].
    destruct (N.eqb_spec c COMMA) as [->|]; [exfalso|reflexivity].
    apply (f_equal (@rev N)) in Er. rewrite rev_involutive in Er. simpl in Er.
    rewrite Er, <- app_assoc in Hs. simpl in Hs.
    pose proof (searchFrom_none_inv _ _ _ _ E (length (rev a))) as Hm.
    rewrite Hs in Hm at 2. rewrite skipn_length_app in Hm.
    rewrite match_commaSpacesEnd, N.eqb_refl, Hw in Hm.
    simpl in Hm. discriminate Hm.
    rewrite Hs, length_app. lia.
Qed.

Lemma stripSpacesThenComma_hit (a w : jsString) :
  forallb is_space w = true ->
  match rev a with [] => True | c :: _ => is_space c = false end ->
  stripSpacesThenComma (a ++ w ++ [COMMA]) = a.
Proof.
  intros Hw Ha. unfold stripSpacesThenComma.
  rewrite app_assoc, rev_app_distr. simpl.
  rewrite rev_involutive, trimEnd_spaces by exact Hw.
  apply trimEnd_id, Ha.
Qed.

Lemma match_spacesCommaEnd_hit (w : jsString) (off g : nat)
      (cap : option (nat * nat)) :
  forallb is_space w = true ->
  matchTerms false (pattern spacesCommaEnd) (w ++ [COMMA]) off g cap
  = Some (off + length (w ++ [COMMA]), cap).
Proof.
  intros Hw. rewrite match_spacesCommaEnd.
  rewrite (runLength_app false CsSpace w [COMMA]) by (exact Hw || reflexivity).
  rewrite skipn_length_app, N.eqb_refl. reflexivity.
Qed.

Lemma replace_spacesCommaEnd (s : jsString) :
  replace spacesCommaEnd s [] = stripSpacesThenComma s.
Proof.
  destruct (searchFrom false (pattern spacesCommaEnd) s 0) as [[j [e cap]]|] eqn:E.
  - pose proof E as E'.
    apply searchFrom_inv in E' as (a & b & -> & Hj & Hm & Hbefore).
    rewrite match_spacesCommaEnd in Hm.
    destruct (runLength_split false CsSpace b) as (w & r & Hb & Hl & Hw & Hr).
    rewrite <- Hl in Hm. rewrite Hb in Hm at 1. rewrite skipn_length_app in Hm.
    destruct r as [|c [|c' r]]; try discriminate.
    destruct (N.eqb_spec COMMA c) as [Hc|]; [subst c|discriminate].
    inversion Hm; subst. simpl in E.
    rewrite (replace_to_end spacesCommaEnd a (w ++ [COMMA]) None) by
      (reflexivity || exact E).
    symmetry. apply stripSpacesThenComma_hit; [exact Hw|].
    (* the match is the leftmost one: no whitespace right before it *)
    destruct (rev a) as [|x a'] eqn:Er; [exact I|].
    destruct (is_space x) eqn:Hx; [exfalso|reflexivity].
    apply (f_equal (@rev N)) in Er. rewrite rev_involutive in Er. simpl in Er.
    specialize (Hbefore (length (rev a'))).
    rewrite Er, <- app_assoc, skipn_length_app in Hbefore.
    change ([x] ++ w ++ [COMMA]) with ((x :: w) ++ [COMMA]) in Hbefore.
    rewrite match_spacesCommaEnd_hit in Hbefore.
    + discriminate Hbefore. rewrite length_app. simpl. lia.
    + simpl. rewrite Hx. exact Hw.
  - rewrite replace_no_match by (reflexivity || exact E).
    unfold stripSpacesThenComma.
    destruct (rev s) as [|c a] eqn:Er; [reflexivity|].
    destruct (N.eqb_spec c COMMA) as [->|]; [exfalso|reflexivity].
    apply (f_equal (@rev N)) in Er. rewrite rev_involutive in Er. simpl in Er.
    pose proof (searchFrom_none_inv _ _ _ _ E (length (rev a))) as Hm.
    rewrite Er in Hm at 2. rewrite skipn_length_app in Hm.
    rewrite (match_spacesCommaEnd_hit []) in Hm by reflexivity.
    discriminate Hm. rewrite Er, length_app. lia.
Qed.

(** *** Runs of whitespace *)

Lemma match_multipleSpaces (s : jsString) (off g : nat)
      (cap : option (nat * nat)) :
  matchTerms false (pattern multipleSpaces) s off g cap =
  if runLength false CsSpace s <? 2 then None
  else Some (off + runLength false CsSpace s, cap).
Proof.
  cbn [pattern multipleSpaces matchTerms].
  destruct (Nat.ltb_spec (runLength false CsSpace s) 2) as [Hlt|Hge];
    [reflexivity|].
  apply tryDown_top. cbn [matchTerms]. f_equal. f_equal. lia.
Qed.

(** Either the text has no run of two whitespace characters, or it splits
    at its leftmost one. *)
Lemma first_run (s : jsString) :
  (forall k, runLength false CsSpace (skipn k s) < 2) \/
  exists a w rest,
    s = a ++ w ++ rest /\
    (forall k, k < length a -> runLength false CsSpace (skipn k s) < 2) /\
    forallb is_space w = true /\ 2 <= length w /\
    match rest with [] => True | c :: _ => is_space c = false end.
Proof.
  destruct (searchFrom false (pattern multipleSpaces) s 0) as [[j r]|] eqn:E.
  - right. apply searchFrom_inv in E as (a & b & Hs & _ & Hm & Hbefore).
    rewrite match_multipleSpaces in Hm.
    destruct (Nat.ltb_spec (runLength false CsSpace b) 2) as [Hlt|Hge];
      [discriminate|].
    destruct (runLength_split false CsSpace b) as (w & rest & Hb & Hl & Hw & Hr).
    exists a, w, rest. subst b. repeat split; try assumption; [|lia].
    intros k Hk. specialize (Hbefore k Hk).
    rewrite match_multipleSpaces in Hbefore.
    destruct (Nat.ltb_spec (runLength false CsSpace (skipn k s)) 2);
      [assumption|discriminate].
  - left. intros k. destruct (Nat.le_gt_cases k (length s)) as [Hk|Hk].
    + pose proof (searchFrom_none_inv _ _ _ _ E k Hk) as Hm.
      rewrite match_multipleSpaces in Hm.
      destruct (Nat.ltb_spec (runLength false CsSpace (skipn k s)) 2);
        [assumption|discriminate].
    + rewrite skipn_all2 by lia. simpl. lia.
Qed.

Lemma collapseFrom_prefix (a rest : jsString) :
  (forall k, k < length a ->
             runLength false CsSpace (skipn k (a ++ rest)) < 2) ->
  collapseFrom false (a ++ rest) = a ++ collapseFrom false rest.
Proof.
  induction a as [|c a IH]; intros H; [reflexivity|].
  assert (IH' : collapseFrom false (a ++ rest) = a ++ collapseFrom false rest).
  { apply IH. intros k Hk. apply (H (S k)). simpl. lia. }
  pose proof (H 0 (Nat.lt_0_succ _)) as H0.
  cbn [app skipn runLength inSet] in H0.
  cbn [app collapseFrom].
  destruct (is_space c) eqn:Hc; [|rewrite IH'; reflexivity].
  destruct (a ++ rest) as [|c' t] eqn:E.
  - destruct a; [|discriminate]. simpl in E. subst rest. reflexivity.
  - cbn [runLength inSet] in H0.
    destruct (is_space c') eqn:Hc'; [lia|]. rewrite IH'. reflexivity.
Qed.

Lemma collapseFrom_in_run (w rest : jsString) :
  forallb is_space w = true ->
  collapseFrom true (w ++ rest) = collapseFrom true rest.
Proof.
  induction w as [|c w IH]; intros H; [reflexivity|].
  simpl in H. apply andb_prop in H as [Hc H].
  cbn [app collapseFrom]. rewrite Hc. apply IH, H.
Qed.

Lemma collapseFrom_after_run (rest : jsString) :
  match rest with [] => True | c :: _ => is_space c = false end ->
  collapseFrom true rest = collapseFrom false rest.
Proof.
  destruct rest as [|c rest]; [reflexivity|]. intros H.
  cbn [collapseFrom]. rewrite H. reflexivity.
Qed.

Lemma collapseFrom_run (w rest : jsString) :
  forallb is_space w = true -> 2 <= length w ->
  match rest with [] => True | c :: _ => is_space c = false end ->
  collapseFrom false (w ++ rest) = SPACE :: collapseFrom false rest.
Proof.
  intros Hw Hl Hrest.
  destruct w as [|c1 [|c2 w]]; simpl in Hl; try lia.
  simpl in Hw. apply andb_prop in Hw as [H1 Hw].
  apply andb_prop in Hw as [H2 Hw].
  cbn [app collapseFrom]. rewrite H1, H2. f_equal.
  rewrite collapseFrom_in_run by exact Hw.
  apply collapseFrom_after_run, Hrest.
Qed.

Lemma replaceAllLoop_multipleSpaces (fuel : nat) :
  forall pre suf : jsString,
    length suf < fuel ->
    replaceAllLoop fuel multipleSpaces (pre ++ suf) [SPACE]
                   (length pre) (length pre)
    = collapseFrom false suf.
Proof.
  induction fuel as [|fuel IH]; intros pre suf Hfuel; [lia|].
  cbn [replaceAllLoop]. rewrite exec_global by reflexivity.
  change (ignoreCase multipleSpaces) with false.
  destruct (first_run suf) as [Hnone|(a & w & rest & -> & Hleft & Hw & Hl & Hrest)].
  - rewrite searchFrom_none.
    + rewrite skipn_length_app. symmetry.
      rewrite <- (app_nil_r suf) at 1 2.
      rewrite collapseFrom_prefix; [reflexivity|].
      intros k _. rewrite app_nil_r. apply Hnone.
    + intros k _. rewrite match_multipleSpaces.
      destruct (Nat.ltb_spec (runLength false CsSpace (skipn k suf)) 2) as [|Hge];
        [reflexivity|]. specialize (Hnone k). lia.
  - rewrite searchFrom_skip.
    + assert (Hrun : runLength false CsSpace (w ++ rest) = length w).
      { apply runLength_app; assumption. }
      rewrite (searchFrom_hit false (pattern multipleSpaces) (w ++ rest)
                 (length pre + length a)
                 (length pre + length a + length w, None)).
      * cbn [index matched option_map].
        replace (substring (length pre + length a)
                           (length pre + length a + length w)
                           (pre ++ a ++ w ++ rest)) with w.
        -- replace (length w =? 0) with false
             by (symmetry; apply Nat.eqb_neq; lia).
           replace (substring (length pre) (length pre + length a)
                              (pre ++ a ++ w ++ rest)) with a
             by (symmetry; apply substring_middle).
           replace (pre ++ a ++ w ++ rest) with ((pre ++ a ++ w) ++ rest)
             by (rewrite <- !app_assoc; reflexivity).
           replace (length pre + length a + length w)
             with (length (pre ++ a ++ w)) by (rewrite !length_app; lia).
           rewrite IH by (rewrite !length_app in Hfuel; lia).
           rewrite collapseFrom_prefix by exact Hleft.
           rewrite collapseFrom_run by assumption. reflexivity.
        -- symmetry.
           replace (pre ++ a ++ w ++ rest) with ((pre ++ a) ++ w ++ rest)
             by (rewrite <- !app_assoc; reflexivity).
           replace (length pre + length a) with (length (pre ++ a))
             by (rewrite length_app; reflexivity).
           apply substring_middle.
      * rewrite match_multipleSpaces, Hrun.
        destruct (Nat.ltb_spec (length w) 2); [lia|reflexivity].
    + intros k Hk. rewrite match_multipleSpaces.
      destruct (Nat.ltb_spec
                  (runLength false CsSpace (skipn k (a ++ w ++ rest))) 2) as [|Hge];
        [reflexivity|]. specialize (Hleft k Hk). lia.
Qed.

Lemma replaceAll_multipleSpaces (s : jsString) :
  replaceAll multipleSpaces s [SPACE] = collapseSpaces s.
Proof.
  unfold replaceAll, collapseSpaces.
  apply (replaceAllLoop_multipleSpaces (length s + 2) [] s). lia.
Qed.

(** The post-processing of the service is the one that strips a trailing
    comma twice. *)
Lemma postProcess_eq (text : jsString) :
  postProcess text = postProcessTwoCommas text.
Proof.
  unfold postProcess, postProcessTwoCommas.
  rewrite replace_commaSpacesEnd, replace_spacesCommaEnd,
    replaceAll_multipleSpaces.
  reflexivity.
Qed.

(* ------------------------------------------------------------------ *)
(** ** Facts about clean text *)

Lemma noReference_skipn (s : jsString) :
  noReference s = true -> forall k, refAt (skipn k s) = false.
Proof.
  induction s as [|c s IH]; intros H k.
  - destruct k; reflexivity.
  - cbn [noReference] in H. apply andb_prop in H as [H0 H].
    destruct k as [|k]; [|apply IH, H].
    simpl. destruct (refAt (c :: s)); [discriminate|reflexivity].
Qed.

Lemma noDoubleSpace_skipn (s : jsString) :
  noDoubleSpace s = true ->
  forall k, runLength false CsSpace (skipn k s) < 2.
Proof.
  induction s as [|c s IH]; intros H k.
  - destruct k; simpl; lia.
  - cbn [noDoubleSpace] in H. apply andb_prop in H as [H0 H].
    destruct k as [|k]; [|apply IH, H].
    cbn [skipn runLength inSet].
    destruct (is_space c); [|lia].
    destruct s as [|c' s]; [simpl; lia|].
    cbn [runLength inSet]. cbn [andb negb] in H0.
    destruct (is_space c'); [discriminate|lia].
Qed.

Lemma collapseSpaces_clean (s : jsString) :
  noDoubleSpace s = true -> collapseSpaces s = s.
Proof.
  intros H. unfold collapseSpaces.
  rewrite <- (app_nil_r s) at 1.
  rewrite collapseFrom_prefix; [apply app_nil_r|].
  intros k _. rewrite app_nil_r. apply noDoubleSpace_skipn, H.
Qed.

Lemma postProcess_clean (s : jsString) :
  noDoubleSpace s = true -> noOuterSpace s = true -> noTrailingComma s = true ->
  postProcess s = s.
Proof.
  unfold noOuterSpace, noTrailingComma, nonSpace.
  intros Hd Ho Hc. apply andb_prop in Ho as [Hhead Hlast].
  assert (Hend : trimEnd s = s).
  { apply trimEnd_id. destruct (rev s) as [|c r]; [exact I|].
    destruct (is_space c); [discriminate|reflexivity]. }
  rewrite postProcess_eq. unfold postProcessTwoCommas.
  assert (H1 : stripCommaThenSpaces s = s).
  { unfold stripCommaThenSpaces. rewrite Hend.
    destruct (rev s) as [|c r]; [reflexivity|].
    destruct (c =? COMMA)%N; [discriminate|reflexivity]. }
  assert (H2 : stripSpacesThenComma s = s).
  { unfold stripSpacesThenComma.
    destruct (rev s) as [|c r]; [reflexivity|].
    destruct (c =? COMMA)%N; [discriminate|reflexivity]. }
  rewrite H1, H2, collapseSpaces_clean by exact Hd.
  unfold trim. rewrite trimStart_id; [exact Hend|].
  destruct s as [|c s]; [exact I|].
  destruct (is_space c); [discriminate|reflexivity].
Qed.

(* ------------------------------------------------------------------ *)
(** ** Facts about text that survives the post-processing *)

Lemma Infix_app_l (w s a : jsString) : Infix w s -> Infix w (a ++ s).
Proof.
  intros (x & y & ->). exists (a ++ x), y. rewrite <- app_assoc. reflexivity.
Qed.

Lemma Infix_app_r (w s b : jsString) : Infix w s -> Infix w (s ++ b).
Proof.
  intros (x & y & ->). exists x, (y ++ b). rewrite <- !app_assoc. reflexivity.
Qed.

Lemma Infix_cons (w s : jsString) (c : N) : Infix w s -> Infix w (c :: s).
Proof. apply (Infix_app_l w s [c]). Qed.

(** A text that shares no character with [b] and is written in [a ++ b] is
    written in [a]. *)
Lemma Infix_drop_right (w a b : jsString) :
  w <> [] -> (forall c, In c w -> In c b -> False) ->
  Infix w (a ++ b) -> Infix w a.
Proof.
  intros Hw Hdisj (x & y & E).
  rewrite app_assoc in E. symmetry in E.
  apply app_eq_app in E as (l & [[E1 E2]|[E1 E2]]).
  - destruct l as [|c l].
    + rewrite app_nil_r in E1. exists x, []. rewrite app_nil_r. symmetry. exact E1.
    + exfalso.
      apply app_eq_app in E1 as (l2 & [[E3 E4]|[E3 E4]]).
      * (* [w] lies in [b] *)
        destruct w as [|c' w]; [contradiction|].
        apply (Hdisj c'); [left; reflexivity|].
        rewrite E2, E4. apply in_or_app. left. apply in_or_app. right.
        left. reflexivity.
      * (* the end of [w] lies in [b] *)
        apply (Hdisj c).
        -- rewrite E4. apply in_or_app. right. left. reflexivity.
        -- rewrite E2. left. reflexivity.
  - exists x, l. rewrite E1, <- app_assoc. reflexivity.
Qed.

Lemma Infix_rev (w s : jsString) : Infix w s -> Infix (rev w) (rev s).
Proof.
  intros (x & y & ->). exists (rev y), (rev x).
  rewrite !rev_app_distr, <- app_assoc. reflexivity.
Qed.

Lemma Infix_drop_left (w a b : jsString) :
  w <> [] -> (forall c, In c w -> In c a -> False) ->
  Infix w (a ++ b) -> Infix w b.
Proof.
  intros Hw Hdisj H. apply Infix_rev in H. rewrite rev_app_distr in H.
  apply Infix_drop_right in H.
  - apply Infix_rev in H. rewrite !rev_involutive in H. exact H.
  - intros E. apply Hw. rewrite <- (rev_involutive w), E. reflexivity.
  - intros c Hc1 Hc2. apply in_rev in Hc1, Hc2. apply (Hdisj c); assumption.
Qed.

Lemma plain_not_space (w b : jsString) :
  forallb plainChar w = true -> forallb is_space b = true ->
  forall c, In c w -> In c b -> False.
Proof.
  intros Hw Hb c Hcw Hcb.
  rewrite forallb_forall in Hw, Hb. specialize (Hw c Hcw). specialize (Hb c Hcb).
  unfold plainChar, nonSpace in Hw. rewrite Hb in Hw. discriminate.
Qed.

Lemma plain_not_comma_space (w b : jsString) :
  forallb plainChar w = true -> forallb is_space b = true ->
  forall c, In c w -> In c (COMMA :: b) -> False.
Proof.
  intros Hw Hb c Hcw [<-|Hcb].
  - rewrite forallb_forall in Hw. specialize (Hw _ Hcw). discriminate.
  - apply (plain_not_space w b Hw Hb c); assumption.
Qed.

Lemma stripCommaThenSpaces_cases (s : jsString) :
  stripCommaThenSpaces s = s \/
  exists w, forallb is_space w = true /\
            s = stripCommaThenSpaces s ++ COMMA :: w.
Proof.
  unfold stripCommaThenSpaces.
  destruct (trimEnd_split s) as (w & Hs & Hw & _).
  destruct (rev (trimEnd s)) as [|c a] eqn:Er; [left; reflexivity|].
  destruct (N.eqb_spec c COMMA) as [->|]; [right|left; reflexivity].
  apply (f_equal (@rev N)) in Er. rewrite rev_involutive in Er. simpl in Er.
  exists w. split; [exact Hw|]. rewrite Hs at 1. rewrite Er, <- app_assoc.
  reflexivity.
Qed.

Lemma stripSpacesThenComma_cases (s : jsString) :
  stripSpacesThenComma s = s \/
  exists w, forallb is_space w = true /\
            s = stripSpacesThenComma s ++ w ++ [COMMA].
Proof.
  unfold stripSpacesThenComma.
  destruct (rev s) as [|c a] eqn:Er; [left; reflexivity|].
  destruct (N.eqb_spec c COMMA) as [->|]; [right|left; reflexivity].
  apply (f_equal (@rev N)) in Er. rewrite rev_involutive in Er. simpl in Er.
  destruct (trimEnd_split (rev a)) as (w & Hs & Hw & _).
  exists w. split; [exact Hw|]. rewrite Er. rewrite Hs at 1.
  rewrite <- app_assoc. reflexivity.
Qed.

Lemma collapseFrom_plain (w b : jsString) (inRun : bool) :
  forallb nonSpace w = true -> w <> [] ->
  collapseFrom inRun (w ++ b) = w ++ collapseFrom false b.
Proof.
  revert inRun. induction w as [|c w IH]; intros inRun Hw Hne; [contradiction|].
  simpl in Hw. apply andb_prop in Hw as [Hc Hw].
  unfold nonSpace in Hc. apply negb_true_iff in Hc.
  cbn [app collapseFrom]. rewrite Hc. f_equal.
  destruct w as [|c' w]; [reflexivity|].
  apply IH; [exact Hw|discriminate].
Qed.

Lemma collapseFrom_Infix (w s : jsString) (inRun : bool) :
  forallb nonSpace w = true -> w <> [] ->
  Infix w s -> Infix w (collapseFrom inRun s).
Proof.
  intros Hw Hne (a & b & ->). revert inRun.
  induction a as [|c a IH]; intros inRun.
  - cbn [app]. rewrite collapseFrom_plain by assumption.
    exists [], (collapseFrom false b). reflexivity.
  - cbn [app collapseFrom].
    destruct (is_space c); [|apply Infix_cons, IH].
    destruct inRun; [apply IH|].
    destruct (a ++ w ++ b) as [|c' t] eqn:E.
    + destruct a; destruct w; try discriminate. contradiction.
    + destruct (is_space c'); apply Infix_cons, IH.
Qed.

Lemma forallb_plain_nonSpace (w : jsString) :
  forallb plainChar w = true -> forallb nonSpace w = true.
Proof.
  intros H. rewrite forallb_forall in *. intros c Hc. specialize (H c Hc).
  unfold plainChar in H. apply andb_prop in H as [H _]. exact H.
Qed.

(** A word without whitespace and commas survives the post-processing. *)
Lemma postProcess_Infix (w s : jsString) :
  forallb plainChar w = true -> w <> [] ->
  Infix w s -> Infix w (postProcess s).
Proof.
  intros Hw Hne H. rewrite postProcess_eq. unfold postProcessTwoCommas.
  assert (H1 : Infix w (stripCommaThenSpaces s)).
  { destruct (stripCommaThenSpaces_cases s) as [->|(b & Hb & E)]; [exact H|].
    rewrite E in H. apply Infix_drop_right in H; [exact H|exact Hne|].
    apply plain_not_comma_space; assumption. }
  set (s1 := stripCommaThenSpaces s) in *.
  assert (H2 : Infix w (stripSpacesThenComma s1)).
  { destruct (stripSpacesThenComma_cases s1) as [->|(b & Hb & E)]; [exact H1|].
    rewrite E in H1. apply Infix_drop_right in H1; [exact H1|exact Hne|].
    intros c Hc1 Hc2. apply in_app_or in Hc2 as [Hc2|[<-|[]]].
    - apply (plain_not_space w b Hw Hb c); assumption.
    - rewrite forallb_forall in Hw. specialize (Hw _ Hc1). discriminate. }
  set (s2 := stripSpacesThenComma s1) in *.
  assert (H3 : Infix w (collapseSpaces s2)).
  { apply collapseFrom_Infix; [apply forallb_plain_nonSpace, Hw|exact Hne|exact H2]. }
  set (s3 := collapseSpaces s2) in *.
  unfold trim.
  destruct (trimStart_split s3) as (b & E & Hb & _).
  rewrite E in H3. apply Infix_drop_left in H3;
    [|exact Hne|intros c Hc1 Hc2; apply (plain_not_space w b Hw Hb c); assumption].
  destruct (trimEnd_split (trimStart s3)) as (b' & E' & Hb' & _).
  rewrite E' in H3. apply Infix_drop_right in H3; [exact H3|exact Hne|].
  apply plain_not_space; assumption.
Qed.

(* ------------------------------------------------------------------ *)
(** ** Facts about dangling keywords *)

Lemma canonicalize_range (a b : N) :
  (canonicalize a =? canonicalize b)%N = true ->
  (58 <= a <= 122)%N -> (58 <= b <= 122)%N.
Proof.
  unfold canonicalize. intros H Ha. apply N.eqb_eq in H.
  destruct (N.leb_spec 97 a), (N.leb_spec a 122),
           (N.leb_spec 97 b), (N.leb_spec b 122); simpl in H; lia.
Qed.

Lemma plainChar_range (b : N) : (58 <= b <= 122)%N -> plainChar b = true.
Proof.
  intros Hb. unfold plainChar, nonSpace.
  rewrite is_space_false_range by lia. simpl.
  apply negb_true_iff, N.eqb_neq. unfold COMMA. lia.
Qed.

Lemma isKeyword_plain (w : jsString) :
  isKeyword w = true -> forallb plainChar w = true.
Proof.
  unfold isKeyword. pose proof KEYWORD_range as Hkw. revert w.
  induction Hkw as [|a kw Ha _ IH]; intros [|b w] H; simpl in *;
    try discriminate; [reflexivity|].
  apply andb_prop in H as [Hab H].
  rewrite (plainChar_range b (canonicalize_range _ _ Hab Ha)).
  simpl. apply IH, H.
Qed.

Lemma sameIgnoringCase_map (kw w : jsString) :
  sameIgnoringCase kw w = true ->
  map canonicalize w = map canonicalize kw.
Proof.
  revert w. induction kw as [|a kw IH]; intros [|b w] H; simpl in *;
    try discriminate; [reflexivity|].
  apply andb_prop in H as [Hab H]. apply N.eqb_eq in Hab.
  rewrite Hab, (IH _ H). reflexivity.
Qed.

Lemma isKeyword_head (kw : jsString) :
  isKeyword kw = true ->
  exists x kw', kw = x :: kw' /\ canonicalize x = 83%N.
Proof.
  intros H. apply sameIgnoringCase_map in H.
  destruct kw as [|x kw']; [discriminate|].
  exists x, kw'. split; [reflexivity|]. simpl in H. injection H as H _. exact H.
Qed.

(** The keyword does not overlap a later copy of itself: [s] is written
    only at its start. *)
Lemma keyword_no_overlap (g y : jsString) (x : N) :
  isKeyword (g ++ x :: y) = true -> 1 <= length g ->
  canonicalize x = 83%N -> False.
Proof.
  intros H Hg Hx. apply sameIgnoringCase_map in H.
  apply (f_equal (fun l => nth (length (map canonicalize g)) l 0%N)) in H.
  rewrite map_app in H. cbn [map] in H. rewrite nth_middle, Hx in H.
  rewrite length_map in H.
  remember (length g) as n eqn:En. clear En.
  do 10 (destruct n as [|n]; [try lia; vm_compute in H; discriminate|]).
  vm_compute in H. destruct n; discriminate.
Qed.

Lemma danglingAt_not_reference (s : jsString) (k : nat) :
  danglingAt s k = true -> refAt (skipn k s) = false.
Proof.
  unfold danglingAt, refAt. intros H. apply andb_prop in H as [_ H].
  rewrite skipn_skipn, (Nat.add_comm 10 k).
  destruct (skipn (k + 10) s) as [|c t]; [apply andb_false_r|].
  unfold nonSpace. rewrite H. apply andb_false_r.
Qed.

Lemma danglingAt_keyword (s : jsString) (k : nat) :
  danglingAt s k = true -> isKeyword (firstn 10 (skipn k s)) = true.
Proof. unfold danglingAt. intros H. apply andb_prop in H as [H _]. exact H. Qed.

Lemma danglingAt_shift (a s : jsString) (k : nat) :
  danglingAt (a ++ s) (length a + k) = danglingAt s k.
Proof.
  unfold danglingAt.
  rewrite !skipn_app_ge by lia.
  replace (length a + k - length a) with k by lia.
  replace (length a + k + 10 - length a) with (k + 10) by lia.
  reflexivity.
Qed.

Lemma Infix_window (s : jsString) (k n : nat) :
  Infix (firstn n (skipn k s)) s.
Proof.
  exists (firstn k s), (skipn n (skipn k s)).
  rewrite firstn_skipn, firstn_skipn. reflexivity.
Qed.

(** Every span starts a reference. *)
Lemma spans_start (s : jsString) (occs : list occurrence) (lastGap : jsString) :
  Occurrences s occs lastGap ->
  forall off a b, In (a, b) (spans off occs) ->
                  off <= a /\ refAt (skipn (a - off) s) = true.
Proof.
  induction 1 as [s Hnone|gap kw tok rest occs lastGap Hleft Hkw Htok Hns Hrest Hocc IH];
    intros off a b Hin; [contradiction|].
  cbn [spans gapBefore keyword token] in Hin. destruct Hin as [Hin|Hin].
  - inversion Hin; subst. split; [lia|].
    replace (off + length gap - off) with (length gap) by lia.
    rewrite skipn_length_app. apply refAt_intro; assumption.
  - apply IH in Hin as [Hle Href]. split; [lia|].
    replace (gap ++ kw ++ tok ++ rest) with ((gap ++ kw ++ tok) ++ rest)
      by (rewrite <- !app_assoc; reflexivity).
    rewrite skipn_app_ge by (rewrite !length_app; lia).
    rewrite <- Href. f_equal. f_equal. rewrite !length_app. lia.
Qed.

(** A dangling keyword outside every span is written in the text that
    remains once the references are taken out. *)
Lemma dangling_remains (s : jsString) (occs : list occurrence)
      (lastGap : jsString) :
  Occurrences s occs lastGap ->
  forall off k,
    danglingAt s k = true ->
    (forall a b, In (a, b) (spans off occs) -> ~ (a <= off + k < b)) ->
    Infix (firstn 10 (skipn k s)) (remainingText occs lastGap).
Proof.
  induction 1 as [s Hnone|gap kw tok rest occs lastGap Hleft Hkw Htok Hns Hrest Hocc IH];
    intros off k Hd Hout.
  - unfold remainingText. cbn [map concat app]. apply Infix_window.
  - unfold remainingText. cbn [map concat gapBefore]. rewrite <- app_assoc.
    fold (remainingText occs lastGap).
    pose proof (isKeyword_length _ Hkw) as Hl.
    set (L := length gap + length kw + length tok).
    destruct (Nat.le_gt_cases L k) as [Hge|Hlt].
    + (* after the reference *)
      apply Infix_app_l.
      assert (Es : gap ++ kw ++ tok ++ rest = (gap ++ kw ++ tok) ++ rest)
        by (rewrite <- !app_assoc; reflexivity).
      assert (EL : length (gap ++ kw ++ tok) = L)
        by (rewrite !length_app; unfold L; lia).
      rewrite Es in *.
      replace k with (length (gap ++ kw ++ tok) + (k - L)) in Hd |- * by lia.
      rewrite danglingAt_shift in Hd.
      rewrite skipn_app_ge by lia.
      replace (length (gap ++ kw ++ tok) + (k - L) - length (gap ++ kw ++ tok))
        with (k - L) by lia.
      apply (IH (off + length gap + length kw + length tok) (k - L) Hd).
      intros a b Hin. specialize (Hout a b).
      cbn [spans gapBefore keyword token] in Hout.
      intros Hab. apply Hout; [right; exact Hin|]. unfold L in *. lia.
    + destruct (Nat.le_gt_cases (length gap) k) as [Hin|Hbefore].
      * (* inside the reference *)
        exfalso. apply (Hout (off + length gap)
                             (off + length gap + length kw + length tok)).
        -- cbn [spans gapBefore keyword token]. left. reflexivity.
        -- unfold L in Hlt. lia.
      * (* before the reference *)
        apply Infix_app_r.
        pose proof (danglingAt_keyword _ _ Hd) as Hw.
        rewrite skipn_app_le in Hw |- * by lia.
        destruct (Nat.le_gt_cases 10 (length (skipn k gap))) as [Hlong|Hshort].
        -- rewrite firstn_app.
           replace (10 - length (skipn k gap)) with 0 by lia.
           rewrite firstn_O, app_nil_r. apply Infix_window.
        -- exfalso.
           destruct (isKeyword_head _ Hkw) as (x & kw' & -> & Hx).
           rewrite firstn_app in Hw.
           destruct (10 - length (skipn k gap)) as [|n] eqn:En; [lia|].
           rewrite firstn_all2 in Hw by lia.
           cbn [app] in Hw. rewrite firstn_cons in Hw.
           apply (keyword_no_overlap _ _ _ Hw); [|exact Hx].
           rewrite length_skipn. lia.
Qed.

(* ------------------------------------------------------------------ *)
(** ** Stripping one trailing comma or two *)

Lemma collapseFrom_spaces (w : jsString) (inRun : bool) :
  forallb is_space w = true -> forallb is_space (collapseFrom inRun w) = true.
Proof.
  revert inRun. induction w as [|c w IH]; intros inRun H; [reflexivity|].
  simpl in H. apply andb_prop in H as [Hc H].
  cbn [collapseFrom]. rewrite Hc.
  destruct inRun; [apply IH, H|].
  destruct w as [|c' w]; [simpl; rewrite Hc; reflexivity|].
  pose proof H as H'. simpl in H'. apply andb_prop in H' as [Hc' _].
  rewrite Hc'. cbn [forallb]. rewrite (IH true H). reflexivity.
Qed.

(** Whitespace at the end of a text is collapsed on its own. *)
Lemma collapseFrom_app_end (y w : jsString) (c : N) (inRun : bool) :
  is_space c = false ->
  collapseFrom inRun ((y ++ [c]) ++ w)
  = collapseFrom inRun (y ++ [c]) ++ collapseFrom false w.
Proof.
  intros Hc. revert inRun. induction y as [|d y IH]; intros inRun.
  - cbn [app collapseFrom]. rewrite Hc. reflexivity.
  - cbn [app collapseFrom].
    destruct (is_space d); [|rewrite IH; reflexivity].
    destruct inRun; [apply IH|].
    destruct (y ++ [c]) as [|d' t] eqn:E; [destruct y; discriminate|].
    cbn [app]. destruct (is_space d'); rewrite IH; reflexivity.
Qed.

Lemma trim_app_spaces (x t : jsString) :
  forallb is_space t = true -> trim (x ++ t) = trim x.
Proof.
  intros Ht. unfold trim.
  destruct (trimStart_split x) as (w & Ex & Hw & Hh).
  rewrite Ex at 1. rewrite <- app_assoc, trimStart_spaces by exact Hw.
  destruct (trimStart x) as [|c r] eqn:E.
  - cbn [app]. rewrite <- (app_nil_r t), trimStart_spaces by exact Ht.
    reflexivity.
  - cbn [app trimStart]. rewrite Hh. apply (trimEnd_spaces (c :: r) t Ht).
Qed.

Lemma trim_spaces (t : jsString) : forallb is_space t = true -> trim t = [].
Proof. intros Ht. apply (trim_app_spaces [] t Ht). Qed.

Lemma trim_collapse_trimEnd (x : jsString) :
  trim (collapseSpaces (trimEnd x)) = trim (collapseSpaces x).
Proof.
  destruct (trimEnd_split x) as (w & Ex & Hw & Hlast).
  rewrite Ex at 2. unfold collapseSpaces.
  destruct (rev (trimEnd x)) as [|c r] eqn:Er.
  - apply (f_equal (@rev N)) in Er. rewrite rev_involutive in Er.
    rewrite Er. cbn [rev app].
    rewrite (trim_spaces _ (collapseFrom_spaces w false Hw)). reflexivity.
  - apply (f_equal (@rev N)) in Er. rewrite rev_involutive in Er.
    cbn [rev] in Er. rewrite Er, collapseFrom_app_end by exact Hlast.
    rewrite trim_app_spaces by (apply collapseFrom_spaces, Hw). reflexivity.
Qed.

(** Unless a second comma ends the text once the first is stripped, the
    post-processing is the one that strips a single trailing comma. *)
Lemma postProcess_one_comma (text : jsString) :
  noTrailingComma (stripCommaThenSpaces text) = true ->
  postProcess text = postProcessOneComma text.
Proof.
  intros Hno. rewrite postProcess_eq.
  unfold postProcessTwoCommas, postProcessOneComma.
  assert (H2 : stripSpacesThenComma (stripCommaThenSpaces text)
               = stripCommaThenSpaces text).
  { unfold noTrailingComma in Hno. unfold stripSpacesThenComma.
    destruct (rev (stripCommaThenSpaces text)) as [|c r]; [reflexivity|].
    destruct (c =? COMMA)%N; [discriminate|reflexivity]. }
  rewrite H2. clear H2 Hno.
  unfold stripCommaThenSpaces, stripOneTrailingComma.
  destruct (rev (trimEnd text)) as [|c r]; [reflexivity|].
  destruct (c =? COMMA)%N; [|reflexivity].
  symmetry. apply trim_collapse_trimEnd.
Qed.

(* ------------------------------------------------------------------ *)
(** ** Facts about the cache and the service *)

Lemma jsString_eqb_refl (s : jsString) : jsString_eqb s s = true.
Proof.
  unfold jsString_eqb. destruct (list_eq_dec N.eq_dec s s); [reflexivity|].
  contradiction.
Qed.

Lemma lookup_set (key value : jsString) (m : LRUMap.t) :
  LRUMap.lookup key (LRUMap.items (LRUMap.set key value m)) = Some value.
Proof.
  unfold LRUMap.set.
  destruct (LRUMap.lookup key (LRUMap.items m));
    [|destruct (length (LRUMap.items m) <? LRUMap.capacity m)];
    simpl; rewrite jsString_eqb_refl; reflexivity.
Qed.

Lemma lookup_get (key : jsString) (m : LRUMap.t) :
  LRUMap.lookup key (LRUMap.items (snd (LRUMap.get key m)))
  = LRUMap.lookup key (LRUMap.items m) /\
  fst (LRUMap.get key m) = LRUMap.lookup key (LRUMap.items m).
Proof.
  unfold LRUMap.get.
  destruct (LRUMap.lookup key (LRUMap.items m)) eqn:E; simpl.
  - rewrite jsString_eqb_refl. split; reflexivity.
  - split; [exact E|reflexivity].
Qed.

Lemma encoderCalls_app (t1 t2 : list event) :
  encoderCalls (t1 ++ t2) = encoderCalls t1 + encoderCalls t2.
Proof. unfold encoderCalls. rewrite filter_app, length_app. reflexivity. Qed.

(** A hit on a truthy value answers from the cache and calls nobody. *)
Lemma cachedEmbedding_hit (env : Collaborators) (ml : MachineLearningConfig)
      (dto : SmartSearchDto) (w : world) (e : embedding) :
  LRUMap.lookup (cacheKey (clipModelName ml) (query dto) (language dto))
                (LRUMap.items (embeddingCache w)) = Some e ->
  truthyString e = true ->
  exists w', cachedEmbedding env ml dto w = (Returned e, w') /\
             trace w' = trace w /\
             LRUMap.lookup (cacheKey (clipModelName ml) (query dto) (language dto))
                           (LRUMap.items (embeddingCache w')) = Some e.
Proof.
  intros Hl Ht. unfold cachedEmbedding, bind, cacheGet.
  pose proof (lookup_get (cacheKey (clipModelName ml) (query dto) (language dto))
                         (embeddingCache w)) as [Hsnd Hfst].
  destruct (LRUMap.get (cacheKey (clipModelName ml) (query dto) (language dto))
                       (embeddingCache w)) as [v c].
  simpl in Hsnd, Hfst. rewrite Hl in Hfst, Hsnd. subst v. rewrite Ht.
  eexists. split; [reflexivity|]. split; [reflexivity|exact Hsnd].
Qed.

(** Whatever the first resolution did, it leaves its value under the key and
    has called the encoder at most once. *)
Lemma cachedEmbedding_stores (env : Collaborators) (ml : MachineLearningConfig)
      (dto : SmartSearchDto) (w w' : world) (e : embedding) :
  cachedEmbedding env ml dto w = (Returned e, w') ->
  LRUMap.lookup (cacheKey (clipModelName ml) (query dto) (language dto))
                (LRUMap.items (embeddingCache w')) = Some e /\
  encoderCalls (trace w') <= encoderCalls (trace w) + 1.
Proof.
  unfold cachedEmbedding, bind, cacheGet, call, bind, start, await, cacheSet,
    ret, throw.
  pose proof (lookup_get (cacheKey (clipModelName ml) (query dto) (language dto))
                         (embeddingCache w)) as [Hsnd Hfst].
  destruct (LRUMap.get (cacheKey (clipModelName ml) (query dto) (language dto))
                       (embeddingCache w)) as [v c].
  simpl in Hsnd, Hfst.
  destruct v as [e0|]; [destruct (truthyString e0) eqn:Ht|].
  - intros H. inversion H; subst. simpl. split; [|lia].
    rewrite Hsnd. symmetry. exact Hfst.
  - simpl. destruct (encodeText env (trace w) (urls ml) (query dto)
                                (clipModelName ml) (language dto)) as [code|e'];
      intros H; inversion H; subst. simpl.
    split; [apply lookup_set|]. rewrite encoderCalls_app. unfold encoderCalls. simpl. lia.
  - simpl. destruct (encodeText env (trace w) (urls ml) (query dto)
                                (clipModelName ml) (language dto)) as [code|e'];
      intros H; inversion H; subst. simpl.
    split; [apply lookup_set|]. rewrite encoderCalls_app. unfold encoderCalls. simpl. lia.
Qed.

(** The guard of the parsed query never fires: an array is truthy. *)
Lemma searchEmbeddings_never_rejects (env : Collaborators)
      (ml : MachineLearningConfig) (dto : SmartSearchDto)
      (b : SmartSearchQuery) (w : world) :
  fst (searchEmbeddings env ml dto b w) <> Threw QueryNotUnderstood.
Proof.
  unfold searchEmbeddings, truthyArray. rewrite andb_false_r.
  unfold bind, call, bind, start, await, ret, throw.
  destruct (getAssetEmbeddings env (trace w) (similarToAssetIds b));
    simpl; [discriminate|].
  destruct (truthyString (searchText b)); simpl; [|discriminate].
  destruct (encodeText env _ (urls ml) (searchText b) (clipModelName ml)
                       (language dto)); simpl; discriminate.
Qed.

(** The storage is asked for the embeddings of the references whatever
    their number. *)
Lemma searchEmbeddings_always_fetches (env : Collaborators)
      (ml : MachineLearningConfig) (dto : SmartSearchDto)
      (b : SmartSearchQuery) (w : world) :
  exists later,
    trace (snd (searchEmbeddings env ml dto b w))
    = trace w ++ GetAssetEmbeddings (similarToAssetIds b) :: later.
Proof.
  unfold searchEmbeddings, truthyArray. rewrite andb_false_r.
  unfold bind, call, bind, start, await, ret, throw.
  destruct (getAssetEmbeddings env (trace w) (similarToAssetIds b));
    simpl; [exists []; reflexivity|].
  destruct (truthyString (searchText b)); simpl; [|exists []; reflexivity].
  destruct (encodeText env _ (urls ml) (searchText b) (clipModelName ml)
                       (language dto)); simpl;
    rewrite <- app_assoc; eexists; reflexivity.
Qed.

(** The storage is asked once, for all the references together, and its
    vectors come first, in the order of its answer. *)
Lemma searchEmbeddings_order (env : Collaborators) (ml : MachineLearningConfig)
      (dto : SmartSearchDto) (b : SmartSearchQuery) (w w' : world)
      (embs : list embedding) :
  searchEmbeddings env ml dto b w = (Returned embs, w') ->
  exists vs,
    getAssetEmbeddings env (trace w) (similarToAssetIds b) = Replied vs /\
    length (filter isGetAssetEmbeddings (trace w'))
    = length (filter isGetAssetEmbeddings (trace w)) + 1 /\
    ((truthyString (searchText b) = false /\ embs = vs) \/
     (truthyString (searchText b) = true /\ exists e, embs = vs ++ [e])).
Proof.
  unfold searchEmbeddings, truthyArray. rewrite andb_false_r.
  unfold bind, call, bind, start, await, ret, throw.
  destruct (getAssetEmbeddings env (trace w) (similarToAssetIds b)) as [code|vs];
    simpl; [discriminate|].
  destruct (truthyString (searchText b)); simpl.
  - destruct (encodeText env _ (urls ml) (searchText b) (clipModelName ml)
                         (language dto)) as [code|e]; simpl; [discriminate|].
    intros H. inversion H; subst. exists vs. cbn [trace].
    rewrite !filter_app, !length_app. simpl.
    repeat split; [lia|]. right. split; [reflexivity|]. exists e. reflexivity.
  - intros H. inversion H; subst. exists embs. cbn [trace].
    rewrite !filter_app, !length_app. simpl.
    repeat split. left. split; reflexivity.
Qed.

(** *** The exception of the query guard *)

Lemma neverThrows_ret (A : Type) (e : exception) (a : A) :
  neverThrows e (ret a).
Proof. intros w. simpl. discriminate. Qed.

Lemma neverThrows_throw (A : Type) (e e' : exception) :
  e' <> e -> neverThrows e (@throw A e').
Proof. intros Hne w. simpl. congruence. Qed.

Lemma neverThrows_bind (A B : Type) (e : exception) (m : M A) (k : A -> M B) :
  neverThrows e m -> (forall a, neverThrows e (k a)) ->
  neverThrows e (bind m k).
Proof.
  intros Hm Hk w. unfold bind. specialize (Hm w).
  destruct (m w) as [[e'|a] w']; simpl in *; [congruence|apply Hk].
Qed.

Lemma neverThrows_start (A : Type) (e : exception) (ev : event)
      (answer : list event -> reply A) :
  neverThrows e (start ev answer).
Proof. intros w. simpl. discriminate. Qed.

Lemma neverThrows_await (A : Type) (e : exception) (r : reply A) :
  (forall code, e <> CollaboratorFailure code) -> neverThrows e (await r).
Proof.
  intros He w. destruct r as [code|a]; simpl; [|discriminate].
  intros H. inversion H. apply (He code). congruence.
Qed.

Lemma neverThrows_call (A : Type) (e : exception) (ev : event)
      (answer : list event -> reply A) :
  (forall code, e <> CollaboratorFailure code) -> neverThrows e (call ev answer).
Proof.
  intros He. apply neverThrows_bind; [apply neverThrows_start|].
  intros r. apply neverThrows_await, He.
Qed.

Lemma neverThrows_record (e : exception) (ev : event) :
  neverThrows e (record ev).
Proof. intros w. simpl. discriminate. Qed.

Lemma neverThrows_cacheGet (e : exception) (key : jsString) :
  neverThrows e (cacheGet key).
Proof.
  intros w. unfold cacheGet. destruct (LRUMap.get key (embeddingCache w)).
  simpl. discriminate.
Qed.

Lemma neverThrows_cacheSet (e : exception) (key value : jsString) :
  neverThrows e (cacheSet key value).
Proof. intros w. simpl. discriminate. Qed.

Lemma QueryNotUnderstood_not_collaborator (code : N) :
  QueryNotUnderstood <> CollaboratorFailure code.
Proof. discriminate. Qed.

Lemma searchSmart_never_rejects_query (env : Collaborators) (auth : AuthDto)
      (dto : SmartSearchDto) :
  neverThrows QueryNotUnderstood (searchSmart env auth dto).
Proof.
  pose proof QueryNotUnderstood_not_collaborator as Hq.
  unfold searchSmart.
  apply neverThrows_bind.
  { destruct (visibility dto); [|apply neverThrows_ret].
    unfold requireElevatedPermission.
    destruct (hasElevatedPermission auth);
      [apply neverThrows_ret|apply neverThrows_throw; discriminate]. }
  intros _. apply neverThrows_bind; [apply neverThrows_call, Hq|].
  intros ml. destruct (smartSearchEnabled ml); cbn [negb];
    [|apply neverThrows_throw; discriminate].
  apply neverThrows_bind.
  { unfold getUserIdsToSearch. apply neverThrows_bind;
      [apply neverThrows_start|intros r; apply neverThrows_ret]. }
  intros userIds. apply neverThrows_bind.
  { unfold cachedEmbedding. apply neverThrows_bind; [apply neverThrows_cacheGet|].
    intros [e|]; [destruct (truthyString e); [apply neverThrows_ret|]|];
      (apply neverThrows_bind; [apply neverThrows_call, Hq|]; intros e';
       apply neverThrows_bind; [apply neverThrows_cacheSet|]; intros _;
       apply neverThrows_ret). }
  intros emb. cbv zeta.
  apply neverThrows_bind; [apply neverThrows_await, Hq|].
  intros awaited. apply neverThrows_bind; [apply neverThrows_call, Hq|].
  intros _. apply neverThrows_bind.
  { intros w. apply searchEmbeddings_never_rejects. }
  intros embs. apply neverThrows_bind; [apply neverThrows_record|].
  intros _. apply neverThrows_bind.
  { destruct (1 <? length embs); [|apply neverThrows_call, Hq].
    apply neverThrows_bind; [apply neverThrows_call, Hq|].
    intros avg. apply neverThrows_call, Hq. }
  intros [items hasNextPage]. apply neverThrows_ret.
Qed.

(** *** Counting the calls of a run *)

Lemma calls_ret (A : Type) (p : event -> bool) (a : A) : calls p (ret a) 0.
Proof. intros w a' w' H. inversion H; subst. lia. Qed.

Lemma calls_throw (A : Type) (p : event -> bool) (e : exception) (n : nat) :
  calls p (@throw A e) n.
Proof. intros w a w' H. discriminate H. Qed.

Lemma calls_bind (A B : Type) (p : event -> bool) (m : M A) (k : A -> M B)
      (n1 n2 : nat) :
  calls p m n1 -> (forall a, calls p (k a) n2) -> calls p (bind m k) (n1 + n2).
Proof.
  intros Hm Hk w b w' H. unfold bind in H.
  destruct (m w) as [[e|a] w1] eqn:E; [discriminate|].
  rewrite (Hk a _ _ _ H), (Hm _ _ _ E). lia.
Qed.

Lemma calls_start (A : Type) (p : event -> bool) (ev : event)
      (answer : list event -> reply A) :
  calls p (start ev answer) (if p ev then 1 else 0).
Proof.
  intros w a w' H. inversion H; subst. cbn [trace].
  rewrite filter_app, length_app. simpl. destruct (p ev); reflexivity.
Qed.

Lemma calls_await (A : Type) (p : event -> bool) (r : reply A) :
  calls p (await r) 0.
Proof. destruct r; [apply calls_throw|apply calls_ret]. Qed.

Lemma calls_call (A : Type) (p : event -> bool) (ev : event)
      (answer : list event -> reply A) :
  calls p (call ev answer) (if p ev then 1 else 0).
Proof.
  rewrite <- (Nat.add_0_r (if p ev then 1 else 0)).
  apply calls_bind; [apply calls_start|intros r; apply calls_await].
Qed.

Lemma calls_record (p : event -> bool) (ev : event) :
  calls p (record ev) (if p ev then 1 else 0).
Proof.
  intros w a w' H. inversion H; subst. cbn [trace].
  rewrite filter_app, length_app. simpl. destruct (p ev); reflexivity.
Qed.

Lemma calls_cacheGet (p : event -> bool) (key : jsString) :
  calls p (cacheGet key) 0.
Proof.
  intros w a w' H. unfold cacheGet in H.
  destruct (LRUMap.get key (embeddingCache w)). inversion H; subst. simpl. lia.
Qed.

Lemma calls_cacheSet (p : event -> bool) (key value : jsString) :
  calls p (cacheSet key value) 0.
Proof. intros w a w' H. inversion H; subst. simpl. lia. Qed.

Lemma calls_at_least (A : Type) (p : event -> bool) (m : M A) (n : nat) :
  calls p m n -> callsAtLeast p m n.
Proof. intros H w a w' Hrun. rewrite (H _ _ _ Hrun). lia. Qed.

Lemma callsAtLeast_bind (A B : Type) (p : event -> bool) (m : M A)
      (k : A -> M B) (n1 n2 : nat) :
  callsAtLeast p m n1 -> (forall a, callsAtLeast p (k a) n2) ->
  callsAtLeast p (bind m k) (n1 + n2).
Proof.
  intros Hm Hk w b w' H. unfold bind in H.
  destruct (m w) as [[e|a] w1] eqn:E; [discriminate|].
  pose proof (Hk a _ _ _ H). pose proof (Hm _ _ _ E). lia.
Qed.

Lemma cachedEmbedding_index_calls (env : Collaborators)
      (ml : MachineLearningConfig) (dto : SmartSearchDto) :
  calls isSearchSmart (cachedEmbedding env ml dto) 0.
Proof.
  unfold cachedEmbedding. cbv zeta.
  assert (Hencode :
    forall key,
      calls isSearchSmart
        (bind (call (EncodeText (urls ml) (query dto) (clipModelName ml)
                                (language dto))
                    (fun h => encodeText env h (urls ml) (query dto)
                                         (clipModelName ml) (language dto)))
              (fun e => bind (cacheSet key e) (fun _ => ret e))) 0).
  { intros key. apply (calls_bind _ _ _ _ _ 0 0); [apply (calls_call _ isSearchSmart)|].
    intros e. apply (calls_bind _ _ _ _ _ 0 0); [apply calls_cacheSet|].
    intros _. apply calls_ret. }
  apply (calls_bind _ _ _ _ _ 0 0); [apply calls_cacheGet|].
  intros [e|]; [destruct (truthyString e); [apply calls_ret|]|]; apply Hencode.
Qed.

Lemma searchEmbeddings_index_calls (env : Collaborators)
      (ml : MachineLearningConfig) (dto : SmartSearchDto)
      (b : SmartSearchQuery) :
  calls isSearchSmart (searchEmbeddings env ml dto b) 0.
Proof.
  unfold searchEmbeddings, truthyArray. rewrite andb_false_r.
  apply (calls_bind _ _ _ _ _ 0 0); [apply (calls_call _ isSearchSmart)|].
  intros vs. destruct (truthyString (searchText b)); [|apply calls_ret].
  apply (calls_bind _ _ _ _ _ 0 0); [apply (calls_call _ isSearchSmart)|].
  intros e. apply calls_ret.
Qed.

(** Every request that is answered has searched the index twice. *)
Lemma searchSmart_index_calls (env : Collaborators) (auth : AuthDto)
      (dto : SmartSearchDto) :
  calls isSearchSmart (searchSmart env auth dto) 2.
Proof.
  unfold searchSmart.
  apply (calls_bind _ _ _ _ _ 0 2).
  { destruct (visibility dto); [|apply calls_ret].
    unfold requireElevatedPermission.
    destruct (hasElevatedPermission auth); [apply calls_ret|apply calls_throw]. }
  intros _. apply (calls_bind _ _ _ _ _ 0 2); [apply (calls_call _ isSearchSmart)|].
  intros ml. destruct (smartSearchEnabled ml); cbn [negb]; [|apply calls_throw].
  apply (calls_bind _ _ _ _ _ 0 2).
  { unfold getUserIdsToSearch.
    apply (calls_bind _ _ _ _ _ 0 0); [apply (calls_start _ isSearchSmart)|].
    intros r. apply calls_ret. }
  intros userIds. apply (calls_bind _ _ _ _ _ 0 2);
    [apply cachedEmbedding_index_calls|].
  intros emb. cbv zeta.
  apply (calls_bind _ _ _ _ _ 0 2); [apply calls_await|].
  intros awaited.
  apply (calls_bind _ _ _ _ _ 1 1); [apply (calls_call _ isSearchSmart)|].
  intros _. apply (calls_bind _ _ _ _ _ 0 1); [apply searchEmbeddings_index_calls|].
  intros embs. apply (calls_bind _ _ _ _ _ 0 1); [apply (calls_record isSearchSmart)|].
  intros _. apply (calls_bind _ _ _ _ _ 1 0).
  { destruct (1 <? length embs); [|apply (calls_call _ isSearchSmart)].
    apply (calls_bind _ _ _ _ _ 0 1); [apply (calls_call _ isSearchSmart)|].
    intros avg. apply (calls_call _ isSearchSmart). }
  intros [items hasNextPage]. apply calls_ret.
Qed.

(** The text of a parsed query is encoded on every request, whatever the
    cache holds. *)
Lemma searchEmbeddings_encoder_calls (env : Collaborators)
      (ml : MachineLearningConfig) (dto : SmartSearchDto)
      (b : SmartSearchQuery) :
  truthyString (searchText b) = true ->
  calls isEncodeText (searchEmbeddings env ml dto b) 1.
Proof.
  intros Ht. unfold searchEmbeddings, truthyArray. rewrite andb_false_r, Ht.
  apply (calls_bind _ _ _ _ _ 0 1); [apply (calls_call _ isEncodeText)|].
  intros vs. apply (calls_bind _ _ _ _ _ 1 0); [apply (calls_call _ isEncodeText)|].
  intros e. apply calls_ret.
Qed.

Lemma cachedEmbedding_encoder_calls (env : Collaborators)
      (ml : MachineLearningConfig) (dto : SmartSearchDto) :
  callsAtLeast isEncodeText (cachedEmbedding env ml dto) 0.
Proof.
  intros w e w' H.
  destruct (cachedEmbedding_stores env ml dto w w' e H) as [_ Hle].
  unfold cachedEmbedding, bind, cacheGet, call, bind, start, await, cacheSet,
    ret, throw in H.
  destruct (LRUMap.get (cacheKey (clipModelName ml) (query dto) (language dto))
                       (embeddingCache w)) as [v c].
  destruct v as [e0|]; [destruct (truthyString e0)|];
    try (inversion H; subst; simpl; lia);
    simpl in H;
    destruct (encodeText env (trace w) (urls ml) (query dto)
                         (clipModelName ml) (language dto));
    inversion H; subst; simpl; rewrite filter_app, length_app; lia.
Qed.

Lemma searchSmart_encoder_calls (env : Collaborators) (auth : AuthDto)
      (dto : SmartSearchDto) :
  truthyString (searchText (parseQuery (query dto))) = true ->
  callsAtLeast isEncodeText (searchSmart env auth dto) 1.
Proof.
  intros Ht. unfold searchSmart.
  apply (callsAtLeast_bind _ _ _ _ _ 0 1).
  { apply calls_at_least. destruct (visibility dto); [|apply calls_ret].
    unfold requireElevatedPermission.
    destruct (hasElevatedPermission auth); [apply calls_ret|apply calls_throw]. }
  intros _. apply (callsAtLeast_bind _ _ _ _ _ 0 1);
    [apply calls_at_least, (calls_call _ isEncodeText)|].
  intros ml. destruct (smartSearchEnabled ml); cbn [negb];
    [|apply calls_at_least, calls_throw].
  apply (callsAtLeast_bind _ _ _ _ _ 0 1).
  { apply calls_at_least. unfold getUserIdsToSearch.
    apply (calls_bind _ _ _ _ _ 0 0); [apply (calls_start _ isEncodeText)|].
    intros r. apply calls_ret. }
  intros userIds. apply (callsAtLeast_bind _ _ _ _ _ 0 1);
    [apply cachedEmbedding_encoder_calls|].
  intros emb. cbv zeta.
  apply (callsAtLeast_bind _ _ _ _ _ 0 1); [apply calls_at_least, calls_await|].
  intros awaited.
  apply (callsAtLeast_bind _ _ _ _ _ 0 1);
    [apply calls_at_least, (calls_call _ isEncodeText)|].
  intros _. apply (callsAtLeast_bind _ _ _ _ _ 1 0);
    [apply calls_at_least, searchEmbeddings_encoder_calls, Ht|].
  intros embs. apply calls_at_least.
  apply (calls_bind _ _ _ _ _ 0 0); [apply (calls_record isEncodeText)|].
  intros _. apply (calls_bind _ _ _ _ _ 0 0).
  { destruct (1 <? length embs); [|apply (calls_call _ isEncodeText)].
    apply (calls_bind _ _ _ _ _ 0 0); [apply (calls_call _ isEncodeText)|].
    intros avg. apply (calls_call _ isEncodeText). }
  intros [items hasNextPage]. apply calls_ret.
Qed.

(** *** What a run answers and calls *)

Lemma runs_ret (A : Type) (Q : A -> Prop) (P : event -> Prop) (a : A) :
  Q a -> runs (ret a) Q P.
Proof.
  intros HQ w a' w' H. inversion H; subst. split; [exact HQ|].
  exists []. rewrite app_nil_r. split; [reflexivity|constructor].
Qed.

Lemma runs_throw (A : Type) (Q : A -> Prop) (P : event -> Prop)
      (e : exception) :
  runs (@throw A e) Q P.
Proof. intros w a w' H. discriminate H. Qed.

Lemma runs_bind (A B : Type) (m : M A) (k : A -> M B) (Q1 : A -> Prop)
      (Q2 : B -> Prop) (P : event -> Prop) :
  runs m Q1 P -> (forall a, Q1 a -> runs (k a) Q2 P) -> runs (bind m k) Q2 P.
Proof.
  intros Hm Hk w b w' H. unfold bind in H.
  destruct (m w) as [[e|a] w1] eqn:E; [discriminate|].
  destruct (Hm _ _ _ E) as (HQ1 & t1 & Ht1 & HP1).
  destruct (Hk a HQ1 _ _ _ H) as (HQ2 & t2 & Ht2 & HP2).
  split; [exact HQ2|]. exists (t1 ++ t2).
  rewrite Ht2, Ht1, <- app_assoc. split; [reflexivity|].
  apply Forall_app. split; assumption.
Qed.

Lemma runs_start (A : Type) (P : event -> Prop) (ev : event)
      (answer : list event -> reply A) :
  P ev -> runs (start ev answer) (fun _ => True) P.
Proof.
  intros HP w a w' H. inversion H; subst. split; [exact I|].
  exists [ev]. split; [reflexivity|]. constructor; [exact HP|constructor].
Qed.

Lemma runs_await (A : Type) (P : event -> Prop) (r : reply A) :
  runs (await r) (fun a => r = Replied a) P.
Proof.
  destruct r as [code|a]; [apply runs_throw|]. apply runs_ret. reflexivity.
Qed.

Lemma runs_call (A : Type) (P : event -> Prop) (ev : event)
      (answer : list event -> reply A) :
  P ev -> runs (call ev answer) (fun _ => True) P.
Proof.
  intros HP. apply runs_bind with (Q1 := fun _ => True);
    [apply runs_start, HP|].
  intros r _ w a w' H. destruct (runs_await A P r w a w' H) as [_ Ht].
  split; [exact I|exact Ht].
Qed.

Lemma runs_record (P : event -> Prop) (ev : event) :
  P ev -> runs (record ev) (fun _ => True) P.
Proof.
  intros HP w a w' H. inversion H; subst. split; [exact I|].
  exists [ev]. split; [reflexivity|]. constructor; [exact HP|constructor].
Qed.

Lemma runs_cacheGet (P : event -> Prop) (key : jsString) :
  runs (cacheGet key) (fun _ => True) P.
Proof.
  intros w a w' H. unfold cacheGet in H.
  destruct (LRUMap.get key (embeddingCache w)). inversion H; subst.
  split; [exact I|]. exists []. rewrite app_nil_r. split; [reflexivity|constructor].
Qed.

Lemma runs_cacheSet (P : event -> Prop) (key value : jsString) :
  runs (cacheSet key value) (fun _ => True) P.
Proof.
  intros w a w' H. inversion H; subst.
  split; [exact I|]. exists []. rewrite app_nil_r. split; [reflexivity|constructor].
Qed.

(** Every search of the index that a request makes has the page of the
    request or 1, its size or 100, and the requesting user and its partners
    as user ids. *)
Lemma searchSmart_searches (env : Collaborators) (auth : AuthDto)
      (dto : SmartSearchDto) :
  runs (searchSmart env auth dto) (fun _ => True) (searchOf auth dto).
Proof.
  unfold searchSmart.
  apply runs_bind with (Q1 := fun _ => True).
  { destruct (visibility dto); [|apply runs_ret; exact I].
    unfold requireElevatedPermission.
    destruct (hasElevatedPermission auth); [apply runs_ret; exact I|apply runs_throw]. }
  intros _ _. apply runs_bind with (Q1 := fun _ => True);
    [apply runs_call; exact I|].
  intros ml _. destruct (smartSearchEnabled ml); cbn [negb]; [|apply runs_throw].
  apply runs_bind
    with (Q1 := fun r => forall ids, r = Replied ids ->
                                     exists partners, ids = userId auth :: partners).
  { unfold getUserIdsToSearch.
    apply runs_bind with (Q1 := fun _ => True); [apply runs_start; exact I|].
    intros [code|partners] _; apply runs_ret; intros ids E; inversion E.
    exists partners. reflexivity. }
  intros userIds Hids. apply runs_bind with (Q1 := fun _ => True).
  { unfold cachedEmbedding. cbv zeta.
    apply runs_bind with (Q1 := fun _ => True); [apply runs_cacheGet|].
    assert (Hencode :
      forall key,
        runs (bind (call (EncodeText (urls ml) (query dto) (clipModelName ml)
                                     (language dto))
                         (fun h => encodeText env h (urls ml) (query dto)
                                              (clipModelName ml) (language dto)))
                   (fun e => bind (cacheSet key e) (fun _ => ret e)))
             (fun _ => True) (searchOf auth dto)).
    { intros key. apply runs_bind with (Q1 := fun _ => True);
        [apply runs_call; exact I|].
      intros e _. apply runs_bind with (Q1 := fun _ => True);
        [apply runs_cacheSet|]. intros _ _. apply runs_ret. exact I. }
    intros [e|] _; [destruct (truthyString e); [apply runs_ret; exact I|]|];
      apply Hencode. }
  intros emb _. cbv zeta.
  apply runs_bind with (Q1 := fun a => userIds = Replied a); [apply runs_await|].
  intros awaited Hawaited. destruct (Hids _ Hawaited) as (partners & ->).
  assert (Hsearch : forall (promise : bool) (q : option embedding),
            searchOf auth dto
              (SearchSmart (pageOf dto) (sizeOf dto)
                           (if promise then UserIdsPromise userIds
                            else UserIds (userId auth :: partners)) q)).
  { intros promise q. cbn [searchOf]. repeat split. exists partners.
    destruct promise; [right; rewrite Hawaited|left]; reflexivity. }
  apply runs_bind with (Q1 := fun _ => True);
    [apply runs_call, (Hsearch false)|].
  intros _ _. apply runs_bind with (Q1 := fun _ => True).
  { unfold searchEmbeddings, truthyArray. rewrite andb_false_r.
    apply runs_bind with (Q1 := fun _ => True); [apply runs_call; exact I|].
    intros vs _. destruct (truthyString (searchText (parseQuery (query dto))));
      [|apply runs_ret; exact I].
    apply runs_bind with (Q1 := fun _ => True); [apply runs_call; exact I|].
    intros e _. apply runs_ret. exact I. }
  intros embs _. apply runs_bind with (Q1 := fun _ => True);
    [apply runs_record; exact I|].
  intros _ _. apply runs_bind with (Q1 := fun _ => True).
  { destruct (1 <? length embs); [|apply runs_call, (Hsearch true)].
    apply runs_bind with (Q1 := fun _ => True); [apply runs_call; exact I|].
    intros avg _. apply runs_call, (Hsearch true). }
  intros [items hasNextPage] _. apply runs_ret. exact I.
Qed.

Lemma Occurrences_text (s : jsString) (occs : list occurrence)
      (lastGap : jsString) :
  Occurrences s occs lastGap ->
  s = concat (map (fun o => gapBefore o ++ keyword o ++ token o) occs) ++ lastGap.
Proof.
  induction 1 as [s Hnone|gap kw tok rest occs lastGap _ _ _ _ _ _ IH];
    [reflexivity|].
  cbn [map concat gapBefore keyword token]. rewrite <- !app_assoc, <- IH.
  reflexivity.
Qed.

(* ------------------------------------------------------------------ *)
(** ** The properties of the specification *)

(** C1 (the code departs from it).  A query whose parse has an empty
    [searchText] and an empty [similarToAssetIds] is not rejected: the guard
    tests the truthiness of the array, and an array is truthy.  On the query
    [,] the encoder is asked for the embedding of the whole query, the index
    is searched, the storage is asked for the embeddings of no asset, the
    index is searched again without a query vector, and the request is
    answered. *)
Theorem empty_query_is_answered :
  parseQuery (query (sampleDto ",")) = mkQuery [] [] /\
  fst (searchSmart sampleEnv sampleAuth (sampleDto ",") initialWorld)
  = Returned (mkResponse 0 0 [] 2 2 [1%N; 2%N] None) /\
  trace (snd (searchSmart sampleEnv sampleAuth (sampleDto ",") initialWorld))
  = [ GetConfig;
      GetPartnerIds (str "user-1");
      EncodeText [str "http://ml:3003"] (str ",") (str "ViT-B-32__openai")
                 (str "en");
      SearchSmart 1 100 (UserIds [str "user-1"; str "partner-1"])
                  (Some (str "E(,)"));
      GetAssetEmbeddings [];
      Log (mkQuery [] []) 0;
      SearchSmart 1 100
                  (UserIdsPromise (Replied [str "user-1"; str "partner-1"]))
                  None ].
Proof. vm_compute. repeat split; reflexivity. Qed.

(** C2 (the code departs from it).  The storage is asked for the embeddings
    of the references also when there is none: for the query
    [sunset beach], which has no reference, [getAssetEmbeddings] is called
    with the empty array. *)
Theorem storage_asked_without_references :
  similarToAssetIds (parseQuery (query (sampleDto "sunset beach"))) = [] /\
  trace (snd (searchSmart sampleEnv sampleAuth (sampleDto "sunset beach")
                          initialWorld))
  = [ GetConfig;
      GetPartnerIds (str "user-1");
      EncodeText [str "http://ml:3003"] (str "sunset beach")
                 (str "ViT-B-32__openai") (str "en");
      SearchSmart 1 100 (UserIds [str "user-1"; str "partner-1"])
                  (Some (str "E(sunset beach)"));
      GetAssetEmbeddings [];
      EncodeText [str "http://ml:3003"] (str "sunset beach")
                 (str "ViT-B-32__openai") (str "en");
      Log (mkQuery [] (str "sunset beach")) 1;
      SearchSmart 1 100
                  (UserIdsPromise (Replied [str "user-1"; str "partner-1"]))
                  (Some (str "E(sunset beach)")) ].
Proof. vm_compute. split; reflexivity. Qed.

(** The embedding of the whole query is resolved from the cache or from the
    encoder, under the key made of the model name, the query and the
    language: a resolution that answers a non-empty embedding has called the
    encoder at most once and has it stored under that key, and a following
    resolution under the same key answers the stored embedding and calls
    nobody. *)
Lemma query_embedding_cached
      (env env' : Collaborators) (ml ml' : MachineLearningConfig)
      (dto dto' : SmartSearchDto) (w1 w2 : world) (e : embedding) :
  cachedEmbedding env ml dto w1 = (Returned e, w2) ->
  truthyString e = true ->
  cacheKey (clipModelName ml') (query dto') (language dto')
  = cacheKey (clipModelName ml) (query dto) (language dto) ->
  encoderCalls (trace w2) <= encoderCalls (trace w1) + 1 /\
  LRUMap.lookup (cacheKey (clipModelName ml) (query dto) (language dto))
                (LRUMap.items (embeddingCache w2)) = Some e /\
  exists w3, cachedEmbedding env' ml' dto' w2 = (Returned e, w3) /\
             trace w3 = trace w2.
Proof.
  intros Hrun Ht Hkey.
  destruct (cachedEmbedding_stores env ml dto w1 w2 e Hrun) as [Hstored Hcalls].
  repeat split; [exact Hcalls|exact Hstored|].
  rewrite <- Hkey in Hstored.
  destruct (cachedEmbedding_hit env' ml' dto' w2 e Hstored Ht)
    as (w3 & Hrun' & Htrace & _).
  exists w3. split; assumption.
Qed.

(** C3 (the code departs from it).  The embedding of a non-empty
    [searchText] is not resolved through the cache: only the embedding of the
    whole query is, some lines before, and the text of the parsed query is
    encoded again on every request.  Two requests in a row for the query
    [sunset], whose [searchText] is [sunset], call the text encoder three
    times: for the whole query on the miss, and for [searchText] in each
    request. *)
Theorem text_encoder_called_again :
  searchText (parseQuery (query (sampleDto "sunset"))) = str "sunset" /\
  filter isEncodeText
    (trace (snd (searchSmart sampleEnv sampleAuth (sampleDto "sunset")
                   (snd (searchSmart sampleEnv sampleAuth (sampleDto "sunset")
                                     initialWorld)))))
  = [ EncodeText [str "http://ml:3003"] (str "sunset")
                 (str "ViT-B-32__openai") (str "en");
      EncodeText [str "http://ml:3003"] (str "sunset")
                 (str "ViT-B-32__openai") (str "en");
      EncodeText [str "http://ml:3003"] (str "sunset")
                 (str "ViT-B-32__openai") (str "en") ] /\
  encoderCalls
    (trace (snd (searchSmart sampleEnv sampleAuth (sampleDto "sunset")
                   (snd (searchSmart sampleEnv sampleAuth (sampleDto "sunset")
                                     initialWorld))))) = 3.
Proof. vm_compute. repeat split; reflexivity. Qed.

(** C4, as it is stated, fails: the key is the plain concatenation of its
    three parts, so two triples with the same query text, different models
    and different languages can have the same key. *)
Lemma cacheKey_collision :
  str "clip" <> str "clipa" /\ str "ab" <> str "b" /\
  cacheKey (str "clip") (str "a") (str "ab")
  = cacheKey (str "clipa") (str "a") (str "b").
Proof. repeat split; vm_compute; discriminate. Qed.

(** C4, amended.  Two triples with the same query text that differ in the
    model or in the language have distinct keys when the two model names
    have the same length or the two language tags have the same length; in
    particular when only one of the two parts differs. *)
Theorem cacheKey_distinct (m1 m2 q l1 l2 : jsString) :
  length m1 = length m2 \/ length l1 = length l2 ->
  m1 <> m2 \/ l1 <> l2 ->
  cacheKey m1 q l1 <> cacheKey m2 q l2.
Proof.
  unfold cacheKey. intros Hlen Hdiff E.
  assert (Hm : length m1 = length m2).
  { destruct Hlen as [H|H]; [exact H|].
    apply (f_equal (@length N)) in E. rewrite !length_app in E. lia. }
  destruct (app_eq_length _ _ _ _ _ E Hm) as [E1 E2].
  apply app_inv_head in E2. destruct Hdiff; contradiction.
Qed.

Lemma cacheKey_distinct_witness :
  cacheKey (str "clip") (str "sunset") (str "en")
  <> cacheKey (str "clip") (str "sunset") (str "fr").
Proof.
  apply (cacheKey_distinct (str "clip") (str "clip") (str "sunset")
                           (str "en") (str "fr")).
  - left. reflexivity.
  - right. vm_compute. discriminate.
Defined.

(** C5 (the code departs from it).  The index is searched twice for one
    request: once with the cached embedding of the whole query and the
    awaited user ids, and once more with the embedding of the parsed query
    and the promise of the user ids.  Page and size are 1 and 100 when they
    are absent. *)
Theorem index_searched_twice :
  indexCalls (trace (snd (searchSmart sampleEnv sampleAuth (sampleDto "sunset")
                                      initialWorld))) = 2 /\
  filter isSearchSmart
         (trace (snd (searchSmart sampleEnv sampleAuth (sampleDto "sunset")
                                  initialWorld)))
  = [ SearchSmart 1 100 (UserIds [str "user-1"; str "partner-1"])
                  (Some (str "E(sunset)"));
      SearchSmart 1 100
                  (UserIdsPromise (Replied [str "user-1"; str "partner-1"]))
                  (Some (str "E(sunset)")) ].
Proof. vm_compute. split; reflexivity. Qed.

(** C6, as it is stated, fails: of a text that ends in two commas both are
    removed; stripping a single trailing comma would keep the first. *)
Lemma two_trailing_commas_removed :
  searchText (parseQuery (str "a,,")) = str "a" /\
  postProcessOneComma (str "a,,") = str "a," /\
  postProcess (str "a,,") <> postProcessOneComma (str "a,,").
Proof. vm_compute. repeat split. discriminate. Qed.

(** C6, amended.  The post-processing of the text that remains strips a
    trailing comma with the whitespace after it, then a comma that now ends
    the text with the whitespace before it, then turns every run of two or
    more whitespace characters into one space, then trims; a text that ends
    in two commas loses both. *)
Theorem postProcess_strips_twice (raw a : jsString) :
  (exists occs lastGap,
     Occurrences raw occs lastGap /\
     searchText (parseQuery raw)
     = postProcessTwoCommas (remainingText occs lastGap)) /\
  postProcess raw = postProcessTwoCommas raw /\
  postProcess (a ++ [COMMA; COMMA]) = trim (collapseSpaces (trimEnd a)).
Proof.
  split; [|split].
  - destruct (parseQuery_occurrences raw) as (occs & lastGap & Hocc & Hparse).
    exists occs, lastGap. split; [exact Hocc|].
    rewrite Hparse. cbn [searchText]. apply postProcess_eq.
  - apply postProcess_eq.
  - rewrite postProcess_eq. unfold postProcessTwoCommas.
    replace (a ++ [COMMA; COMMA]) with ((a ++ [COMMA]) ++ COMMA :: [])
      by (rewrite <- app_assoc; reflexivity).
    rewrite stripCommaThenSpaces_hit by reflexivity.
    unfold stripSpacesThenComma. rewrite rev_app_distr. cbn [rev app].
    rewrite N.eqb_refl, rev_involutive. reflexivity.
Qed.

(** C7.  The references of a query are the tokens of the occurrences of
    [similarTo:<token>] found left to right without overlap, in any case of
    the keyword, each token a maximal run of non-whitespace, in their order
    and with their repetitions; the text that is post-processed into
    [searchText] is the query with every such occurrence taken out. *)
Theorem references_extracted (raw : jsString) :
  exists occs lastGap,
    Occurrences raw occs lastGap /\
    (forall occs' lastGap',
        Occurrences raw occs' lastGap' -> occs' = occs /\ lastGap' = lastGap) /\
    raw = concat (map (fun o => gapBefore o ++ keyword o ++ token o) occs)
          ++ lastGap /\
    similarToAssetIds (parseQuery raw) = map token occs /\
    searchText (parseQuery raw) = postProcess (remainingText occs lastGap).
Proof.
  destruct (parseQuery_occurrences raw) as (occs & lastGap & Hocc & Hparse).
  exists occs, lastGap. rewrite Hparse.
  split; [exact Hocc|]. split; [|split; [apply Occurrences_text, Hocc|]].
  - intros occs' lastGap' Hocc'.
    apply (Occurrences_unique _ _ _ Hocc' _ _ Hocc).
  - split; reflexivity.
Qed.

(** C8.  A request for the locked visibility by a user without the elevated
    grant fails with [InsufficientPermission], and the service has then
    called no collaborator and has left its cache as it was. *)
Theorem locked_needs_elevated_permission
        (env : Collaborators) (auth : AuthDto) (dto : SmartSearchDto)
        (w : world) :
  visibility dto = LOCKED ->
  hasElevatedPermission auth = false ->
  searchSmart env auth dto w = (Threw InsufficientPermission, w).
Proof.
  intros Hv Hp. unfold searchSmart, bind at 1, requireElevatedPermission.
  rewrite Hv, Hp. reflexivity.
Qed.

Lemma locked_needs_elevated_permission_witness :
  searchSmart sampleEnv sampleAuth
              (mkDto (str "sunset") (str "en") LOCKED None None) initialWorld
  = (Threw InsufficientPermission, initialWorld).
Proof.
  apply (locked_needs_elevated_permission sampleEnv sampleAuth
           (mkDto (str "sunset") (str "en") LOCKED None None) initialWorld);
    reflexivity.
Defined.

(** C9.  A text without any reference, without two whitespace characters in
    a row, without whitespace at its ends and without a trailing comma is
    parsed into itself, with no reference. *)
Theorem clean_text_unchanged (s : jsString) :
  cleanText s = true -> parseQuery s = mkQuery [] s.
Proof.
  unfold cleanText. intros H.
  apply andb_prop in H as [H Hc]. apply andb_prop in H as [H Ho].
  apply andb_prop in H as [Hr Hd].
  destruct (parseQuery_occurrences s) as (occs & lastGap & Hocc & Hparse).
  destruct (Occurrences_unique _ _ _ (Occ_none s (noReference_skipn s Hr))
                               _ _ Hocc) as [<- <-].
  rewrite Hparse. unfold remainingText. cbn [map concat app].
  rewrite postProcess_clean by assumption. reflexivity.
Qed.

Lemma clean_text_unchanged_witness :
  cleanText (str "sunset beach") = true /\
  parseQuery (str "sunset beach") = mkQuery [] (str "sunset beach").
Proof.
  split; [reflexivity|].
  apply (clean_text_unchanged (str "sunset beach")). reflexivity.
Defined.

(** C10, as it is stated, fails: in [similarTo:similarTo:] the second
    keyword is followed by nothing, yet it is the token of the first one: it
    is the extracted reference and it is not left in [searchText]. *)
Lemma dangling_keyword_extracted :
  danglingAt (str "similarTo:similarTo:") 10 = true /\
  similarToAssetIds (parseQuery (str "similarTo:similarTo:"))
  = [str "similarTo:"] /\
  ~ Infix (firstn 10 (skipn 10 (str "similarTo:similarTo:")))
          (searchText (parseQuery (str "similarTo:similarTo:"))).
Proof.
  repeat split; try (vm_compute; reflexivity).
  intros (a & b & E). vm_compute in E. destruct a; discriminate.
Qed.

(** C10, amended.  A keyword [similarTo:] that no non-whitespace character
    follows starts no reference, and when it does not lie inside an
    extracted reference (inside its token) it is still written in
    [searchText]. *)
Theorem dangling_keyword_survives (raw : jsString) (k : nat) :
  danglingAt raw k = true ->
  exists occs lastGap,
    Occurrences raw occs lastGap /\
    similarToAssetIds (parseQuery raw) = map token occs /\
    (forall a b, In (a, b) (spans 0 occs) -> a <> k) /\
    ((forall a b, In (a, b) (spans 0 occs) -> ~ (a < k < b)) ->
     Infix (firstn 10 (skipn k raw)) (searchText (parseQuery raw))).
Proof.
  intros Hd.
  destruct (parseQuery_occurrences raw) as (occs & lastGap & Hocc & Hparse).
  exists occs, lastGap. rewrite Hparse. cbn [similarToAssetIds searchText].
  assert (Hstart : forall a b, In (a, b) (spans 0 occs) -> a <> k).
  { intros a b Hin ->.
    destruct (spans_start _ _ _ Hocc 0 k b Hin) as [_ Href].
    rewrite Nat.sub_0_r, (danglingAt_not_reference _ _ Hd) in Href.
    discriminate. }
  repeat split; [exact Hocc|exact Hstart|].
  intros Hout. apply postProcess_Infix.
  - apply isKeyword_plain, danglingAt_keyword, Hd.
  - intros E. pose proof (danglingAt_keyword _ _ Hd) as Hk.
    rewrite E in Hk. discriminate.
  - apply (dangling_remains _ _ _ Hocc 0 k Hd).
    intros a b Hin Hab. cbn [Nat.add] in Hab.
    destruct (Nat.eq_dec a k) as [->|Hne].
    + apply (Hstart k b Hin). reflexivity.
    + apply (Hout a b Hin). lia.
Qed.

Lemma dangling_keyword_survives_witness :
  danglingAt (str "cat similarTo: dog similarTo:x") 4 = true /\
  exists occs lastGap,
    Occurrences (str "cat similarTo: dog similarTo:x") occs lastGap /\
    similarToAssetIds (parseQuery (str "cat similarTo: dog similarTo:x"))
    = map token occs /\
    (forall a b, In (a, b) (spans 0 occs) -> a <> 4) /\
    ((forall a b, In (a, b) (spans 0 occs) -> ~ (a < 4 < b)) ->
     Infix (firstn 10 (skipn 4 (str "cat similarTo: dog similarTo:x")))
           (searchText (parseQuery (str "cat similarTo: dog similarTo:x")))).
Proof.
  split; [reflexivity|].
  apply (dangling_keyword_survives (str "cat similarTo: dog similarTo:x") 4).
  reflexivity.
Defined.
(* ------------------------------------------------------------------ *)
(** ** What the parsed query keeps of the query *)

Lemma Infix_trans (w t s : jsString) : Infix w t -> Infix t s -> Infix w s.
Proof.
  intros (a & b & ->) (x & y & ->). exists (x ++ a), (b ++ y).
  rewrite <- !app_assoc. reflexivity.
Qed.

Lemma Infix_nil (s : jsString) : Infix [] s.
Proof. exists [], s. reflexivity. Qed.

Lemma Infix_length (w s : jsString) : Infix w s -> length w <= length s.
Proof. intros (a & b & ->). rewrite !length_app. lia. Qed.

(** A text written in [a ++ c :: b] that does not contain [c] is written
    in [a] or in [b]. *)
Lemma Infix_split_at (w a b : jsString) (c : N) :
  ~ In c w -> Infix w (a ++ c :: b) -> Infix w a \/ Infix w b.
Proof.
  intros Hc (x & y & E).
  apply app_eq_app in E as (l & [[E1 E2]|[E1 E2]]).
  - symmetry in E2. apply app_eq_app in E2 as (l' & [[E3 E4]|[E3 E4]]).
    + left. subst a. exists x, l'. rewrite E3. reflexivity.
    + destruct l' as [|c' l'].
      * left. rewrite app_nil_r in E3. subst. exists x, []. 
        rewrite app_nil_r. reflexivity.
      * injection E4 as -> _. exfalso. apply Hc. rewrite E3.
        apply in_or_app. right. left. reflexivity.
  - destruct l as [|c' l].
    + destruct w as [|c' w]; [left; apply Infix_nil|].
      injection E2 as -> _. exfalso. apply Hc. left. reflexivity.
    + injection E2 as _ ->. right. exists l, y. reflexivity.
Qed.

Lemma nonSpace_not_In (w : jsString) (c : N) :
  forallb nonSpace w = true -> is_space c = true -> ~ In c w.
Proof.
  intros Hw Hc Hin. rewrite forallb_forall in Hw. specialize (Hw c Hin).
  unfold nonSpace in Hw. rewrite Hc in Hw. discriminate.
Qed.

(** Collapsing whitespace leaves the whitespace-free texts as they are. *)
Lemma collapseFrom_prefix_inv (w : jsString) :
  forallb nonSpace w = true ->
  forall s y, collapseFrom false s = w ++ y -> exists y', s = w ++ y'.
Proof.
  induction w as [|c w IH]; intros Hw s y E; [exists s; reflexivity|].
  simpl in Hw. apply andb_prop in Hw as [Hc Hw].
  unfold nonSpace in Hc. apply negb_true_iff in Hc.
  destruct s as [|c0 s]; [discriminate|].
  cbn [collapseFrom] in E. destruct (is_space c0) eqn:E0.
  - exfalso. destruct s as [|c1 s].
    + injection E as -> _. congruence.
    + destruct (is_space c1).
      * injection E as <- _. vm_compute in Hc. discriminate.
      * injection E as -> _. congruence.
  - injection E as -> E. destruct (IH Hw _ _ E) as (y' & ->).
    exists y'. reflexivity.
Qed.

Lemma collapseFrom_Infix_inv (w : jsString) :
  forallb nonSpace w = true ->
  forall s inRun, Infix w (collapseFrom inRun s) -> Infix w s.
Proof.
  intros Hw. induction s as [|c s IH]; intros inRun H; [exact H|].
  cbn [collapseFrom] in H. destruct (is_space c) eqn:Ec.
  - destruct inRun; [apply Infix_cons, (IH _ H)|].
    assert (Hcons : forall (sp : N) (x : jsString) (f : bool),
               is_space sp = true -> Infix w (sp :: collapseFrom f s) ->
               Infix w (c :: s)).
    { intros sp x f Hsp Hi.
      apply (Infix_split_at w [] _ sp) in Hi;
        [|apply nonSpace_not_In; assumption].
      destruct Hi as [Hi|Hi].
      - destruct Hi as (a & b & E). destruct a; [|discriminate].
        destruct w; [apply Infix_nil|discriminate].
      - apply Infix_cons, (IH _ Hi). }
    destruct s as [|c1 s1].
    + apply (Infix_split_at w [] [] c) in H;
        [|apply nonSpace_not_In; assumption].
      assert (Hn : Infix w []) by (destruct H; assumption).
      destruct Hn as (a & b & E). destruct a; [|discriminate].
      destruct w; [apply Infix_nil|discriminate].
    + destruct (is_space c1).
      * apply (Hcons SPACE [] true); [reflexivity|exact H].
      * apply (Hcons c [] false); [exact Ec|exact H].
  - destruct H as (x & y & E). destruct x as [|c0 x].
    + destruct w as [|c0 w]; [apply Infix_nil|].
      injection E as <- E. simpl in Hw. apply andb_prop in Hw as [_ Hw].
      destruct (collapseFrom_prefix_inv w Hw _ _ E) as (y' & ->).
      exists [], y'. reflexivity.
    + injection E as <- E. apply Infix_cons. apply (IH false).
      exists x, y. exact E.
Qed.

Lemma Infix_trimStart (s : jsString) : Infix (trimStart s) s.
Proof.
  destruct (trimStart_split s) as (w & E & _). exists w, [].
  rewrite app_nil_r. exact E.
Qed.

Lemma Infix_trimEnd (s : jsString) : Infix (trimEnd s) s.
Proof.
  destruct (trimEnd_split s) as (w & E & _). exists [], w. exact E.
Qed.

Lemma Infix_trim (s : jsString) : Infix (trim s) s.
Proof.
  unfold trim. eapply Infix_trans; [apply Infix_trimEnd|apply Infix_trimStart].
Qed.

Lemma Infix_stripCommaThenSpaces (s : jsString) :
  Infix (stripCommaThenSpaces s) s.
Proof.
  destruct (stripCommaThenSpaces_cases s) as [->|(w & _ & E)].
  - exists [], []. rewrite app_nil_r. reflexivity.
  - exists [], (COMMA :: w). exact E.
Qed.

Lemma Infix_stripSpacesThenComma (s : jsString) :
  Infix (stripSpacesThenComma s) s.
Proof.
  destruct (stripSpacesThenComma_cases s) as [->|(w & _ & E)].
  - exists [], []. rewrite app_nil_r. reflexivity.
  - exists [], (w ++ [COMMA]). exact E.
Qed.

(** The post-processing writes no whitespace-free text of its own. *)
Lemma postProcess_Infix_inv (w s : jsString) :
  forallb nonSpace w = true -> Infix w (postProcess s) -> Infix w s.
Proof.
  intros Hw H. rewrite postProcess_eq in H. unfold postProcessTwoCommas in H.
  apply (fun H => Infix_trans _ _ _ H (Infix_trim _)) in H.
  apply (collapseFrom_Infix_inv w Hw) in H.
  eapply Infix_trans; [exact H|].
  eapply Infix_trans; [apply Infix_stripSpacesThenComma|].
  apply Infix_stripCommaThenSpaces.
Qed.

Lemma collapseFrom_length (s : jsString) (inRun : bool) :
  length (collapseFrom inRun s) <= length s.
Proof.
  revert inRun. induction s as [|c s IH]; intros inRun; [simpl; lia|].
  cbn [collapseFrom]. destruct (is_space c).
  - destruct inRun; [specialize (IH true); simpl; lia|].
    destruct s as [|c1 s1]; [simpl; lia|].
    destruct (is_space c1);
      [specialize (IH true)|specialize (IH false)]; simpl in *; lia.
  - specialize (IH false). simpl. lia.
Qed.

Lemma postProcess_length (s : jsString) : length (postProcess s) <= length s.
Proof.
  rewrite postProcess_eq. unfold postProcessTwoCommas.
  pose proof (Infix_length _ _ (Infix_trim
    (collapseSpaces (stripSpacesThenComma (stripCommaThenSpaces s))))).
  pose proof (collapseFrom_length
    (stripSpacesThenComma (stripCommaThenSpaces s)) false).
  pose proof (Infix_length _ _
    (Infix_stripSpacesThenComma (stripCommaThenSpaces s))).
  pose proof (Infix_length _ _ (Infix_stripCommaThenSpaces s)).
  unfold collapseSpaces in *. lia.
Qed.

(** After collapsing, no two whitespace characters follow each other. *)
Lemma collapseFrom_true_head (s : jsString) :
  match collapseFrom true s with
  | [] => True
  | c :: _ => is_space c = false
  end.
Proof.
  induction s as [|c s IH]; [exact I|].
  cbn [collapseFrom]. destruct (is_space c) eqn:E; [exact IH|exact E].
Qed.

Lemma noDoubleSpace_cons (c : N) (s : jsString) :
  match s with [] => True | c' :: _ => is_space c && is_space c' = false end ->
  noDoubleSpace s = true -> noDoubleSpace (c :: s) = true.
Proof.
  intros Hh Hs. cbn [noDoubleSpace]. rewrite Hs, andb_true_r.
  destruct s as [|c' s]; [reflexivity|]. rewrite Hh. reflexivity.
Qed.

Lemma collapseFrom_noDoubleSpace (s : jsString) (inRun : bool) :
  noDoubleSpace (collapseFrom inRun s) = true.
Proof.
  revert inRun. induction s as [|c s IH]; intros inRun; [reflexivity|].
  cbn [collapseFrom]. destruct (is_space c) eqn:Ec.
  - destruct inRun; [apply IH|].
    destruct s as [|c1 s1]; [reflexivity|].
    destruct (is_space c1) eqn:E1.
    + apply noDoubleSpace_cons; [|apply IH].
      pose proof (collapseFrom_true_head (c1 :: s1)) as Hh.
      destruct (collapseFrom true (c1 :: s1)); [exact I|].
      rewrite Hh. apply andb_false_r.
    + apply noDoubleSpace_cons; [|apply IH].
      cbn [collapseFrom]. rewrite E1. rewrite E1. apply andb_false_r.
  - apply noDoubleSpace_cons; [|apply IH].
    destruct (collapseFrom false s); [exact I|]. rewrite Ec. reflexivity.
Qed.

Lemma noDoubleSpace_app_r (a b : jsString) :
  noDoubleSpace (a ++ b) = true -> noDoubleSpace b = true.
Proof.
  induction a as [|c a IH]; intros H; [exact H|].
  cbn [app noDoubleSpace] in H. apply andb_prop in H as [_ H]. apply IH, H.
Qed.

Lemma noDoubleSpace_app_l (a b : jsString) :
  noDoubleSpace (a ++ b) = true -> noDoubleSpace a = true.
Proof.
  induction a as [|c a IH]; intros H; [reflexivity|].
  cbn [app noDoubleSpace] in H. apply andb_prop in H as [H0 H].
  apply noDoubleSpace_cons; [|apply IH, H].
  destruct a as [|c' a]; [exact I|]. cbn [app] in H0.
  apply negb_true_iff in H0. exact H0.
Qed.

Lemma trim_noDoubleSpace (s : jsString) :
  noDoubleSpace s = true -> noDoubleSpace (trim s) = true.
Proof.
  intros H. destruct (Infix_trim s) as (a & b & E). rewrite E in H.
  apply noDoubleSpace_app_r, noDoubleSpace_app_l in H. exact H.
Qed.

Lemma trim_noOuterSpace (s : jsString) : noOuterSpace (trim s) = true.
Proof.
  unfold trim, noOuterSpace, nonSpace.
  destruct (trimStart_split s) as (w0 & _ & _ & Hhead).
  destruct (trimEnd_split (trimStart s)) as (w & E & _ & Hlast).
  apply andb_true_intro. split.
  - destruct (trimEnd (trimStart s)) as [|c r]; [reflexivity|].
    rewrite E in Hhead. cbn [app] in Hhead. rewrite Hhead. reflexivity.
  - destruct (rev (trimEnd (trimStart s))) as [|c r]; [reflexivity|].
    rewrite Hlast. reflexivity.
Qed.

Lemma postProcess_normalized (s : jsString) :
  noOuterSpace (postProcess s) = true /\ noDoubleSpace (postProcess s) = true.
Proof.
  rewrite postProcess_eq. unfold postProcessTwoCommas. split.
  - apply trim_noOuterSpace.
  - apply trim_noDoubleSpace. apply collapseFrom_noDoubleSpace.
Qed.

(** The text that is left starts as the query does. *)
Lemma remainingText_head (s : jsString) (occs : list occurrence)
      (lastGap : jsString) :
  Occurrences s occs lastGap -> tokenEnds s ->
  tokenEnds (remainingText occs lastGap).
Proof.
  intros H. destruct H as [s Hnone|gap kw tok rest occs lastGap _ Hkw _ _ _ _];
    intros Hs; [exact Hs|].
  unfold remainingText. cbn [map concat gapBefore].
  destruct gap as [|c gap]; [|exact Hs].
  exfalso. pose proof (isKeyword_nonSpace _ Hkw) as Hns.
  pose proof (isKeyword_length _ Hkw) as Hl.
  destruct kw as [|c kw]; [discriminate|].
  cbn [app tokenEnds] in Hs. simpl in Hns. apply andb_prop in Hns as [Hc _].
  unfold nonSpace in Hc. rewrite Hs in Hc. discriminate.
Qed.

Lemma Infix_gap (w gap r : jsString) :
  forallb nonSpace w = true -> tokenEnds r ->
  Infix w (gap ++ r) -> Infix w gap \/ Infix w r.
Proof.
  intros Hw Hr H. destruct r as [|c r].
  - rewrite app_nil_r in H. left. exact H.
  - cbn [tokenEnds] in Hr.
    apply Infix_split_at in H; [|apply nonSpace_not_In; assumption].
    destruct H as [H|H]; [left; exact H|right; apply Infix_cons, H].
Qed.

(** A whitespace-free text written in the remaining text is written in the
    query. *)
Lemma remainingText_Infix_inv (w s : jsString) (occs : list occurrence)
      (lastGap : jsString) :
  forallb nonSpace w = true ->
  Occurrences s occs lastGap ->
  Infix w (remainingText occs lastGap) -> Infix w s.
Proof.
  intros Hw H.
  induction H as [s Hnone|gap kw tok rest occs lastGap Hleft Hkw Htok Hns Hrest Hocc IH];
    intros Hi; [exact Hi|].
  unfold remainingText in Hi. cbn [map concat gapBefore] in Hi.
  rewrite <- app_assoc in Hi.
  apply Infix_gap in Hi;
    [|exact Hw|apply (remainingText_head rest); assumption].
  destruct Hi as [Hi|Hi].
  - apply Infix_app_r, Hi.
  - apply Infix_app_l, Infix_app_l, Infix_app_l, IH, Hi.
Qed.

Lemma refWindow_nonSpace (w : jsString) :
  refWindow w -> forallb nonSpace w = true.
Proof.
  intros (kw & c & -> & Hkw & Hc). rewrite forallb_app.
  rewrite (isKeyword_nonSpace _ Hkw). simpl. rewrite Hc. reflexivity.
Qed.

Lemma refAt_window (s : jsString) :
  refAt s = true -> exists w b, refWindow w /\ s = w ++ b.
Proof.
  intros H.
  destruct (refAt_split _ H) as (kw & tok & rest & -> & Hkw & Ht & Hns & _).
  destruct tok as [|c tok]; [contradiction|].
  simpl in Hns. apply andb_prop in Hns as [Hc _].
  exists (kw ++ [c]), (tok ++ rest). split.
  - exists kw, c. repeat split; assumption.
  - rewrite <- !app_assoc. reflexivity.
Qed.

Lemma window_refAt (w a b : jsString) :
  refWindow w -> refAt (skipn (length a) (a ++ w ++ b)) = true.
Proof.
  intros (kw & c & -> & Hkw & Hc).
  rewrite skipn_length_app. rewrite <- app_assoc.
  apply refAt_intro; [exact Hkw|discriminate|].
  simpl. rewrite Hc. reflexivity.
Qed.

(** No reference is written in the remaining text. *)
Lemma remainingText_no_window (w s : jsString) (occs : list occurrence)
      (lastGap : jsString) :
  refWindow w ->
  Occurrences s occs lastGap ->
  ~ Infix w (remainingText occs lastGap).
Proof.
  intros Hw H.
  induction H as [s Hnone|gap kw tok rest occs lastGap Hleft Hkw Htok Hns Hrest Hocc IH];
    intros Hi.
  - unfold remainingText in Hi. cbn [map concat app] in Hi.
    destruct Hi as (a & b & E).
    pose proof (window_refAt w a b Hw) as Hr. rewrite <- E in Hr.
    rewrite Hnone in Hr. discriminate.
  - unfold remainingText in Hi. cbn [map concat gapBefore] in Hi.
    rewrite <- app_assoc in Hi.
    apply Infix_gap in Hi;
      [|apply refWindow_nonSpace, Hw|apply (remainingText_head rest); assumption].
    destruct Hi as [(a & b & E)|Hi]; [|exact (IH Hi)].
    pose proof (window_refAt w a (b ++ kw ++ tok ++ rest) Hw) as Hr.
    assert (Hlen : length a < length gap).
    { rewrite E, !length_app. destruct Hw as (kw' & c & -> & _).
      rewrite length_app. simpl. lia. }
    specialize (Hleft _ Hlen). rewrite E in Hleft.
    rewrite <- !app_assoc in Hleft. rewrite Hr in Hleft. discriminate.
Qed.

Lemma noReference_intro (s : jsString) :
  (forall k, refAt (skipn k s) = false) -> noReference s = true.
Proof.
  induction s as [|c s IH]; intros H.
  - pose proof (H 0) as H0. cbn [skipn] in H0.
    cbn [noReference]. rewrite H0. reflexivity.
  - pose proof (H 0) as H0. cbn [skipn] in H0.
    cbn [noReference]. rewrite H0. apply IH.
    intros k. apply (H (S k)).
Qed.

Lemma no_window_noReference (s : jsString) :
  (forall w, refWindow w -> ~ Infix w s) -> noReference s = true.
Proof.
  intros H. apply noReference_intro. intros k.
  destruct (refAt (skipn k s)) eqn:E; [|reflexivity].
  exfalso. destruct (refAt_window _ E) as (w & b & Hw & Eb).
  apply (H w Hw). exists (firstn k s), b.
  rewrite <- Eb. symmetry. apply firstn_skipn.
Qed.

(** A text without references has no reference to extract. *)
Lemma parseQuery_noReference (s : jsString) :
  noReference s = true -> similarToAssetIds (parseQuery s) = [].
Proof.
  intros H. destruct (parseQuery_occurrences s) as (occs & lastGap & Hocc & ->).
  cbn [similarToAssetIds].
  destruct Hocc as [s Hnone|gap kw tok rest occs lastGap _ Hkw Htok Hns _ _];
    [reflexivity|].
  exfalso. pose proof (noReference_skipn _ H (length gap)) as Hk.
  rewrite skipn_length_app in Hk.
  rewrite refAt_intro in Hk by assumption. discriminate.
Qed.

Lemma Occurrences_In (s : jsString) (occs : list occurrence)
      (lastGap : jsString) (o : occurrence) :
  Occurrences s occs lastGap -> In o occs ->
  isKeyword (keyword o) = true /\ token o <> [] /\
  forallb nonSpace (token o) = true /\
  exists a b, s = a ++ keyword o ++ token o ++ b /\ tokenEnds b.
Proof.
  intros H. induction H as [s Hnone|gap kw tok rest occs lastGap Hleft Hkw Htok Hns Hrest Hocc IH];
    intros Hin; [contradiction|].
  destruct Hin as [<-|Hin].
  - cbn [keyword token]. repeat split; try assumption.
    exists gap, rest. split; [reflexivity|exact Hrest].
  - destruct (IH Hin) as (H1 & H2 & H3 & a & b & E & Hb).
    repeat split; try assumption.
    exists (gap ++ kw ++ tok ++ a), b. split; [|exact Hb].
    rewrite E, <- !app_assoc. reflexivity.
Qed.

Lemma Occurrences_length (s : jsString) (occs : list occurrence)
      (lastGap : jsString) :
  Occurrences s occs lastGap ->
  length s = length (remainingText occs lastGap)
             + list_sum (map (fun id => 10 + length id) (map token occs)).
Proof.
  induction 1 as [s Hnone|gap kw tok rest occs lastGap _ Hkw _ _ _ _ IH].
  - unfold remainingText. simpl. lia.
  - unfold remainingText in *. cbn [map concat gapBefore token list_sum].
    rewrite !length_app, IH, (isKeyword_length _ Hkw).
    rewrite !length_app. unfold list_sum. cbn [fold_right]. lia.
Qed.

(* ------------------------------------------------------------------ *)
(** ** What [searchSmart] calls in every run *)

Lemma emits_ret (A : Type) (P : event -> Prop) (a : A) : emits (ret a) P.
Proof.
  intros w. exists []. rewrite app_nil_r. split; [reflexivity|constructor].
Qed.

Lemma emits_throw (A : Type) (P : event -> Prop) (e : exception) :
  emits (@throw A e) P.
Proof.
  intros w. exists []. rewrite app_nil_r. split; [reflexivity|constructor].
Qed.

Lemma emits_bind (A B : Type) (m : M A) (k : A -> M B) (P : event -> Prop) :
  emits m P -> (forall a, emits (k a) P) -> emits (bind m k) P.
Proof.
  intros Hm Hk w. unfold bind. destruct (Hm w) as (t1 & Ht1 & HP1).
  destruct (m w) as [[e|a] w1]; cbn [snd] in *.
  - exists t1. split; assumption.
  - destruct (Hk a w1) as (t2 & Ht2 & HP2). exists (t1 ++ t2).
    rewrite Ht2, Ht1, <- app_assoc. split; [reflexivity|].
    apply Forall_app. split; assumption.
Qed.

Lemma emits_start (A : Type) (P : event -> Prop) (ev : event)
      (answer : list event -> reply A) :
  P ev -> emits (start ev answer) P.
Proof.
  intros HP w. exists [ev]. split; [reflexivity|].
  constructor; [exact HP|constructor].
Qed.

Lemma emits_await (A : Type) (P : event -> Prop) (r : reply A) :
  emits (await r) P.
Proof. destruct r; [apply emits_throw|apply emits_ret]. Qed.

Lemma emits_call (A : Type) (P : event -> Prop) (ev : event)
      (answer : list event -> reply A) :
  P ev -> emits (call ev answer) P.
Proof.
  intros HP. apply emits_bind; [apply emits_start, HP|].
  intros r. apply emits_await.
Qed.


Lemma emits_cacheGet (P : event -> Prop) (key : jsString) :
  emits (cacheGet key) P.
Proof.
  intros w. unfold cacheGet. destruct (LRUMap.get key (embeddingCache w)).
  exists []. rewrite app_nil_r. split; [reflexivity|constructor].
Qed.

Lemma emits_cacheSet (P : event -> Prop) (key value : jsString) :
  emits (cacheSet key value) P.
Proof.
  intros w. exists []. rewrite app_nil_r. split; [reflexivity|constructor].
Qed.

Lemma cachedEmbedding_emits (env : Collaborators) (ml : MachineLearningConfig)
      (dto : SmartSearchDto) (P : event -> Prop) :
  (forall urls text model language, P (EncodeText urls text model language)) ->
  emits (cachedEmbedding env ml dto) P.
Proof.
  intros HP. unfold cachedEmbedding. cbv zeta.
  apply emits_bind; [apply emits_cacheGet|].
  assert (Hencode :
    forall key,
      emits (bind (call (EncodeText (urls ml) (query dto) (clipModelName ml)
                                    (language dto))
                        (fun h => encodeText env h (urls ml) (query dto)
                                             (clipModelName ml) (language dto)))
                  (fun e => bind (cacheSet key e) (fun _ => ret e))) P).
  { intros key. apply emits_bind; [apply emits_call, HP|].
    intros e. apply emits_bind; [apply emits_cacheSet|].
    intros _. apply emits_ret. }
  intros [e|]; [destruct (truthyString e); [apply emits_ret|]|]; apply Hencode.
Qed.


Lemma indexCalls_app_quiet (t1 t2 : list event) :
  Forall noIndexCall t2 -> indexCalls (t1 ++ t2) = indexCalls t1.
Proof.
  intros H. unfold indexCalls. rewrite filter_app, length_app.
  assert (E : filter isSearchSmart t2 = []).
  { induction H as [|ev t2 Hev _ IH]; [reflexivity|].
    cbn [filter]. unfold noIndexCall in Hev. rewrite Hev. exact IH. }
  rewrite E. simpl. lia.
Qed.

(* ------------------------------------------------------------------ *)
(** ** What [searchSmart] answers *)




(* ------------------------------------------------------------------ *)
(** ** Checksums: what is written is what is read *)

Lemma hexValue_hexDigit (upper : bool) (v : N) :
  (v < 16)%N -> Buffer.hexValue (hexDigit upper v) = Some v.
Proof.
  intros Hv. unfold hexDigit.
  destruct (N.ltb_spec v 10) as [H|H].
  - unfold Buffer.hexValue.
    replace (48 <=? 48 + v)%N with true by (symmetry; apply N.leb_le; lia).
    replace (48 + v <=? 57)%N with true by (symmetry; apply N.leb_le; lia).
    cbn [andb]. f_equal. lia.
  - destruct upper; unfold Buffer.hexValue.
    + replace (55 + v <=? 57)%N with false by (symmetry; apply N.leb_gt; lia).
      rewrite andb_false_r.
      replace (97 <=? 55 + v)%N with false by (symmetry; apply N.leb_gt; lia).
      cbn [andb].
      replace (65 <=? 55 + v)%N with true by (symmetry; apply N.leb_le; lia).
      replace (55 + v <=? 70)%N with true by (symmetry; apply N.leb_le; lia).
      cbn [andb]. f_equal. lia.
    + replace (87 + v <=? 57)%N with false by (symmetry; apply N.leb_gt; lia).
      rewrite andb_false_r.
      replace (97 <=? 87 + v)%N with true by (symmetry; apply N.leb_le; lia).
      replace (87 + v <=? 102)%N with true by (symmetry; apply N.leb_le; lia).
      cbn [andb]. f_equal. lia.
Qed.

Lemma byte_nibbles (b : N) :
  (b < 256)%N -> (b / 16 < 16)%N /\ (b mod 16 < 16)%N /\
                 (b / 16 * 16 + b mod 16 = b)%N.
Proof.
  intros Hb. repeat split.
  - apply N.Div0.div_lt_upper_bound. lia.
  - apply N.mod_lt. lia.
  - pose proof (N.div_mod b 16). lia.
Qed.

Lemma fromHex_hexOf (upper : bool) (bytes : list N) :
  forallb isByte bytes = true -> Buffer.fromHex (hexOf upper bytes) = bytes.
Proof.
  induction bytes as [|b bytes IH]; intros H; [reflexivity|].
  simpl in H. apply andb_prop in H as [Hb H].
  unfold isByte in Hb. apply N.ltb_lt in Hb.
  destruct (byte_nibbles b Hb) as (Hh & Hl & E).
  cbn [hexOf Buffer.fromHex].
  rewrite !hexValue_hexDigit by assumption.
  rewrite E, IH by exact H. reflexivity.
Qed.

Lemma hexOf_length (upper : bool) (bytes : list N) :
  length (hexOf upper bytes) = 2 * length bytes.
Proof.
  induction bytes as [|b bytes IH]; [reflexivity|].
  cbn [hexOf length]. rewrite IH. lia.
Qed.

Lemma base64Char_value (v : N) :
  (v < 64)%N ->
  (base64Char v =? 61)%N = false /\ Buffer.unbase64 (base64Char v) = Some v.
Proof.
  intros Hv.
  assert (Hall : forallb (fun v => negb (base64Char v =? 61)%N &&
                                   match Buffer.unbase64 (base64Char v) with
                                   | Some v' => (v' =? v)%N
                                   | None => false
                                   end)
                         (map N.of_nat (seq 0 64)) = true)
    by (vm_compute; reflexivity).
  rewrite forallb_forall in Hall. specialize (Hall v).
  assert (Hin : In v (map N.of_nat (seq 0 64))).
  { rewrite <- (N2Nat.id v). apply in_map. apply in_seq. lia. }
  specialize (Hall Hin). apply andb_prop in Hall as [H1 H2].
  apply negb_true_iff in H1. split; [exact H1|].
  destruct (Buffer.unbase64 (base64Char v)) as [v'|]; [|discriminate].
  apply N.eqb_eq in H2. subst. reflexivity.
Qed.

Lemma sextets_base64Char (v : N) (s : jsString) :
  (v < 64)%N ->
  Buffer.sextets (base64Char v :: s) = v :: Buffer.sextets s.
Proof.
  intros Hv. destruct (base64Char_value v Hv) as [H1 H2].
  cbn [Buffer.sextets]. rewrite H1, H2. reflexivity.
Qed.

Ltac euclid := zify; Z.to_euclidean_division_equations; lia.

Lemma fromBase64_base64Of_le (n : nat) :
  forall bytes, length bytes <= n -> forallb isByte bytes = true ->
                Buffer.fromBase64 (base64Of bytes) = bytes.
Proof.
  unfold Buffer.fromBase64.
  induction n as [|n IH]; intros bytes Hn H.
  - destruct bytes; [reflexivity|simpl in Hn; lia].
  - destruct bytes as [|a [|b [|c bytes]]]; [reflexivity| | |].
    + simpl in H. apply andb_prop in H as [Ha _].
      unfold isByte in Ha. apply N.ltb_lt in Ha.
      cbn [base64Of].
      rewrite !sextets_base64Char by euclid.
      cbn [Buffer.sextets N.eqb Pos.eqb Buffer.fromSextets].
      f_equal. euclid.
    + simpl in H. apply andb_prop in H as [Ha H]. apply andb_prop in H as [Hb _].
      unfold isByte in Ha, Hb. apply N.ltb_lt in Ha. apply N.ltb_lt in Hb.
      cbn [base64Of].
      rewrite !sextets_base64Char by euclid.
      cbn [Buffer.sextets N.eqb Pos.eqb Buffer.fromSextets].
      f_equal; [euclid|]. f_equal. euclid.
    + simpl in H. apply andb_prop in H as [Ha H]. apply andb_prop in H as [Hb H].
      apply andb_prop in H as [Hc H].
      unfold isByte in Ha, Hb, Hc.
      apply N.ltb_lt in Ha. apply N.ltb_lt in Hb. apply N.ltb_lt in Hc.
      cbn [base64Of].
      rewrite !sextets_base64Char by euclid.
      cbn [Buffer.fromSextets].
      rewrite IH by (simpl in Hn; try exact H; lia).
      f_equal; [euclid|]. f_equal; [euclid|]. f_equal. euclid.
Qed.

Lemma fromBase64_base64Of (bytes : list N) :
  forallb isByte bytes = true -> Buffer.fromBase64 (base64Of bytes) = bytes.
Proof. apply (fromBase64_base64Of_le (length bytes)). lia. Qed.

(** Three bytes are written as four characters, the last group padded. *)
Lemma base64Of_length_le (n : nat) :
  forall bytes, length bytes <= n ->
                length (base64Of bytes) = 4 * ((length bytes + 2) / 3).
Proof.
  induction n as [|n IH]; intros bytes Hn.
  - destruct bytes; [reflexivity|simpl in Hn; lia].
  - destruct bytes as [|a [|b [|c bytes]]]; [reflexivity|reflexivity|reflexivity|].
    cbn [base64Of length]. rewrite IH by (simpl in Hn; lia).
    replace (S (S (S (length bytes))) + 2) with ((length bytes + 2) + 1 * 3) by lia.
    rewrite Nat.div_add by lia. lia.
Qed.

Lemma base64Of_length (bytes : list N) :
  length (base64Of bytes) = 4 * ((length bytes + 2) / 3).
Proof. apply (base64Of_length_le (length bytes)). lia. Qed.

Lemma truthyString_nonempty (s : jsString) :
  s <> [] -> truthyString s = true.
Proof. destruct s; [contradiction|reflexivity]. Qed.

(* ------------------------------------------------------------------ *)
(** ** The other endpoints *)

Lemma sizeOr250_nonzero (size : option N) : Endpoints.sizeOr250 size <> 0%N.
Proof.
  unfold Endpoints.sizeOr250. destruct size as [n|]; [|discriminate].
  destruct (N.eqb_spec n 0); [discriminate|assumption].
Qed.


Lemma exploreItemsOf_none (env : Collaborators) (repos : Endpoints.Repositories)
      (auth : AuthDto) (assets : list MapAsset) :
  forallb (Endpoints.hasExifInfo repos) assets = false ->
  Endpoints.exploreItemsOf env repos auth assets = None.
Proof.
  induction assets as [|a assets IH]; intros H; [discriminate|].
  cbn [forallb] in H. cbn [Endpoints.exploreItemsOf].
  unfold Endpoints.hasExifInfo in H at 1.
  destruct (Endpoints.exifInfo repos a); [|reflexivity].
  cbn [andb] in H. rewrite (IH H). reflexivity.
Qed.

Lemma exploreItemsOf_some (env : Collaborators) (repos : Endpoints.Repositories)
      (auth : AuthDto) (assets : list MapAsset) :
  forallb (Endpoints.hasExifInfo repos) assets = true ->
  exists items,
    Endpoints.exploreItemsOf env repos auth assets = Some items /\
    map snd items = map (fun asset => mapAsset env asset auth) assets /\
    map (fun item => Some (fst item)) items
    = map (Endpoints.exifInfo repos) assets.
Proof.
  induction assets as [|a assets IH]; intros H.
  - exists []. repeat split.
  - cbn [forallb] in H. apply andb_prop in H as [Ha H].
    destruct (IH H) as (items & E & Hdata & Hcity).
    unfold Endpoints.hasExifInfo in Ha.
    cbn [Endpoints.exploreItemsOf]. rewrite E.
    destruct (Endpoints.exifInfo repos a) as [city|] eqn:Ex; [|discriminate].
    exists ((city, mapAsset env a auth) :: items).
    cbn [map fst snd]. rewrite Hdata, Hcity, Ex. repeat split.
Qed.

(** The calls of a request are within the requesting user and the
    partners. *)
Ltac scoped_run :=
  cbn [snd];
  first
    [ exists []; split; [symmetry; apply app_nil_r|left; reflexivity]
    | eexists [_]; split;
      [reflexivity
      |right; exists []; split; [reflexivity|];
       split; [simpl; lia|intros c []]]
    | eexists [_; _]; split;
      [rewrite <- app_assoc; reflexivity
      |right; eexists [_]; split; [reflexivity|];
       split; [simpl; lia|];
       intros c [<-|[]]; eexists; split; [eassumption|reflexivity]] ].

Lemma searchMetadata_scoped (env : Collaborators)
      (repos : Endpoints.Repositories) (auth : AuthDto)
      (dto : MetadataSearchDto.t) (t : list Endpoints.call) :
  exists made,
    snd (Endpoints.searchMetadata env repos auth dto t) = t ++ made /\
    Endpoints.scoped repos auth t made.
Proof.
  unfold Endpoints.searchMetadata, Endpoints.lockedGate,
    Endpoints.getUserIdsToSearch, Endpoints.bind, Endpoints.perform,
    Endpoints.ret, Endpoints.throw.
  destruct (MetadataSearchDto.visibility dto);
    [destruct (Endpoints.requireElevatedPermission repos auth);
     [scoped_run|]|];
    (destruct (Endpoints.getMyPartnerIds repos t (userId auth)) eqn:Ed;
     [scoped_run|];
     match goal with
     | |- context [Endpoints.searchMetadataIndex ?r ?h ?p ?s ?d ?c ?u ?o] =>
         destruct (Endpoints.searchMetadataIndex r h p s d c u o) as [|[? ?]]
     end; scoped_run).
Qed.

Lemma searchStatistics_scoped (repos : Endpoints.Repositories) (auth : AuthDto)
      (dto : jsString) (t : list Endpoints.call) :
  exists made,
    snd (Endpoints.searchStatistics repos auth dto t) = t ++ made /\
    Endpoints.scoped repos auth t made.
Proof.
  unfold Endpoints.searchStatistics, Endpoints.getUserIdsToSearch,
    Endpoints.bind, Endpoints.perform, Endpoints.ret.
  destruct (Endpoints.getMyPartnerIds repos t (userId auth)) eqn:Ed;
    [scoped_run|].
  match goal with
  | |- context [Endpoints.searchStatisticsIndex ?r ?h ?d ?u] =>
      destruct (Endpoints.searchStatisticsIndex r h d u)
  end; scoped_run.
Qed.

Lemma searchRandom_scoped (env : Collaborators)
      (repos : Endpoints.Repositories) (auth : AuthDto)
      (dto : RandomSearchDto.t) (t : list Endpoints.call) :
  exists made,
    snd (Endpoints.searchRandom env repos auth dto t) = t ++ made /\
    Endpoints.scoped repos auth t made.
Proof.
  unfold Endpoints.searchRandom, Endpoints.lockedGate,
    Endpoints.getUserIdsToSearch, Endpoints.bind, Endpoints.perform,
    Endpoints.ret, Endpoints.throw.
  destruct (RandomSearchDto.visibility dto);
    [destruct (Endpoints.requireElevatedPermission repos auth);
     [scoped_run|]|];
    (destruct (Endpoints.getMyPartnerIds repos t (userId auth)) eqn:Ed;
     [scoped_run|];
     match goal with
     | |- context [Endpoints.searchRandomIndex ?r ?h ?s ?d ?u] =>
         destruct (Endpoints.searchRandomIndex r h s d u)
     end; scoped_run).
Qed.

Lemma getAssetsByCity_scoped (repos : Endpoints.Repositories) (auth : AuthDto)
      (t : list Endpoints.call) :
  exists made,
    snd (Endpoints.getAssetsByCity repos auth t) = t ++ made /\
    Endpoints.scoped repos auth t made.
Proof.
  unfold Endpoints.getAssetsByCity, Endpoints.getUserIdsToSearch,
    Endpoints.bind, Endpoints.perform, Endpoints.ret.
  destruct (Endpoints.getMyPartnerIds repos t (userId auth)) eqn:Ed;
    [scoped_run|].
  match goal with
  | |- context [Endpoints.getAssetsByCityIndex ?r ?h ?u] =>
      destruct (Endpoints.getAssetsByCityIndex r h u)
  end; scoped_run.
Qed.

Lemma getSearchSuggestions_scoped (repos : Endpoints.Repositories)
      (auth : AuthDto) (dto : SearchSuggestionRequestDto.t)
      (t : list Endpoints.call) :
  exists made,
    snd (Endpoints.getSearchSuggestions repos auth dto t) = t ++ made /\
    Endpoints.scoped repos auth t made.
Proof.
  unfold Endpoints.getSearchSuggestions, Endpoints.getSuggestions,
    Endpoints.getUserIdsToSearch, Endpoints.bind, Endpoints.perform,
    Endpoints.ret.
  destruct (Endpoints.getMyPartnerIds repos t (userId auth)) eqn:Ed;
    [scoped_run|].
  destruct (SearchSuggestionRequestDto.type dto);
    try match goal with
        | |- context [match ?x with Failed _ => _ | Replied _ => _ end] =>
            destruct x
        end; scoped_run.
Qed.

(* ------------------------------------------------------------------ *)
(** ** Further properties of [parseQuery] *)

(** X1.  Every extracted id is a token of the query: it is not empty, has
    no whitespace, and is written in the query right after the keyword
    [similarTo:] (in any case), up to the end of the query or to the next
    whitespace character. *)
Theorem extracted_ids_are_tokens (q id : jsString) :
  In id (similarToAssetIds (parseQuery q)) ->
  id <> [] /\ forallb nonSpace id = true /\
  exists kw before after,
    isKeyword kw = true /\ q = before ++ kw ++ id ++ after /\ tokenEnds after.
Proof.
  intros Hin.
  destruct (parseQuery_occurrences q) as (occs & lastGap & Hocc & E).
  rewrite E in Hin. cbn [similarToAssetIds] in Hin.
  apply in_map_iff in Hin as (o & <- & Ho).
  destruct (Occurrences_In _ _ _ _ Hocc Ho) as (Hkw & Hne & Hns & a & b & Eq & Hb).
  repeat split; [exact Hne|exact Hns|].
  exists (keyword o), a, b. repeat split; assumption.
Qed.

Lemma extracted_ids_are_tokens_witness :
  In (str "abc") (similarToAssetIds (parseQuery (str "cats SimilarTo:abc dogs"))) /\
  str "abc" <> [] /\ forallb nonSpace (str "abc") = true /\
  exists kw before after,
    isKeyword kw = true /\
    str "cats SimilarTo:abc dogs" = before ++ kw ++ str "abc" ++ after /\
    tokenEnds after.
Proof.
  split; [vm_compute; left; reflexivity|].
  apply (extracted_ids_are_tokens (str "cats SimilarTo:abc dogs") (str "abc")).
  vm_compute. left. reflexivity.
Defined.

(** X2.  The returned [searchText] is normalized, whatever the query:
    it neither starts nor ends with whitespace, and no two whitespace
    characters follow each other in it. *)
Theorem searchText_is_normalized (q : jsString) :
  noOuterSpace (searchText (parseQuery q)) = true /\
  noDoubleSpace (searchText (parseQuery q)) = true.
Proof.
  destruct (parseQuery_occurrences q) as (occs & lastGap & _ & ->).
  cbn [searchText]. apply postProcess_normalized.
Qed.

(** X3.  No reference is left in the returned [searchText]: taking the
    references out and trimming the rest never builds a new
    [similarTo:<token>], so parsing [searchText] again extracts no id. *)
Theorem searchText_has_no_reference (q : jsString) :
  noReference (searchText (parseQuery q)) = true /\
  similarToAssetIds (parseQuery (searchText (parseQuery q))) = [].
Proof.
  assert (H : noReference (searchText (parseQuery q)) = true).
  { destruct (parseQuery_occurrences q) as (occs & lastGap & Hocc & ->).
    cbn [searchText]. apply no_window_noReference. intros w Hw Hi.
    apply (postProcess_Infix_inv w _ (refWindow_nonSpace w Hw)) in Hi.
    exact (remainingText_no_window w q occs lastGap Hw Hocc Hi). }
  split; [exact H|]. apply parseQuery_noReference, H.
Qed.

(** X4.  Parsing only removes: the length of [searchText], plus, for each
    extracted id, the length of the id and of the keyword before it, is at
    most the length of the query. *)
Theorem parsed_query_is_no_longer (q : jsString) :
  length (searchText (parseQuery q))
  + list_sum (map (fun id => 10 + length id)
                  (similarToAssetIds (parseQuery q)))
  <= length q.
Proof.
  destruct (parseQuery_occurrences q) as (occs & lastGap & Hocc & ->).
  cbn [searchText similarToAssetIds].
  rewrite (Occurrences_length _ _ _ Hocc).
  pose proof (postProcess_length (remainingText occs lastGap)). lia.
Qed.

(** X5.  [searchText] has no text of its own: every text without whitespace
    that is written in [searchText] is written in the query. *)
Theorem searchText_is_written_in_query (q w : jsString) :
  forallb nonSpace w = true ->
  Infix w (searchText (parseQuery q)) -> Infix w q.
Proof.
  intros Hw Hi.
  destruct (parseQuery_occurrences q) as (occs & lastGap & Hocc & E).
  rewrite E in Hi. cbn [searchText] in Hi.
  apply (postProcess_Infix_inv w _ Hw) in Hi.
  exact (remainingText_Infix_inv w q occs lastGap Hw Hocc Hi).
Qed.

Lemma searchText_is_written_in_query_witness :
  forallb nonSpace (str "dogs") = true /\
  Infix (str "dogs")
        (searchText (parseQuery (str "cats  similarTo:abc dogs ,"))) /\
  Infix (str "dogs") (str "cats  similarTo:abc dogs ,").
Proof.
  assert (Hi : Infix (str "dogs")
                 (searchText (parseQuery (str "cats  similarTo:abc dogs ,")))).
  { exists (str "cats "), []. vm_compute. reflexivity. }
  split; [reflexivity|]. split; [exact Hi|].
  apply (searchText_is_written_in_query (str "cats  similarTo:abc dogs ,")
                                        (str "dogs")); [reflexivity|exact Hi].
Defined.

(* ------------------------------------------------------------------ *)
(** ** Further properties of [searchSmart] *)

(** X6.  With smart search turned off in the configuration, a request that
    passes the gate of locked assets fails with [Smart search is not
    enabled] right after the configuration is read: the directory, the
    encoder, the storage and the index are not called and the cache is as it
    was. *)
Theorem smart_search_disabled (env : Collaborators) (auth : AuthDto)
      (dto : SmartSearchDto) (w : world) (ml : MachineLearningConfig) :
  (visibility dto = LOCKED -> hasElevatedPermission auth = true) ->
  getConfig env (trace w) = Replied ml ->
  smartSearchEnabled ml = false ->
  searchSmart env auth dto w
  = (Threw FeatureDisabled,
     mkWorld (embeddingCache w) (trace w ++ [GetConfig])).
Proof.
  intros Hgate Hcfg Hoff. unfold searchSmart.
  assert (Hg : (match visibility dto with
                | LOCKED => requireElevatedPermission auth
                | NOT_LOCKED => ret tt
                end) w = (Returned tt, w)).
  { destruct (visibility dto); [|reflexivity].
    unfold requireElevatedPermission. rewrite Hgate; reflexivity. }
  unfold bind at 1. rewrite Hg.
  unfold bind at 1. unfold call at 1. unfold bind at 1. unfold start at 1.
  rewrite Hcfg. cbn [await ret]. rewrite Hoff. reflexivity.
Qed.


Lemma smart_search_disabled_witness :
  searchSmart smartSearchOff sampleAuth (sampleDto "sunset") initialWorld
  = (Threw FeatureDisabled,
     mkWorld (embeddingCache initialWorld) (trace initialWorld ++ [GetConfig])).
Proof.
  apply (smart_search_disabled smartSearchOff sampleAuth (sampleDto "sunset")
           initialWorld
           (mkConfig false (clipModelName sampleConfig) (urls sampleConfig))).
  - intros H. discriminate H.
  - reflexivity.
  - reflexivity.
Defined.


(** X8.  When the partner directory fails, [searchSmart] fails, in every
    state, and the index has not been searched: the first search awaits the
    user ids. *)
Theorem directory_failure_stops_smart_search (env : Collaborators) (auth : AuthDto)
      (dto : SmartSearchDto) :
  (forall h, exists code, getMyPartnerIds env h (userId auth) = Failed code) ->
  forall w, exists e w',
    searchSmart env auth dto w = (Threw e, w') /\
    indexCalls (trace w') = indexCalls (trace w).
Proof.
  intros Hdown w. unfold searchSmart.
  unfold bind at 1.
  assert (Hgate : (match visibility dto with
                   | LOCKED => requireElevatedPermission auth
                   | NOT_LOCKED => ret tt
                   end) w = (Returned tt, w) \/
                  (match visibility dto with
                   | LOCKED => requireElevatedPermission auth
                   | NOT_LOCKED => ret tt
                   end) w = (Threw InsufficientPermission, w)).
  { destruct (visibility dto); [|left; reflexivity].
    unfold requireElevatedPermission.
    destruct (hasElevatedPermission auth); [left|right]; reflexivity. }
  destruct Hgate as [-> | ->]; [|exists InsufficientPermission, w; split; reflexivity].
  unfold bind at 1. unfold call at 1. unfold bind at 1. unfold start at 1.
  cbn [await].
  destruct (getConfig env (trace w)) as [code|ml].
  { cbn [await throw]. eexists _, _. split; [reflexivity|].
    cbn [trace]. apply indexCalls_app_quiet.
    constructor; [reflexivity|constructor]. }
  cbn [await ret].
  destruct (smartSearchEnabled ml); cbn [negb].
  2:{ eexists _, _. split; [reflexivity|]. cbn [trace].
      apply indexCalls_app_quiet. constructor; [reflexivity|constructor]. }
  unfold bind at 1. unfold getUserIdsToSearch. unfold bind at 1.
  unfold start at 1. cbn [trace embeddingCache ret].
  destruct (Hdown (trace w ++ [GetConfig])) as (code & ->).
  set (w1 := mkWorld (embeddingCache w)
                     ((trace w ++ [GetConfig]) ++ [GetPartnerIds (userId auth)])).
  unfold bind at 1.
  destruct (cachedEmbedding_emits env ml dto noIndexCall
              (fun _ _ _ _ => eq_refl) w1) as (t & Ht & Hq).
  assert (Hw1 : indexCalls (trace w1) = indexCalls (trace w)).
  { unfold w1. cbn [trace]. rewrite <- app_assoc.
    apply indexCalls_app_quiet.
    constructor; [reflexivity|constructor; [reflexivity|constructor]]. }
  destruct (cachedEmbedding env ml dto w1) as [[e|emb] w2]; cbn [snd] in Ht.
  - exists e, w2. split; [reflexivity|].
    rewrite Ht, indexCalls_app_quiet by exact Hq. exact Hw1.
  - cbv zeta. unfold bind at 1. cbn [await throw].
    exists (CollaboratorFailure code), w2. split; [reflexivity|].
    rewrite Ht, indexCalls_app_quiet by exact Hq. exact Hw1.
Qed.


Lemma directory_failure_stops_smart_search_witness :
  exists e w',
    searchSmart directoryDown sampleAuth (sampleDto "sunset") initialWorld
    = (Threw e, w') /\
    indexCalls (trace w') = indexCalls (trace initialWorld).
Proof.
  apply (directory_failure_stops_smart_search directoryDown sampleAuth
           (sampleDto "sunset")).
  intros h. exists 503%N. reflexivity.
Defined.




(* ------------------------------------------------------------------ *)
(** ** Properties of the other endpoints *)

(** X10.  A search for locked assets is refused first: when
    [requireElevatedPermission] throws, [searchMetadata] and [searchRandom]
    throw what it throws and no repository is called, the partner
    directory included. *)
Theorem locked_search_refused_first (env : Collaborators)
      (repos : Endpoints.Repositories) (auth : AuthDto) (e : exception)
      (metadata : MetadataSearchDto.t) (random : RandomSearchDto.t)
      (t : list Endpoints.call) :
  Endpoints.requireElevatedPermission repos auth = Some e ->
  MetadataSearchDto.visibility metadata = LOCKED ->
  RandomSearchDto.visibility random = LOCKED ->
  Endpoints.searchMetadata env repos auth metadata t
  = (Endpoints.Failure (Endpoints.Raised e), t) /\
  Endpoints.searchRandom env repos auth random t
  = (Endpoints.Failure (Endpoints.Raised e), t).
Proof.
  intros He Hm Hr.
  unfold Endpoints.searchMetadata, Endpoints.searchRandom,
    Endpoints.lockedGate, Endpoints.bind, Endpoints.throw.
  rewrite Hm, Hr, He. split; reflexivity.
Qed.

Lemma locked_search_refused_first_witness :
  Endpoints.searchMetadata sampleEnv Endpoints.sampleRepos sampleAuth
    (MetadataSearchDto.mk None None None LOCKED None []) []
  = (Endpoints.Failure (Endpoints.Raised InsufficientPermission), []) /\
  Endpoints.searchRandom sampleEnv Endpoints.sampleRepos sampleAuth
    (RandomSearchDto.mk None LOCKED []) []
  = (Endpoints.Failure (Endpoints.Raised InsufficientPermission), []).
Proof.
  apply (locked_search_refused_first sampleEnv Endpoints.sampleRepos sampleAuth
           InsufficientPermission
           (MetadataSearchDto.mk None None None LOCKED None [])
           (RandomSearchDto.mk None LOCKED []) []); reflexivity.
Defined.

(** X11.  Every endpoint that searches within user ids ([searchMetadata],
    [searchStatistics], [searchRandom], [getAssetsByCity],
    [getSearchSuggestions]) asks the partner directory first, for the
    requesting user, and then at most one repository, with exactly the
    requesting user followed by the partners that the directory answered;
    when the directory fails no repository is asked.  This holds in every
    run, also one that fails. *)
Theorem searches_stay_within_user_and_partners (env : Collaborators)
      (repos : Endpoints.Repositories) (auth : AuthDto)
      (t : list Endpoints.call) :
  (forall dto, exists made,
      snd (Endpoints.searchMetadata env repos auth dto t) = t ++ made /\
      Endpoints.scoped repos auth t made) /\
  (forall dto, exists made,
      snd (Endpoints.searchStatistics repos auth dto t) = t ++ made /\
      Endpoints.scoped repos auth t made) /\
  (forall dto, exists made,
      snd (Endpoints.searchRandom env repos auth dto t) = t ++ made /\
      Endpoints.scoped repos auth t made) /\
  (exists made,
      snd (Endpoints.getAssetsByCity repos auth t) = t ++ made /\
      Endpoints.scoped repos auth t made) /\
  (forall dto, exists made,
      snd (Endpoints.getSearchSuggestions repos auth dto t) = t ++ made /\
      Endpoints.scoped repos auth t made).
Proof.
  repeat split; intros.
  - apply searchMetadata_scoped.
  - apply searchStatistics_scoped.
  - apply searchRandom_scoped.
  - apply getAssetsByCity_scoped.
  - apply getSearchSuggestions_scoped.
Qed.

(** X12.  The checksum of a metadata search is read as it is written: the
    base64 text of 19 to 21 bytes (28 characters, as for a SHA-1 digest of
    20 bytes) and the hexadecimal text, in lower or in upper case, of any
    number of bytes other than 0 and 14 are both decoded to the bytes they
    were made from. *)
Theorem checksum_read_as_written (dto : MetadataSearchDto.t)
      (digest : list N) :
  forallb isByte digest = true ->
  (MetadataSearchDto.checksum dto = Some (base64Of digest) /\
   19 <= length digest <= 21) \/
  (exists upper,
      MetadataSearchDto.checksum dto = Some (hexOf upper digest) /\
      digest <> [] /\ length digest <> 14) ->
  Endpoints.checksumOf dto = Some digest.
Proof.
  intros Hbytes [[E Hlen]|(upper & E & Hne & Hlen)];
    unfold Endpoints.checksumOf; rewrite E.
  - assert (Hl : length (base64Of digest) = 28).
    { rewrite base64Of_length.
      assert ((length digest + 2) / 3 = 7); [|lia].
      symmetry. apply (Nat.div_unique _ 3 7 (length digest + 2 - 21)); lia. }
    rewrite truthyString_nonempty
      by (intros E0; rewrite E0 in Hl; discriminate Hl).
    rewrite Hl. cbn [Nat.eqb Buffer.from].
    rewrite fromBase64_base64Of by exact Hbytes. reflexivity.
  - assert (Hl : length (hexOf upper digest) = 2 * length digest)
      by apply hexOf_length.
    rewrite truthyString_nonempty.
    2:{ intros E0. rewrite E0 in Hl. destruct digest; [contradiction|].
        simpl in Hl. lia. }
    replace (length (hexOf upper digest) =? 28) with false
      by (symmetry; apply Nat.eqb_neq; lia).
    cbn [Buffer.from]. rewrite fromHex_hexOf by exact Hbytes. reflexivity.
Qed.

Lemma checksum_read_as_written_witness :
  Endpoints.checksumOf
    (MetadataSearchDto.mk (Some (str "2jmj7l5rSw0yVb/vlWAYkK/YBwk="))
                          None None NOT_LOCKED None [])
  = Some [218; 57; 163; 238; 94; 107; 75; 13; 50; 85; 191; 239; 149; 96; 24;
          144; 175; 216; 7; 9]%N.
Proof.
  apply (checksum_read_as_written
           (MetadataSearchDto.mk (Some (str "2jmj7l5rSw0yVb/vlWAYkK/YBwk="))
                                 None None NOT_LOCKED None [])
           [218; 57; 163; 238; 94; 107; 75; 13; 50; 85; 191; 239; 149; 96; 24;
            144; 175; 216; 7; 9]%N).
  - reflexivity.
  - left. split; [vm_compute; reflexivity|simpl; lia].
Defined.



(** X14.  A random search that is answered has called the directory and
    then the index once, for the size of the request or 250 (also when the
    size is 0), within the requesting user followed by the partners, and it
    answers the assets that the index answered, each one mapped, in their
    order. *)
Theorem random_search_asks_once (env : Collaborators)
      (repos : Endpoints.Repositories) (auth : AuthDto)
      (dto : RandomSearchDto.t) (t t' : list Endpoints.call)
      (r : list AssetResponseDto) :
  Endpoints.searchRandom env repos auth dto t = (Endpoints.Success r, t') ->
  let size := Endpoints.sizeOr250 (RandomSearchDto.size dto) in
  exists partners items,
    Endpoints.getMyPartnerIds repos t (userId auth) = Replied partners /\
    Endpoints.searchRandomIndex repos
      (t ++ [Endpoints.GetPartnerIds (userId auth)]) size dto
      (userId auth :: partners)
    = Replied items /\
    t' = t ++ [Endpoints.GetPartnerIds (userId auth);
               Endpoints.SearchRandom size dto (userId auth :: partners)] /\
    size <> 0%N /\
    r = map (fun item => mapAsset env item auth) items /\
    length r = length items.
Proof.
  intros H size.
  unfold Endpoints.searchRandom, Endpoints.lockedGate,
    Endpoints.getUserIdsToSearch, Endpoints.bind, Endpoints.perform,
    Endpoints.ret, Endpoints.throw in H.
  fold size in H.
  destruct (RandomSearchDto.visibility dto);
    [destruct (Endpoints.requireElevatedPermission repos auth);
     [discriminate|]|];
    (destruct (Endpoints.getMyPartnerIds repos t (userId auth))
       as [code|partners]; [discriminate|];
     destruct (Endpoints.searchRandomIndex repos
                 (t ++ [Endpoints.GetPartnerIds (userId auth)]) size dto
                 (userId auth :: partners))
       as [code|items] eqn:Ei; [discriminate|];
     injection H as <- <-;
     exists partners, items;
     split; [reflexivity|]; split; [exact Ei|];
     split; [rewrite <- app_assoc; reflexivity|];
     split; [apply sizeOr250_nonzero|];
     split; [reflexivity|apply length_map]).
Qed.

Lemma random_search_asks_once_witness :
  exists r t' partners items,
    Endpoints.searchRandom sampleEnv Endpoints.sampleRepos sampleAuth
      (RandomSearchDto.mk None NOT_LOCKED []) []
    = (Endpoints.Success r, t') /\
    t' = [Endpoints.GetPartnerIds (userId sampleAuth);
          Endpoints.SearchRandom 250 (RandomSearchDto.mk None NOT_LOCKED [])
                                 (userId sampleAuth :: partners)] /\
    r = map (fun item => mapAsset sampleEnv item sampleAuth) items.
Proof.
  destruct (Endpoints.searchRandom sampleEnv Endpoints.sampleRepos sampleAuth
              (RandomSearchDto.mk None NOT_LOCKED []) [])
    as [[f|r] t'] eqn:E; [vm_compute in E; discriminate E|].
  destruct (random_search_asks_once sampleEnv Endpoints.sampleRepos sampleAuth
              (RandomSearchDto.mk None NOT_LOCKED []) [] t' r E)
    as (partners & items & _ & _ & Ht & _ & Hr & _).
  exists r, t', partners, items.
  split; [reflexivity|]. split; [exact Ht|exact Hr].
Defined.

(** X15.  The suggestions that are answered are the ones of the repository
    for the type of the request, asked within the requesting user followed
    by the partners, unchanged and in their order; with [includeNull] one
    null is added after them, also when the repository answered a null
    already. *)
Theorem suggestions_null_added_last (repos : Endpoints.Repositories)
      (auth : AuthDto) (dto : SearchSuggestionRequestDto.t)
      (t t' : list Endpoints.call) (r : list (option jsString)) :
  Endpoints.getSearchSuggestions repos auth dto t = (Endpoints.Success r, t') ->
  exists partners suggestions,
    Endpoints.getMyPartnerIds repos t (userId auth) = Replied partners /\
    Endpoints.suggestionsReply repos
      (t ++ [Endpoints.GetPartnerIds (userId auth)])
      (userId auth :: partners) dto
    = Replied suggestions /\
    r = suggestions ++ (if SearchSuggestionRequestDto.includeNull dto
                        then [None] else []).
Proof.
  intros H.
  unfold Endpoints.getSearchSuggestions, Endpoints.getSuggestions,
    Endpoints.getUserIdsToSearch, Endpoints.bind, Endpoints.perform,
    Endpoints.ret in H.
  unfold Endpoints.suggestionsReply.
  destruct (Endpoints.getMyPartnerIds repos t (userId auth))
    as [code|partners]; [discriminate|].
  exists partners.
  destruct (SearchSuggestionRequestDto.type dto);
    try match type of H with
        | context [match ?x with Failed _ => _ | Replied _ => _ end] =>
            destruct x as [code|suggestions]; [discriminate|]
        end;
    injection H as <- _;
    eexists; (split; [reflexivity|]); (split; [reflexivity|]);
    destruct (SearchSuggestionRequestDto.includeNull dto);
    rewrite ?app_nil_r; reflexivity.
Qed.

Lemma suggestions_null_added_last_witness :
  exists r t' partners suggestions,
    Endpoints.getSearchSuggestions Endpoints.sampleRepos sampleAuth
      (SearchSuggestionRequestDto.mk COUNTRY true []) []
    = (Endpoints.Success r, t') /\
    Endpoints.suggestionsReply Endpoints.sampleRepos
      [Endpoints.GetPartnerIds (userId sampleAuth)]
      (userId sampleAuth :: partners)
      (SearchSuggestionRequestDto.mk COUNTRY true [])
    = Replied suggestions /\
    r = suggestions ++ [None].
Proof.
  destruct (Endpoints.getSearchSuggestions Endpoints.sampleRepos sampleAuth
              (SearchSuggestionRequestDto.mk COUNTRY true []) [])
    as [[f|r] t'] eqn:E; [vm_compute in E; discriminate E|].
  destruct (suggestions_null_added_last Endpoints.sampleRepos sampleAuth
              (SearchSuggestionRequestDto.mk COUNTRY true []) [] t' r E)
    as (partners & suggestions & _ & Hs & Hr).
  exists r, t', partners, suggestions.
  split; [reflexivity|]. split; [exact Hs|exact Hr].
Defined.

(** X16.  For a type of suggestion other than the five that
    [getSuggestions] tells apart, no repository of suggestions is asked:
    once the directory has answered, the request is answered with no
    suggestion, or with the single null of [includeNull]. *)
Theorem unknown_suggestion_type_asks_nothing (repos : Endpoints.Repositories)
      (auth : AuthDto) (dto : SearchSuggestionRequestDto.t)
      (t : list Endpoints.call) (partners : list jsString) :
  SearchSuggestionRequestDto.type dto = OTHER_TYPE ->
  Endpoints.getMyPartnerIds repos t (userId auth) = Replied partners ->
  Endpoints.getSearchSuggestions repos auth dto t
  = (Endpoints.Success (if SearchSuggestionRequestDto.includeNull dto
                        then [None] else []),
     t ++ [Endpoints.GetPartnerIds (userId auth)]).
Proof.
  intros Htype Hdir.
  unfold Endpoints.getSearchSuggestions, Endpoints.getSuggestions,
    Endpoints.getUserIdsToSearch, Endpoints.bind, Endpoints.perform,
    Endpoints.ret.
  rewrite Hdir, Htype. reflexivity.
Qed.

Lemma unknown_suggestion_type_asks_nothing_witness :
  Endpoints.getSearchSuggestions Endpoints.sampleRepos sampleAuth
    (SearchSuggestionRequestDto.mk OTHER_TYPE true []) []
  = (Endpoints.Success [None], [Endpoints.GetPartnerIds (userId sampleAuth)]).
Proof.
  apply (unknown_suggestion_type_asks_nothing Endpoints.sampleRepos sampleAuth
           (SearchSuggestionRequestDto.mk OTHER_TYPE true []) []
           [str "partner-1"]); reflexivity.
Defined.

(** X17.  [getExploreData] asks for the cities of the requesting user with
    at most 12 fields and at least 5 assets per field, and then for the
    assets of the ids answered, in their order.  When each of these assets
    has its [exifInfo], the answer is one field, named as the repository
    named it, with one item per asset in their order: the city of the asset,
    which may be null, and the mapped asset.  When one asset has no
    [exifInfo], the request fails with a [TypeError] after both calls. *)
Theorem explore_needs_exif_info (env : Collaborators)
      (repos : Endpoints.Repositories) (auth : AuthDto)
      (t : list Endpoints.call) (cities : CityItems) (assets : list MapAsset) :
  Endpoints.getAssetIdByCity repos t (userId auth) 12 5 = Replied cities ->
  Endpoints.getByIdsWithAllRelationsButStacks repos
    (t ++ [Endpoints.GetAssetIdByCity (userId auth) 12 5])
    (map data (cityItems cities))
  = Replied assets ->
  exists outcome,
    Endpoints.getExploreData env repos auth t
    = (outcome,
       t ++ [Endpoints.GetAssetIdByCity (userId auth) 12 5;
             Endpoints.GetByIdsWithAllRelationsButStacks
               (map data (cityItems cities))]) /\
    if forallb (Endpoints.hasExifInfo repos) assets
    then exists items,
        outcome = Endpoints.Success [mkExploreField (fieldName cities) items] /\
        map snd items = map (fun asset => mapAsset env asset auth) assets /\
        map (fun item => Some (fst item)) items
        = map (Endpoints.exifInfo repos) assets
    else outcome = Endpoints.Failure Endpoints.TypeError.
Proof.
  intros Hc Ha.
  unfold Endpoints.getExploreData, Endpoints.bind, Endpoints.perform,
    Endpoints.ret, Endpoints.throw.
  rewrite Hc, Ha, <- app_assoc. cbn [app].
  destruct (forallb (Endpoints.hasExifInfo repos) assets) eqn:E.
  - destruct (exploreItemsOf_some env repos auth assets E)
      as (items & -> & Hdata & Hcity).
    eexists. split; [reflexivity|]. exists items. repeat split; assumption.
  - rewrite (exploreItemsOf_none env repos auth assets E).
    eexists. split; reflexivity.
Qed.

Lemma explore_needs_exif_info_witness :
  exists outcome,
    Endpoints.getExploreData sampleEnv Endpoints.sampleRepos sampleAuth []
    = (outcome,
       [Endpoints.GetAssetIdByCity (userId sampleAuth) 12 5;
        Endpoints.GetByIdsWithAllRelationsButStacks [str "asset-1"]]) /\
    exists items,
      outcome = Endpoints.Success [mkExploreField (str "exifInfo.city") items] /\
      map snd items = [1%N] /\
      map (fun item => Some (fst item)) items = [Some (Some (str "Brest"))].
Proof.
  exact (explore_needs_exif_info sampleEnv Endpoints.sampleRepos sampleAuth []
           (mkCityItems (str "exifInfo.city") [mkCityItem (str "asset-1")])
           [1%N] eq_refl eq_refl).
Defined.
